(** * Focusd activity summarisation pipeline: classifier, event ingestor, summarizer

    A shallow embedding of three services of the focusd productivity tracker

      - [app-tracker.ts]      (module [Classifier])
      - [event-ingestion.ts]  (module [Ingestion])
      - [summarizer.ts]       (module [Summarizer])

    together with the properties the written specification states about them.

    JavaScript strings are sequences of UTF-16 code units and are modelled as
    [list N]; integers (unix timestamps, durations) are [Z], the safe
    integers of the source; objects used as dictionaries are [gmap]s of
    their own properties; module-level [let] variables are fields of an
    explicit state record. *)

From Stdlib Require Import ZArith NArith Lia List Bool String Ascii Sorted.
From stdpp Require Import base decidable option list gmap.
Import ListNotations.
Local Open Scope Z_scope.
Set Warnings "-register-all".

(* ===================================================================== *)
(** ** JavaScript values *)
(* ===================================================================== *)

Module JS.

(** A JavaScript string: its UTF-16 code units. *)
Definition jsstring : Type := list N.

(** The code units of an ASCII literal of the source. *)
Definition js (s : string) : jsstring :=
  List.map N_of_ascii (list_ascii_of_string s).

(** [!!s] for a string: the empty string is the only falsy one. *)
Definition nonEmpty (s : jsstring) : bool :=
  match s with [] => false | _ :: _ => true end.

(** Truthiness of a [string | undefined] value. *)
Definition truthyStr (o : option jsstring) : bool :=
  match o with Some s => nonEmpty s | None => false end.

(** [o || undefined] on a [string | undefined] value. *)
Definition orUndefined (o : option jsstring) : option jsstring :=
  if truthyStr o then o else None.

(** [o || d] on a [string | undefined] value. *)
Definition orDefault (o : option jsstring) (d : jsstring) : jsstring :=
  match o with
  | Some s => if nonEmpty s then s else d
  | None => d
  end.

(** [s.slice(0, n)]. *)
Definition slice0 (n : nat) (s : jsstring) : jsstring := take n s.

(** [parts.join(sep)]. *)
Fixpoint join (sep : jsstring) (parts : list jsstring) : jsstring :=
  match parts with
  | [] => []
  | [p] => p
  | p :: rest => p ++ sep ++ join sep rest
  end.

(** ECMAScript WhiteSpace and LineTerminator code units: what [\s] matches
    and what [trim] removes. *)
Definition isSpace (c : N) : bool :=
  ((9 <=? c) && (c <=? 13) || (c =? 32) || (c =? 160) || (c =? 5760)
   || (8192 <=? c) && (c <=? 8202) || (c =? 8232) || (c =? 8233)
   || (c =? 8239) || (c =? 8287) || (c =? 12288) || (c =? 65279))%N.

Fixpoint trimStart (s : jsstring) : jsstring :=
  match s with
  | c :: s' => if isSpace c then trimStart s' else s
  | [] => []
  end.

Definition trim (s : jsstring) : jsstring :=
  rev (trimStart (rev (trimStart s))).

Definition isUpper (c : N) : bool := ((65 <=? c) && (c <=? 90))%N.
Definition isLower (c : N) : bool := ((97 <=? c) && (c <=? 122))%N.
Definition isDigit (c : N) : bool := ((48 <=? c) && (c <=? 57))%N.

(** Lower-casing of one code unit in the range A-Z; other code units are
    returned as they are.  [toLowerCase] is applied by the modelled code to
    candidate names only, which the capturing patterns restrict to
    [A-Za-z0-9_. -] (see [Classifier.nameClass]). *)
Definition lowerUnit (c : N) : N := if isUpper c then (c + 32)%N else c.

Definition toLowerCase (s : jsstring) : jsstring := List.map lowerUnit s.

(** A decoded JSON document, as [JSON.parse] returns it.  Numbers are kept
    to the integers. *)
Inductive json : Type :=
| JNull
| JBool (b : bool)
| JNum (n : Z)
| JStr (s : jsstring)
| JArr (items : list json)
| JObj (fields : list (jsstring * json)).

(** Truthiness of a JavaScript value; [None] is [undefined]. *)
Definition truthy (v : option json) : bool :=
  match v with
  | None => false
  | Some JNull => false
  | Some (JBool b) => b
  | Some (JNum n) => negb (n =? 0)
  | Some (JStr s) => nonEmpty s
  | Some (JArr _) => true
  | Some (JObj _) => true
  end.

Fixpoint lookupField (k : jsstring) (fields : list (jsstring * json)) : option json :=
  match fields with
  | [] => None
  | (k', v) :: rest =>
      (* JSON.parse keeps the last occurrence of a duplicated key *)
      match lookupField k rest with
      | Some v' => Some v'
      | None => if bool_decide (k = k') then Some v else None
      end
  end.

(** Property access [v.k] on a decoded document.  [inl tt] is the TypeError
    of reading a property of [null]; [inr None] is [undefined].  None of the
    keys the summarizer reads is an own or inherited property of a boolean,
    number, string or array. *)
Definition getProp (v : json) (k : jsstring) : unit + option json :=
  match v with
  | JNull => inl tt
  | JObj fields => inr (lookupField k fields)
  | _ => inr None
  end.

End JS.

(* ===================================================================== *)
(** ** A backtracking matcher for the regular expressions of the source *)
(* ===================================================================== *)

Module Regex.
Import JS.

(** The fragment of the regular-expression language the modelled functions
    use.  Quantifiers are applied to character classes only. *)
Inductive re : Type :=
| Eps
| Eol                                   (* [$] *)
| Cls (p : N -> bool)                   (* one code unit of a class *)
| Rep (p : N -> bool) (min : nat)       (* greedy [cls{min,}] *)
| Opt (r : re)                          (* greedy [r?] *)
| Seq (r1 r2 : re)
| Alt (r1 r2 : re).

(** The ways [p{0,}] can match a prefix of [s], longest first, each given by
    the number of units consumed and the rest of the input. *)
Fixpoint repClass (p : N -> bool) (s : jsstring) : list (nat * jsstring) :=
  match s with
  | c :: s' =>
      if p c
      then List.map (fun '(k, r) => (S k, r)) (repClass p s') ++ [(O, s)]
      else [(O, s)]
  | [] => [(O, [])]
  end.

(** All the ways [r] matches a prefix of [s], in the priority order of a
    backtracking engine; each way is given by the input left over. *)
Fixpoint matches (r : re) (s : jsstring) : list jsstring :=
  match r with
  | Eps => [s]
  | Eol => match s with [] => [s] | _ => [] end
  | Cls p => match s with c :: s' => if p c then [s'] else [] | [] => [] end
  | Rep p min =>
      List.map snd (List.filter (fun '(k, _) => (min <=? k)%nat) (repClass p s))
  | Opt r1 => matches r1 s ++ [s]
  | Seq r1 r2 => flat_map (matches r2) (matches r1 s)
  | Alt r1 r2 => matches r1 s ++ matches r2 s
  end.

(** [/^r/.test(s)]. *)
Definition testAtStart (r : re) (s : jsstring) : bool :=
  match matches r s with [] => false | _ :: _ => true end.

(** [/r/.test(s)]: a match starting at some offset. *)
Fixpoint test (r : re) (s : jsstring) : bool :=
  testAtStart r s ||
  match s with
  | _ :: s' => test r s'
  | [] => false
  end.

(** A pattern [pre (grp) post] with one capturing group. *)
Record pattern : Type := Pattern { pre : re; grp : re; post : re }.

(** The capture of the first successful way to match [pt] at the start of
    [s]: the choices for [pre] and [grp] are tried in priority order and the
    first pair after which [post] matches wins. *)
Definition captureAtStart (pt : pattern) (s : jsstring) : option jsstring :=
  head (flat_map (fun s1 =>
          flat_map (fun s2 =>
            if testAtStart (post pt) s2
            then [take (length s1 - length s2)%nat s1]
            else [])
          (matches (grp pt) s1))
        (matches (pre pt) s)).

(** [s.match(/pre(grp)post/)] and then group 1 of the result: the leftmost
    match. *)
Fixpoint capture (pt : pattern) (s : jsstring) : option jsstring :=
  match captureAtStart pt s with
  | Some c => Some c
  | None =>
      match s with
      | _ :: s' => capture pt s'
      | [] => None
      end
  end.

(** A literal under the [i] flag: ASCII letters match in either case (without
    the [u] flag no code unit above 127 folds to an ASCII letter). *)
Definition unitCI (x : N) : re :=
  Cls (fun c => (lowerUnit c =? lowerUnit x)%N).

Definition litCI (s : string) : re :=
  fold_right (fun x r => Seq (unitCI x) r) Eps (js s).

Definition alts (rs : list re) : re :=
  match rs with
  | [] => Cls (fun _ => false)
  | r :: rest => fold_left Alt rest r
  end.

Definition oneOf (s : string) : N -> bool :=
  fun c => existsb (N.eqb c) (js s).

(** [\w]. *)
Definition wordChar (c : N) : bool :=
  isUpper c || isLower c || isDigit c || (c =? 95)%N.

End Regex.

(* ===================================================================== *)
(** ** app-tracker.ts: project inference *)
(* ===================================================================== *)

Module Classifier.
Import JS Regex.

(** [[\w. _-]] *)
Definition nameClass (c : N) : bool := wordChar c || oneOf ". _-" c.

(** [[\w._-]] *)
Definition segmentClass (c : N) : bool := wordChar c || oneOf "._-" c.

(** [[-–—]]: hyphen, en dash, em dash. *)
Definition dashClass (c : N) : bool :=
  ((c =? 45) || (c =? 8211) || (c =? 8212))%N.

(** [[\\/]] *)
Definition slashClass (c : N) : bool := oneOf "\/" c.

(** [/([\w][\w. _-]{2,})\s*[-–—]\s*(?:VS Code|Visual Studio|Cursor|IntelliJ|WebStorm|PyCharm|GoLand|Xcode|Sublime)/i] *)
Definition titlePattern : pattern :=
  {| pre := Eps;
     grp := Seq (Cls wordChar) (Rep nameClass 2);
     post :=
       Seq (Rep isSpace 0)
      (Seq (Cls dashClass)
      (Seq (Rep isSpace 0)
           (alts (List.map litCI
              ["VS Code"; "Visual Studio"; "Cursor"; "IntelliJ"; "WebStorm";
               "PyCharm"; "GoLand"; "Xcode"; "Sublime"]%string)))) |}.

(** [/[\\/]([\w][\w._-]{2,})[\\/](?:src|lib|app|packages?|cmd)[\\/]/i] *)
Definition pathPattern : pattern :=
  {| pre := Cls slashClass;
     grp := Seq (Cls wordChar) (Rep segmentClass 2);
     post :=
       Seq (Cls slashClass)
      (Seq (alts [litCI "src"; litCI "lib"; litCI "app";
                  Seq (litCI "package") (Opt (litCI "s")); litCI "cmd"])
           (Cls slashClass)) |}.

Definition REJECTED_NAMES : gset jsstring :=
  list_to_set (List.map js
    ["src"; "lib"; "dist"; "build"; "node_modules"; "public"; "out";
     "components"; "pages"; "utils"; "hooks"; "types"; "assets";
     "styles"; "tests"; "test"; "__tests__"; "spec"; "bin"; "tmp";
     "desktop"; "downloads"; "documents"; "applications"; "users";
     "home"; "root"; "var"; "etc"; "usr"; "opt"; "volumes";
     "untitled"; "workspace"; "project"; "folder"; "file"; "new"]%string).

Definition GENERIC_WORDS : gset jsstring :=
  list_to_set (List.map js
    ["tabs"; "and"; "the"; "for"; "with"; "from"; "input"; "output";
     "start"; "stop"; "play"; "code"; "data"; "home"; "main"; "index";
     "origin"; "master"; "objects"; "functions"; "channels"; "progress";
     "space"; "search"; "system"; "network"; "process"; "processor";
     "movies"; "ctrl"; "experiments"; "temporal"; "latency"; "humanoid";
     "conversations"; "debugging"; "coding"; "browsing"; "reading";
     "meeting"; "designing"; "learning"; "working"; "watching"]%string).

(** [/\.(com|org|io|dev|net|co|app|xyz|ai|me|tv|gg)$/i] *)
Definition domainSuffix : re :=
  Seq (Cls (oneOf "."))
 (Seq (alts (List.map litCI
        ["com"; "org"; "io"; "dev"; "net"; "co"; "app"; "xyz"; "ai"; "me";
         "tv"; "gg"]%string))
      Eol).

(** [/^(www|http|ftp)\./i], without its anchor. *)
Definition urlPrefix : re :=
  Seq (alts (List.map litCI ["www"; "http"; "ftp"]%string)) (Cls (oneOf ".")).

(** [/^[a-z]+$/], without its first anchor. *)
Definition lowerWord : re := Seq (Rep isLower 1) Eol.

Definition isValidProject (name : jsstring) : bool :=
  let lower := toLowerCase name in
  if ((length lower <? 3) || (50 <? length lower))%nat then false
  else if test domainSuffix lower then false
  else if testAtStart urlPrefix lower then false
  else if bool_decide (lower ∈ REJECTED_NAMES) then false
  else if testAtStart lowerWord lower && bool_decide (lower ∈ GENERIC_WORDS) then false
  else true.

(** The result of one text of the loop: [Some p] when the loop returns [p]
    at this text, [None] when it goes on to the next text. *)
Definition inferProjectIn (text : jsstring) : option jsstring :=
  match capture titlePattern text with
  | Some g1 =>
      let name := trim g1 in
      if isValidProject name then Some name
      else
        match capture pathPattern text with
        | Some p => if isValidProject p then Some p else None
        | None => None
        end
  | None =>
      match capture pathPattern text with
      | Some p => if isValidProject p then Some p else None
      | None => None
      end
  end.

Fixpoint inferProject (sceneTexts : list jsstring) : option jsstring :=
  match sceneTexts with
  | [] => None
  | text :: rest =>
      match inferProjectIn text with
      | Some p => Some p
      | None => inferProject rest
      end
  end.

(** [a\s*b] under the [i] flag. *)
Definition spaced (a b : string) : re :=
  Seq (litCI a) (Seq (Rep isSpace 0) (litCI b)).

(** The keyword tests of [inferAction], in the order of its [if] chain, each
    with the tag it returns. *)
Definition ACTION_RULES : list (re * jsstring) :=
  [ (alts [litCI "coding"; spaced "editing" "code"; spaced "writing" "code";
           litCI "programming"; litCI "debugging"], js "coding");
    (alts [litCI "browsing"; litCI "searching"; litCI "navigating"; litCI "web"],
     js "browsing");
    (alts [litCI "chatting"; litCI "messaging"; litCI "replying";
           litCI "conversation"], js "chatting");
    (alts [litCI "reading"; litCI "reviewing"; spaced "viewing" "doc"],
     js "reading");
    (alts [litCI "meeting"; litCI "call"; spaced "video" "call";
           litCI "conference"], js "meeting");
    (alts [litCI "writing"; litCI "composing"; litCI "drafting";
           spaced "typing" "doc"], js "writing");
    (alts [litCI "designing"; litCI "prototyping"; litCI "wireframing"],
     js "designing");
    (alts [litCI "watching"; litCI "streaming"; litCI "playing"], js "watching");
    (alts [litCI "email"; litCI "inbox"; litCI "reply"], js "emailing") ].

(** [inferAction].  Every test carries the [i] flag, so the lower-casing of
    the joined text does not change which test succeeds first: the only code
    units above 127 whose lower case contains an ASCII letter give [k], which
    no keyword contains, or [i] followed by a combining dot, and no keyword
    ends in [i]. *)
Definition inferAction (sceneTexts : list jsstring) : jsstring :=
  match sceneTexts with
  | [] => js "unknown"
  | _ :: _ =>
      let combined := toLowerCase (join (js " ") sceneTexts) in
      match List.find (fun rule => test (fst rule) combined) ACTION_RULES with
      | Some rule => snd rule
      | None => js "working"
      end
  end.

End Classifier.

(* ===================================================================== *)
(** ** event-ingestion.ts *)
(* ===================================================================== *)

Module Ingestion.
Import JS.

Inductive Channel : Type :=
| scene_index | visual_index | transcript | spoken_index | alert.

Inductive AppCategory : Type :=
| development | browsing | communication | documents | design | email
| entertainment | other.

#[global] Instance Channel_eq_dec : EqDecision Channel.
Proof. solve_decision. Defined.

#[global] Instance AppCategory_eq_dec : EqDecision AppCategory.
Proof. solve_decision. Defined.

Record RawEvent : Type := mkRawEvent {
  sessionId : jsstring;
  timestamp : Z;
  channel : Channel;
  appName : option jsstring;
  appCategory : option AppCategory;
  summaryText : option jsstring;
  rawJson : jsstring;
}.

Record ActivitySegment : Type := mkSegment {
  seg_id : option Z;
  seg_sessionId : jsstring;
  startTime : Z;
  endTime : Z;
  primaryApp : option jsstring;
  seg_appCategory : option AppCategory;
  action : jsstring;
  project : option jsstring;
  context : option jsstring;
  transcriptSnippet : option jsstring;
  eventCount : Z;
  isIdle : bool;
}.

Record EventGroup : Type := mkGroup {
  g_appName : option jsstring;
  g_appCategory : option AppCategory;
  g_events : list RawEvent;
}.

(** [hasAppInfo] of [groupByApp]. *)
Definition hasAppInfo (event : RawEvent) : bool :=
  match channel event with
  | scene_index | visual_index | alert => true
  | transcript | spoken_index => false
  end.

Definition newGroup (event : RawEvent) : EventGroup :=
  {| g_appName := appName event;
     g_appCategory := appCategory event;
     g_events := [event] |}.

Definition pushEvent (current : EventGroup) (event : RawEvent) : EventGroup :=
  {| g_appName := g_appName current;
     g_appCategory := g_appCategory current;
     g_events := g_events current ++ [event] |}.

(** One iteration of the loop of [groupByApp] on the pair of its two local
    variables [groups] and [current]. *)
Definition groupStep (st : list EventGroup * option EventGroup) (event : RawEvent)
  : list EventGroup * option EventGroup :=
  let '(groups, current) := st in
  if hasAppInfo event
     && truthyStr (appName event)
     && match current with
        | None => true
        | Some c => bool_decide (appName event ≠ g_appName c)
        end
  then
    (match current with Some c => groups ++ [c] | None => groups end,
     Some (newGroup event))
  else
    match current with
    | Some c => (groups, Some (pushEvent c event))
    | None => (groups, Some (newGroup event))
    end.

(** [if (current) groups.push(current); return groups]. *)
Definition closeGroups (st : list EventGroup * option EventGroup) : list EventGroup :=
  match snd st with
  | Some c => fst st ++ [c]
  | None => fst st
  end.

Definition groupByApp (events : list RawEvent) : list EventGroup :=
  closeGroups (fold_left groupStep events ([], None)).

(** The module-level variables of the ingestor and the two tables of the
    store it writes. *)
Record State : Type := mkState {
  buffer : list RawEvent;
  activeSessionId : option jsstring;
  totalIngested : Z;
  totalFlushed : Z;
  rawEventTable : list RawEvent;
  segmentTable : list ActivitySegment;
}.

(** Modelled from the spec: [db.insertActivitySegment] is not part of the
    sources; the store "exposes insert operations per entity".  The row is
    appended and receives the next row id. *)
Definition insertActivitySegment (seg : ActivitySegment) (table : list ActivitySegment)
  : Z * list ActivitySegment :=
  let id := Z.of_nat (length table) + 1 in
  (id,
   table ++ [ {| seg_id := Some id;
                 seg_sessionId := seg_sessionId seg;
                 startTime := startTime seg;
                 endTime := endTime seg;
                 primaryApp := primaryApp seg;
                 seg_appCategory := seg_appCategory seg;
                 action := action seg;
                 project := project seg;
                 context := context seg;
                 transcriptSnippet := transcriptSnippet seg;
                 eventCount := eventCount seg;
                 isIdle := isIdle seg |} ]).

(** Modelled from the spec: [db.insertRawEvent] appends the event. *)
Definition insertRawEvent (e : RawEvent) (table : list RawEvent) : list RawEvent :=
  table ++ [e].

Definition isSceneText (e : RawEvent) : bool :=
  match channel e with
  | scene_index | visual_index => truthyStr (summaryText e)
  | _ => false
  end.

Definition isTranscriptText (e : RawEvent) : bool :=
  match channel e with
  | transcript => truthyStr (summaryText e)
  | _ => false
  end.

Definition texts (keep : RawEvent -> bool) (events : list RawEvent) : list jsstring :=
  omap summaryText (List.filter keep events).

(** The segment literal built in the loop of [flushToSegments] for a group
    whose first event is [first]. *)
Definition segmentOf (session : jsstring) (idle : bool) (group : EventGroup)
    (first : RawEvent) : ActivitySegment :=
  let sceneTexts := texts isSceneText (g_events group) in
  let transcriptParts := texts isTranscriptText (g_events group) in
  {| seg_id := None;
     seg_sessionId := session;
     startTime := timestamp first;
     endTime := timestamp (List.last (g_events group) first);
     primaryApp := orUndefined (g_appName group);
     seg_appCategory := g_appCategory group;
     action := Classifier.inferAction sceneTexts;
     project := Classifier.inferProject sceneTexts;
     context := slice0 200 <$> head sceneTexts;
     transcriptSnippet :=
       orUndefined (Some (slice0 300 (join (js " ") transcriptParts)));
     eventCount := Z.of_nat (length (g_events group));
     isIdle := idle |}.

(** The body of [for (const group of groups)]: the segment table and the
    counter [segmentsCreated]. *)
Definition flushGroup (session : jsstring) (idle : bool)
    (acc : list ActivitySegment * Z) (group : EventGroup)
  : list ActivitySegment * Z :=
  match g_events group with
  | [] => acc                                        (* continue *)
  | first :: _ =>
      let '(_, table) := insertActivitySegment (segmentOf session idle group first) (fst acc) in
      (table, snd acc + 1)
  end.

(** [flushToSegments]; [idle] is what [isCurrentlyIdle()] answers. *)
Definition flushToSegments (idle : bool) (st : State) : State :=
  match activeSessionId st with
  | Some session =>
      if negb (nonEmpty session) || bool_decide (buffer st = []) then st
      else
        let events := buffer st in                   (* buffer.splice(0) *)
        let groups := groupByApp events in
        let '(table, segmentsCreated) :=
          fold_left (flushGroup session idle) groups (segmentTable st, 0) in
        {| buffer := [];
           activeSessionId := activeSessionId st;
           totalIngested := totalIngested st;
           totalFlushed := totalFlushed st + segmentsCreated;
           rawEventTable := rawEventTable st;
           segmentTable := table |}
  | None => st
  end.

Definition startIngestion (session : jsstring) (st : State) : State :=
  {| buffer := [];
     activeSessionId := Some session;
     totalIngested := 0;
     totalFlushed := 0;
     rawEventTable := rawEventTable st;
     segmentTable := segmentTable st |}.

Definition stopIngestion (idle : bool) (st : State) : State :=
  let st1 :=
    match buffer st with
    | [] => st
    | _ :: _ => flushToSegments idle st
    end in
  {| buffer := buffer st1;
     activeSessionId := None;
     totalIngested := totalIngested st1;
     totalFlushed := totalFlushed st1;
     rawEventTable := rawEventTable st1;
     segmentTable := segmentTable st1 |}.

(** What the [switch] of [ingestEvent] extracts from a message it keeps. *)
Record Dispatched : Type := mkDispatched {
  d_channel : Channel;
  d_appName : option jsstring;
  d_appCategory : option AppCategory;
  d_summaryText : option jsstring;
}.

(** [ingestEvent].  The dispatch of the message on its channel, which calls
    the scene and alert classifiers, is represented by its outcome: [None]
    when the message is discarded (no channel, unknown channel, empty
    text), [Some d] otherwise.  [now] is [Math.floor(Date.now() / 1000)] and
    [raw] is [JSON.stringify(msg)]. *)
Definition ingestEvent (now : Z) (dispatched : option Dispatched) (raw : jsstring)
    (st : State) : State :=
  match activeSessionId st with
  | Some session =>
      if nonEmpty session then
        match dispatched with
        | None => st
        | Some d =>
            let event := {| sessionId := session; timestamp := now;
                            channel := d_channel d; appName := d_appName d;
                            appCategory := d_appCategory d;
                            summaryText := d_summaryText d; rawJson := raw |} in
            {| buffer := buffer st ++ [event];
               activeSessionId := activeSessionId st;
               totalIngested := totalIngested st + 1;
               totalFlushed := totalFlushed st;
               rawEventTable := insertRawEvent event (rawEventTable st);
               segmentTable := segmentTable st |}
        end
      else st
  | None => st
  end.

End Ingestion.

(* ===================================================================== *)
(** ** summarizer.ts *)
(* ===================================================================== *)

Module Summarizer.
Import JS Regex.
Export Ingestion.

(** *** Helpers of the module *)

Definition lit (s : string) : re :=
  fold_right (fun x r => Seq (Cls (N.eqb x)) r) Eps (js s).

(** The first way [r] matches at the start of [s], as the input left over. *)
Definition matchAtStart (r : re) (s : jsstring) : option jsstring :=
  head (matches r s).

(** [s.replace(/r/, '')]: the leftmost match is removed. *)
Fixpoint replaceFirst (r : re) (s : jsstring) : jsstring :=
  match matchAtStart r s with
  | Some rest => rest
  | None =>
      match s with
      | c :: s' => c :: replaceFirst r s'
      | [] => []
      end
  end.

(** [s.replace(/^r/, '')]. *)
Definition replaceAtStart (r : re) (s : jsstring) : jsstring :=
  match matchAtStart r s with
  | Some rest => rest
  | None => s
  end.

Definition startsWith (p s : jsstring) : bool :=
  bool_decide (take (length p) s = p).

(** [/^```(?:json)?\s*\n?/], without its anchor. *)
Definition fenceOpen : re :=
  Seq (lit "```") (Seq (Opt (lit "json")) (Seq (Rep isSpace 0) (Opt (Cls (N.eqb 10))))).

(** [/\n?```\s*$/] *)
Definition fenceClose : re :=
  Seq (Opt (Cls (N.eqb 10))) (Seq (lit "```") (Seq (Rep isSpace 0) Eol)).

Definition stripCodeFences (raw : jsstring) : jsstring :=
  let s := trim raw in
  let s := if startsWith (js "```") s
           then replaceFirst fenceClose (replaceAtStart fenceOpen s)
           else s in
  trim s.

(** [Number.isSafeInteger]: the integers a number holds exactly. *)
Definition isSafeInteger (n : Z) : bool :=
  (- (2 ^ 53 - 1) <=? n) && (n <=? 2 ^ 53 - 1).

(** The decimal numeral of an integer, as a template literal prints it.
    A number of the source is modelled by the integer it holds; the
    numeral is the one the source prints as long as the integer is a safe
    one ([isSafeInteger]), which the Unix times in seconds and their
    differences are. *)
Definition dec (n : Z) : jsstring := js (pretty.pretty n).

(** [fmtDuration] on a safe integer: there [Math.floor(secs / 60)] is the
    integer quotient and [secs % 60] the remainder (the operand of the
    remainder is at least 60 when it is taken).  Beyond the safe integers
    the source rounds and this definition does not follow it. *)
Definition fmtDuration (secs : Z) : jsstring :=
  if secs <? 60 then dec secs ++ js "s"
  else
    let m := secs / 60 in
    let s := secs mod 60 in
    if 0 <? s then dec m ++ js "m " ++ dec s ++ js "s" else dec m ++ js "m".

(** [String(v)] for a decoded JSON value. *)
Fixpoint toStr (v : json) : jsstring :=
  match v with
  | JNull => js "null"
  | JBool b => if b then js "true" else js "false"
  | JNum n => dec n
  | JStr s => s
  | JArr items =>
      join (js ",")
        (List.map (fun x => match x with JNull => [] | _ => toStr x end) items)
  | JObj _ => js "[object Object]"
  end.

(** [/\.com$|\.org$|\.io$|\.dev$/i] *)
Definition tldSuffix : re :=
  alts [Seq (litCI ".com") Eol; Seq (litCI ".org") Eol;
        Seq (litCI ".io") Eol; Seq (litCI ".dev") Eol].

Definition normalizeApp (app : jsstring) : jsstring := replaceFirst tldSuffix app.

(** The names of the properties a plain object [{}] inherits from
    [Object.prototype]. *)
Definition INHERITED_KEYS : list jsstring :=
  List.map js
    ["constructor"; "hasOwnProperty"; "isPrototypeOf"; "propertyIsEnumerable";
     "toLocaleString"; "toString"; "valueOf"; "__defineGetter__";
     "__defineSetter__"; "__lookupGetter__"; "__lookupSetter__";
     "__proto__"]%string.

(** A value held by a dictionary that is filled with
    [obj[k] = (obj[k] || 0) + n]: a number, or a string, namely the text
    that [+] makes of an inherited property followed by numerals.  The text
    itself, which depends on the engine, is not modelled. *)
Inductive DictValue : Type :=
| DNum (n : Z)
| DText.

#[global] Instance DictValue_eq_dec : EqDecision DictValue.
Proof. solve_decision. Defined.

(** [obj[k] = (obj[k] || 0) + n] on an object created as [{}]; the map
    holds the own properties.  An own number is added to.  An own string is
    truthy, so [+] appends the numeral and the value stays a string.  A key
    that is no own property is read through the prototype: [__proto__]
    reads as the prototype object, [+] makes a string of it, and the
    [__proto__] setter ignores a string, so that no property is created;
    any other inherited name reads as a function, [+] makes a string of it,
    and the string is stored as an own property; every other key reads as
    [undefined], and [0 + n] is stored. *)
Definition addTo (k : jsstring) (n : Z) (obj : gmap jsstring DictValue)
  : gmap jsstring DictValue :=
  match obj !! k with
  | Some (DNum m) => <[k := DNum (m + n)]> obj
  | Some DText => <[k := DText]> obj
  | None =>
      if bool_decide (k = js "__proto__") then obj
      else if bool_decide (k ∈ INHERITED_KEYS) then <[k := DText]> obj
      else <[k := DNum n]> obj
  end.

(** [typeof secs === 'number' ? secs : 0] *)
Definition numberOr0 (v : DictValue) : Z :=
  match v with DNum n => n | DText => 0 end.

(** *** Rows of the store *)

Record MicroSummary : Type := mkMicro {
  m_id : option Z;
  m_sessionId : jsstring;
  m_startTime : Z;
  m_endTime : Z;
  m_summary : json;
  m_appBreakdown : gmap jsstring DictValue;
  m_primaryActivity : option json;
  m_productivityLabel : json;
  m_project : option jsstring;
  m_segmentIds : list Z;
}.

Record SessionSummary : Type := mkSession {
  s_id : option Z;
  s_sessionId : jsstring;
  s_date : jsstring;
  s_startTime : Z;
  s_endTime : Z;
  s_summary : json;
  s_keyActivities : list jsstring;
  s_projects : gmap jsstring DictValue;
  s_appStats : gmap jsstring DictValue;
  s_productivityLabel : json;
}.

Record DrillDown : Type := mkDrillDown {
  dd_title : option json;
  dd_summary : option json;
  dd_startTime : option Z;        (* [None] is NaN *)
  dd_endTime : option Z;
}.

Record DailySummary : Type := mkDaily {
  d_date : jsstring;
  d_headline : json;
  d_summary : json;
  d_highlights : json;
  d_improvements : json;
  d_drillDownSections : list DrillDown;
  d_totalTrackedSecs : Z;
  d_totalIdleSecs : Z;
  d_totalProductiveSecs : Z;
  d_totalDistractedSecs : Z;
  d_topApps : gmap jsstring Z;
  d_topProjects : gmap jsstring Z;
}.

Record DeepDiveResult : Type := mkDeepDive { analysis : jsstring }.

Record Db : Type := mkDb {
  rawEvents : list RawEvent;
  segments : list ActivitySegment;
  micros : list MicroSummary;
  sessions : list SessionSummary;
  dailies : gmap jsstring DailySummary;
  deepDives : gmap jsstring DeepDiveResult;
}.

(** The deterministic day totals the store computes for a date. *)
Record Aggregates : Type := mkAggregates {
  appUsage : list (jsstring * Z);
  projectUsage : list (jsstring * Z);
  totalTracked : Z;
  totalIdle : Z;
  productive : Z;
  distracted : Z;
}.

(** What one call of [llm.chat.completions.create] comes to: the awaited
    promise rejects (or the response has no first choice, which throws in
    the same [try] block), or it delivers [choices[0].message.content]. *)
Inductive ApiOutcome : Type :=
| Rejected (err : jsstring)
| Completed (content : option jsstring).

(** What the module takes from outside: the completion service, the
    built-ins [JSON.parse], [Date] and the string-to-number coercion, and the
    queries of [database.ts], which is not part of the sources. *)
Record Env : Type := mkEnv {
  (** outcome of the n-th completion call *)
  api : nat -> ApiOutcome;
  (** seconds the n-th completion call takes *)
  delay : nat -> Z;
  (** [JSON.parse]; [None] when it throws *)
  JSON_parse : jsstring -> option json;
  (** the number a string converts to; [None] is NaN *)
  StringToNumber : jsstring -> option Z;
  (** row filter of [db.getMicroSummaries(start, end)] *)
  microInRange : Z -> Z -> MicroSummary -> bool;
  (** row filter of [db.getActivitySegments(start, end)] *)
  segmentInRange : Z -> Z -> ActivitySegment -> bool;
  (** row filter of [db.getRawEvents(start, end)] *)
  eventInRange : Z -> Z -> RawEvent -> bool;
  (** [db.todayDateString()] at a clock value *)
  todayDateString : Z -> jsstring;
  (** [Math.floor(new Date(date + 'T00:00:00').getTime() / 1000)] *)
  dayStartOf : jsstring -> Z;
  (** the day totals of the store *)
  aggregatesFor : Db -> jsstring -> Aggregates;
}.

(** The module-level variables, the store, the clock in seconds and the
    number of completion calls issued so far.  The two timers are not
    modelled: every operation below is what a timer callback or a caller
    runs. *)
Record World : Type := mkWorld {
  llm : bool;
  activeSessionId : option jsstring;
  sessionStartTime : Z;
  lastMicroTime : Z;
  lastSessionSummaryTime : Z;
  microCount : Z;
  sessionCount : Z;
  store : Db;
  clock : Z;
  apiCalls : nat;
}.

Definition withStore (db : Db) (w : World) : World :=
  {| llm := llm w; activeSessionId := activeSessionId w;
     sessionStartTime := sessionStartTime w; lastMicroTime := lastMicroTime w;
     lastSessionSummaryTime := lastSessionSummaryTime w;
     microCount := microCount w; sessionCount := sessionCount w;
     store := db; clock := clock w; apiCalls := apiCalls w |}.

Definition microStored (now : Z) (w : World) : World :=
  {| llm := llm w; activeSessionId := activeSessionId w;
     sessionStartTime := sessionStartTime w; lastMicroTime := now;
     lastSessionSummaryTime := lastSessionSummaryTime w;
     microCount := microCount w + 1; sessionCount := sessionCount w;
     store := store w; clock := clock w; apiCalls := apiCalls w |}.

Definition sessionStored (now : Z) (w : World) : World :=
  {| llm := llm w; activeSessionId := activeSessionId w;
     sessionStartTime := sessionStartTime w; lastMicroTime := lastMicroTime w;
     lastSessionSummaryTime := now;
     microCount := microCount w; sessionCount := sessionCount w + 1;
     store := store w; clock := clock w; apiCalls := apiCalls w |}.

(** *** The store: database.ts *)

(** Modelled from the spec: [db.getUnprocessedSegmentsForMicro] is not part
    of the sources; it "fetches all segments for the active session with
    startTime > lastMicroTime". *)
Definition getUnprocessedSegmentsForMicro (db : Db) (session : jsstring) (since : Z)
  : list ActivitySegment :=
  List.filter
    (fun s => bool_decide (seg_sessionId s = session) && (since <? startTime s))
    (segments db).

Definition setProject (p : jsstring) (s : ActivitySegment) : ActivitySegment :=
  {| seg_id := seg_id s; seg_sessionId := seg_sessionId s;
     startTime := startTime s; endTime := endTime s;
     primaryApp := primaryApp s; seg_appCategory := seg_appCategory s;
     action := action s; project := Some p; context := context s;
     transcriptSnippet := transcriptSnippet s; eventCount := eventCount s;
     isIdle := isIdle s |}.

Definition hasIdIn (ids : list Z) (s : ActivitySegment) : bool :=
  match seg_id s with
  | Some i => bool_decide (i ∈ ids)
  | None => false
  end.

(** Modelled from the spec: [db.updateSegmentProjects] is not part of the
    sources; it is the "annotate operation on the store keyed by segment-id
    list" that backfills [project]. *)
Definition updateSegmentProjects (ids : list Z) (p : jsstring) (db : Db) : Db :=
  {| rawEvents := rawEvents db;
     segments := List.map (fun s => if hasIdIn ids s then setProject p s else s) (segments db);
     micros := micros db; sessions := sessions db; dailies := dailies db;
     deepDives := deepDives db |}.

(** Modelled from the spec: [db.insertMicroSummary] is not part of the
    sources; the row is appended and receives the next row id. *)
Definition insertMicroSummary (m : MicroSummary) (db : Db) : Z * Db :=
  let id := Z.of_nat (length (micros db)) + 1 in
  (id,
   {| rawEvents := rawEvents db; segments := segments db;
      micros := micros db ++
        [ {| m_id := Some id; m_sessionId := m_sessionId m;
             m_startTime := m_startTime m; m_endTime := m_endTime m;
             m_summary := m_summary m; m_appBreakdown := m_appBreakdown m;
             m_primaryActivity := m_primaryActivity m;
             m_productivityLabel := m_productivityLabel m;
             m_project := m_project m; m_segmentIds := m_segmentIds m |} ];
      sessions := sessions db; dailies := dailies db;
      deepDives := deepDives db |}).

(** Modelled from the spec: [db.insertSessionSummary] is not part of the
    sources; the row is appended and receives the next row id. *)
Definition insertSessionSummary (s : SessionSummary) (db : Db) : Z * Db :=
  let id := Z.of_nat (length (sessions db)) + 1 in
  (id,
   {| rawEvents := rawEvents db; segments := segments db; micros := micros db;
      sessions := sessions db ++
        [ {| s_id := Some id; s_sessionId := s_sessionId s; s_date := s_date s;
             s_startTime := s_startTime s; s_endTime := s_endTime s;
             s_summary := s_summary s; s_keyActivities := s_keyActivities s;
             s_projects := s_projects s; s_appStats := s_appStats s;
             s_productivityLabel := s_productivityLabel s |} ];
      dailies := dailies db; deepDives := deepDives db |}).

(** Modelled from the spec: [db.getSessionSummaries(date)] is not part of
    the sources; it returns "all SessionSummaries for date". *)
Definition getSessionSummaries (db : Db) (date : jsstring) : list SessionSummary :=
  List.filter (fun s => bool_decide (s_date s = date)) (sessions db).

(** Modelled from the spec: [db.upsertDailySummary] is not part of the
    sources; "one row per date, overwritten on regeneration". *)
Definition upsertDailySummary (d : DailySummary) (db : Db) : Db :=
  {| rawEvents := rawEvents db; segments := segments db; micros := micros db;
     sessions := sessions db; dailies := <[d_date d := d]> (dailies db);
     deepDives := deepDives db |}.

(** Modelled from the spec: [db.getCachedDeepDive] is not part of the
    sources; it returns the entry stored under the key, if any. *)
Definition getCachedDeepDive (db : Db) (key : jsstring) : option DeepDiveResult :=
  deepDives db !! key.

(** Modelled from the spec: [db.cacheDeepDive] is not part of the sources;
    it stores the result under the key. *)
Definition cacheDeepDive (key : jsstring) (r : DeepDiveResult) (db : Db) : Db :=
  {| rawEvents := rawEvents db; segments := segments db; micros := micros db;
     sessions := sessions db; dailies := dailies db;
     deepDives := <[key := r]> (deepDives db) |}.

(** *** The operations *)

Section Operations.

Context (E : Env).

(** [await llm.chat.completions.create(...)]: one more call is issued and
    the clock moves on while it is awaited. *)
Definition callApi (w : World) : ApiOutcome * World :=
  (api E (apiCalls w),
   {| llm := llm w; activeSessionId := activeSessionId w;
      sessionStartTime := sessionStartTime w; lastMicroTime := lastMicroTime w;
      lastSessionSummaryTime := lastSessionSummaryTime w;
      microCount := microCount w; sessionCount := sessionCount w;
      store := store w; clock := clock w + delay E (apiCalls w);
      apiCalls := S (apiCalls w) |}).

(** [JSON.parse(stripCodeFences(content || '{}'))]; [None] when it throws. *)
Definition decode (content : option jsstring) : option json :=
  JSON_parse E (stripCodeFences (orDefault content (js "{}"))).

(** [v || d] for a value read from the decoded document. *)
Definition orElse (v : option json) (d : json) : json :=
  match v with
  | Some x => if truthy v then x else d
  | None => d
  end.

(** Values with a [slice] method: the log line after a summary is stored
    calls [summary.slice(0, 100)]. *)
Definition hasSlice (v : json) : bool :=
  match v with JStr _ | JArr _ => true | _ => false end.

Definition duration (s : ActivitySegment) : Z := endTime s - startTime s.

(** The loop that fills [computedAppBreakdown]. *)
Definition computeAppBreakdown (segs : list ActivitySegment) : gmap jsstring DictValue :=
  fold_left
    (fun acc s => addTo (orDefault (primaryApp s) (js "Unknown")) (duration s) acc)
    segs ∅.

(** [parsed.project && typeof parsed.project === 'string' &&
     parsed.project.toLowerCase() !== 'null' ? parsed.project.trim() : null].
    The comparison with ['null'] is decided by the ASCII letters alone. *)
Definition llmProjectOf (v : option json) : option jsstring :=
  match v with
  | Some (JStr p) =>
      if nonEmpty p && negb (bool_decide (toLowerCase p = js "null"))
      then Some (trim p) else None
  | _ => None
  end.

(** [segments.map((s) => s.id!).filter(Boolean)] *)
Definition segmentIdsOf (segs : list ActivitySegment) : list Z :=
  List.filter (fun i => negb (i =? 0)) (omap seg_id segs).

Definition firstStart (segs : list ActivitySegment) : Z :=
  match segs with s :: _ => startTime s | [] => 0 end.

Definition lastEnd (segs : list ActivitySegment) : Z :=
  match List.last (List.map Some segs) None with Some s => endTime s | None => 0 end.

(** The statements of the [try] block of [generateMicroSummary] that follow
    [JSON.parse]; a TypeError is caught by the [catch], which returns null. *)
Definition storeMicro (session : jsstring) (now : Z) (segs : list ActivitySegment)
    (parsed : json) (w : World) : option MicroSummary * World :=
  let computedAppBreakdown := computeAppBreakdown segs in
  match getProp parsed (js "project") with
  | inl _ => (None, w)
  | inr projectField =>
      let llmProject := llmProjectOf projectField in
      let segmentIds := segmentIdsOf segs in
      let w1 :=
        match llmProject with
        | Some p =>
            if nonEmpty p
            then withStore (updateSegmentProjects segmentIds p (store w)) w
            else w
        | None => w
        end in
      match getProp parsed (js "summary"),
            getProp parsed (js "primary_activity"),
            getProp parsed (js "productivity_label") with
      | inr summaryField, inr activityField, inr labelField =>
          let micro :=
            {| m_id := None;
               m_sessionId := session;
               m_startTime := firstStart segs;
               m_endTime := lastEnd segs;
               m_summary := orElse summaryField (JStr (js "No summary available"));
               m_appBreakdown := computedAppBreakdown;
               m_primaryActivity := activityField;
               m_productivityLabel := orElse labelField (JStr (js "neutral"));
               m_project := orUndefined llmProject;
               m_segmentIds := segmentIds |} in
          let '(_, db) := insertMicroSummary micro (store w1) in
          let w2 := microStored now (withStore db w1) in
          if hasSlice (m_summary micro) then (Some micro, w2) else (None, w2)
      | _, _, _ => (None, w1)
      end
  end.

Definition generateMicroSummary (w : World) : option MicroSummary * World :=
  if negb (llm w) then (None, w)
  else
    match activeSessionId w with
    | None => (None, w)
    | Some session =>
        if negb (nonEmpty session) then (None, w)
        else
          let segs := getUnprocessedSegmentsForMicro (store w) session (lastMicroTime w) in
          match segs with
          | [] => (None, w)
          | _ :: _ =>
              let now := clock w in
              let '(outcome, w1) := callApi w in
              match outcome with
              | Rejected _ => (None, w1)
              | Completed content =>
                  match decode content with
                  | None => (None, w1)
                  | Some parsed => storeMicro session now segs parsed w1
                  end
              end
          end
    end.

(** [db.getMicroSummaries(start, end)] *)
Definition getMicroSummaries (db : Db) (start end_ : Z) : list MicroSummary :=
  List.filter (microInRange E start end_) (micros db).

(** [db.getActivitySegments(start, end)] *)
Definition getActivitySegments (db : Db) (start end_ : Z) : list ActivitySegment :=
  List.filter (segmentInRange E start end_) (segments db).

(** [db.getRawEvents(start, end)] *)
Definition getRawEvents (db : Db) (start end_ : Z) : list RawEvent :=
  List.filter (eventInRange E start end_) (rawEvents db).

Definition microFirstStart (ms : list MicroSummary) : Z :=
  match ms with m :: _ => m_startTime m | [] => 0 end.

Definition microLastEnd (ms : list MicroSummary) : Z :=
  match List.last (List.map Some ms) None with Some m => m_endTime m | None => 0 end.

(** [`${m.primaryActivity || 'activity'} (${dur})`] *)
Definition activityLine (m : MicroSummary) : jsstring :=
  toStr (orElse (m_primaryActivity m) (JStr (js "activity")))
  ++ js " (" ++ fmtDuration (m_endTime m - m_startTime m) ++ js ")".

(** The nested loops that fill [computedAppStats]. *)
Definition computeAppStats (ms : list MicroSummary) : gmap jsstring DictValue :=
  fold_left
    (fun acc m =>
       fold_left (fun acc' entry =>
                    addTo (normalizeApp (fst entry)) (numberOr0 (snd entry)) acc')
                 (map_to_list (m_appBreakdown m)) acc)
    ms ∅.

(** The loop that fills [computedProjects]. *)
Definition computeProjects (segs : list ActivitySegment) : gmap jsstring DictValue :=
  fold_left
    (fun acc seg =>
       match project seg with
       | Some p => if nonEmpty p then addTo (trim p) (duration seg) acc else acc
       | None => acc
       end)
    segs ∅.

(** The statements of the [try] block of [generateSessionSummary] that
    follow [JSON.parse]. *)
Definition storeSession (session : jsstring) (now : Z) (ms : list MicroSummary)
    (parsed : json) (w : World) : option SessionSummary * World :=
  let date := todayDateString E (clock w) in
  let computedActivities := List.map activityLine ms in
  let computedAppStats := computeAppStats ms in
  let segmentsInRange :=
    getActivitySegments (store w) (microFirstStart ms) (microLastEnd ms) in
  let computedProjects := computeProjects segmentsInRange in
  match getProp parsed (js "summary"), getProp parsed (js "productivity_label") with
  | inr summaryField, inr labelField =>
      let sess :=
        {| s_id := None;
           s_sessionId := session;
           s_date := date;
           s_startTime := microFirstStart ms;
           s_endTime := microLastEnd ms;
           s_summary := orElse summaryField (JStr (js "No summary available"));
           s_keyActivities := computedActivities;
           s_projects := computedProjects;
           s_appStats := computedAppStats;
           s_productivityLabel := orElse labelField (JStr (js "neutral")) |} in
      let '(_, db) := insertSessionSummary sess (store w) in
      let w1 := sessionStored now (withStore db w) in
      if hasSlice (s_summary sess) then (Some sess, w1) else (None, w1)
  | _, _ => (None, w)
  end.

Definition generateSessionSummary (w : World) : option SessionSummary * World :=
  if negb (llm w) then (None, w)
  else
    match activeSessionId w with
    | None => (None, w)
    | Some session =>
        if negb (nonEmpty session) then (None, w)
        else
          let ms := getMicroSummaries (store w) (lastSessionSummaryTime w) (clock w) in
          match ms with
          | [] => (None, w)
          | _ :: _ =>
              let now := clock w in
              let '(outcome, w1) := callApi w in
              match outcome with
              | Rejected _ => (None, w1)
              | Completed content =>
                  match decode content with
                  | None => (None, w1)
                  | Some parsed => storeSession session now ms parsed w1
                  end
              end
          end
    end.

(** [Object.fromEntries(rows.map(...))]: a later row overrides an earlier
    one with the same key. *)
Definition fromEntries (rows : list (jsstring * Z)) : gmap jsstring Z :=
  fold_left (fun acc row => <[fst row := snd row]> acc) rows ∅.

(** The number a truthy value converts to in [v * 3600]. *)
Definition toNumber (v : json) : option Z :=
  match v with
  | JNull => Some 0
  | JBool b => Some (if b then 1 else 0)
  | JNum n => Some n
  | JStr s => StringToNumber E s
  | JArr _ => StringToNumber E (toStr v)
  | JObj _ => None
  end.

(** [dayStart + (hour || dflt) * 3600] *)
Definition hourToTime (dayStart : Z) (hour : option json) (dflt : Z) : option Z :=
  match hour with
  | Some v =>
      if truthy hour
      then (fun n => dayStart + n * 3600) <$> toNumber v
      else Some (dayStart + dflt * 3600)
  | None => Some (dayStart + dflt * 3600)
  end.

(** The callback of [(parsed.sections || []).map(...)]; [None] is the
    TypeError of reading a property of a [null] element. *)
Definition drillDownOf (dayStart : Z) (s : json) : option DrillDown :=
  match getProp s (js "title"), getProp s (js "summary"),
        getProp s (js "start_hour"), getProp s (js "end_hour") with
  | inr title, inr summary, inr startHour, inr endHour =>
      Some {| dd_title := title;
              dd_summary := summary;
              dd_startTime := hourToTime dayStart startHour 0;
              dd_endTime := hourToTime dayStart endHour 24 |}
  | _, _, _, _ => None
  end.

(** [(parsed.sections || []).map(...)]; [None] when it throws: the value is
    not an array, or an element is [null]. *)
Definition drillDownSectionsOf (dayStart : Z) (sections : option json)
  : option (list DrillDown) :=
  match orElse sections (JArr []) with
  | JArr items => mapM (drillDownOf dayStart) items
  | _ => None
  end.

(** The statements of the [try] block of [generateDailySummary] that follow
    [JSON.parse]. *)
Definition storeDaily (date : jsstring) (dayStart : Z) (agg : Aggregates)
    (parsed : json) (w : World) : option DailySummary * World :=
  match getProp parsed (js "headline"), getProp parsed (js "summary"),
        getProp parsed (js "highlights"), getProp parsed (js "improvements"),
        getProp parsed (js "sections") with
  | inr headline, inr summary, inr highlights, inr improvements, inr sections =>
      match drillDownSectionsOf dayStart sections with
      | None => (None, w)
      | Some drillDown =>
          let daily :=
            {| d_date := date;
               d_headline := orElse headline (JStr (js "Daily Summary"));
               d_summary := orElse summary (JStr (js "No summary available"));
               d_highlights := orElse highlights (JArr []);
               d_improvements := orElse improvements (JArr []);
               d_drillDownSections := drillDown;
               d_totalTrackedSecs := totalTracked agg;
               d_totalIdleSecs := totalIdle agg;
               d_totalProductiveSecs := productive agg;
               d_totalDistractedSecs := distracted agg;
               d_topApps := fromEntries (appUsage agg);
               d_topProjects := fromEntries (projectUsage agg) |} in
          (Some daily, withStore (upsertDailySummary daily (store w)) w)
      end
  | _, _, _, _, _ => (None, w)
  end.

Definition generateDailySummary (date : jsstring) (w : World)
  : option DailySummary * World :=
  if negb (llm w) then (None, w)
  else
    let sess := getSessionSummaries (store w) date in
    let agg := aggregatesFor E (store w) date in
    let dayStart := dayStartOf E date in
    let dayEnd := dayStart + 86400 in
    let ms := match sess with
              | [] => getMicroSummaries (store w) dayStart dayEnd
              | _ :: _ => []
              end in
    match sess, ms with
    | [], [] => (None, w)
    | _, _ =>
        let '(outcome, w1) := callApi w in
        match outcome with
        | Rejected _ => (None, w1)
        | Completed content =>
            match decode content with
            | None => (None, w1)
            | Some parsed => storeDaily date dayStart agg parsed w1
            end
        end
    end.

(** [`${activeSessionId || 'none'}:${start}:${end}`] *)
Definition cacheKey (w : World) (start end_ : Z) : jsstring :=
  orDefault (activeSessionId w) (js "none") ++ js ":" ++ dec start ++ js ":" ++ dec end_.

Definition generateDeepDive (start end_ : Z) (w : World) : DeepDiveResult * World :=
  let key := cacheKey w start end_ in
  match getCachedDeepDive (store w) key with
  | Some cached => (cached, w)
  | None =>
      if negb (llm w)
      then ({| analysis := js "LLM not configured. Cannot generate deep dive." |}, w)
      else
        match getRawEvents (store w) start end_ with
        | [] => ({| analysis := js "No events recorded for this time range." |}, w)
        | _ :: _ =>
            let '(outcome, w1) := callApi w in
            match outcome with
            | Rejected err =>
                ({| analysis := js "Error generating analysis: " ++ err |}, w1)
            | Completed content =>
                let result :=
                  {| analysis := orDefault content (js "Analysis unavailable.") |} in
                (result, withStore (cacheDeepDive key result (store w1)) w1)
            end
        end
  end.

Definition lastSummary (ms : list MicroSummary) (dflt : json) : json :=
  match List.last (List.map Some ms) None with
  | Some m => m_summary m
  | None => dflt
  end.

Definition generateOnDemandSummary (w : World) : json * World :=
  let '(_, w1) := generateMicroSummary w in
  let today := todayDateString E (clock w1) in
  let dayStart := dayStartOf E today in
  let now := clock w1 in
  let allMicros := getMicroSummaries (store w1) dayStart (now + 60) in
  match allMicros with
  | [] => (JStr (js "No activity recorded yet."), w1)
  | [only] => (m_summary only, w1)
  | first :: _ :: _ =>
      let latest := lastSummary allMicros (m_summary first) in
      if negb (llm w1) then (latest, w1)
      else
        let '(outcome, w2) := callApi w1 in
        match outcome with
        | Rejected _ => (latest, w2)
        | Completed content =>
            match decode content with
            | None => (latest, w2)
            | Some parsed =>
                match getProp parsed (js "summary") with
                | inl _ => (latest, w2)
                | inr summaryField => (orElse summaryField latest, w2)
                end
            end
        end
  end.

Definition initSummarizer (w : World) : World :=
  {| llm := true; activeSessionId := activeSessionId w;
     sessionStartTime := sessionStartTime w; lastMicroTime := lastMicroTime w;
     lastSessionSummaryTime := lastSessionSummaryTime w;
     microCount := microCount w; sessionCount := sessionCount w;
     store := store w; clock := clock w; apiCalls := apiCalls w |}.

Definition startPeriodicSummaries (session : jsstring) (w : World) : World :=
  {| llm := llm w; activeSessionId := Some session;
     sessionStartTime := clock w; lastMicroTime := clock w;
     lastSessionSummaryTime := clock w;
     microCount := 0; sessionCount := 0;
     store := store w; clock := clock w; apiCalls := apiCalls w |}.

Definition clearSession (w : World) : World :=
  {| llm := llm w; activeSessionId := None;
     sessionStartTime := sessionStartTime w; lastMicroTime := lastMicroTime w;
     lastSessionSummaryTime := lastSessionSummaryTime w;
     microCount := microCount w; sessionCount := sessionCount w;
     store := store w; clock := clock w; apiCalls := apiCalls w |}.

Definition stopPeriodicSummaries (w : World) : World :=
  if truthyStr (activeSessionId w) && llm w then
    let '(_, w1) := generateMicroSummary w in
    let '(_, w2) := generateSessionSummary w1 in
    let '(_, w3) := generateDailySummary (todayDateString E (clock w2)) w2 in
    clearSession w3
  else clearSession w.

End Operations.

End Summarizer.


(* ===================================================================== *)
(** ** app-tracker.ts: scene and alert classification *)
(* ===================================================================== *)

Module SceneParser.
Import JS Regex Classifier Ingestion.

(** Regular expressions with numbered capturing groups.  [RE] embeds an
    expression without groups; [RRep] is the greedy [cls{min,max}]. *)
Inductive rex : Type :=
| RE (r : re)
| RRep (p : N -> bool) (min max : nat)
| Grp (i : nat) (r : rex)
| ROpt (r : rex)
| RSeq (r1 r2 : rex).

(** The groups that took part in a match, latest first. *)
Definition captures : Type := list (nat * jsstring).

Fixpoint group (i : nat) (c : captures) : option jsstring :=
  match c with
  | [] => None
  | (j, s) :: rest => if Nat.eqb i j then Some s else group i rest
  end.

(** All the ways [r] matches a prefix of [s], in the priority order of a
    backtracking engine, each with the input left over and the groups set. *)
Fixpoint matchesX (r : rex) (s : jsstring) (c : captures)
  : list (jsstring * captures) :=
  match r with
  | RE r0 => List.map (fun rest => (rest, c)) (matches r0 s)
  | RRep p min max =>
      List.map (fun '(_, rest) => (rest, c))
        (List.filter (fun '(k, _) => (min <=? k)%nat && (k <=? max)%nat)
                     (repClass p s))
  | Grp i r0 =>
      List.map (fun '(rest, c') => (rest, (i, take (length s - length rest)%nat s) :: c'))
               (matchesX r0 s c)
  | ROpt r0 => matchesX r0 s c ++ [(s, c)]
  | RSeq r1 r2 => flat_map (fun '(s1, c1) => matchesX r2 s1 c1) (matchesX r1 s c)
  end.

(** [/^r/.exec(s)]: the groups of the first way to match at the start. *)
Definition execAtStart (r : rex) (s : jsstring) : option captures :=
  snd <$> head (matchesX r s []).

(** [s.match(/r/)]: the groups of the leftmost match. *)
Fixpoint exec (r : rex) (s : jsstring) : option captures :=
  match execAtStart r s with
  | Some c => Some c
  | None =>
      match s with
      | _ :: s' => exec r s'
      | [] => None
      end
  end.

Definition seqs (rs : list rex) : rex :=
  fold_right RSeq (RE Eps) rs.

Definition ch (s : string) : rex := RE (Cls (oneOf s)).
Definition notOneOf (s : string) : N -> bool := fun c => negb (oneOf s c).
Definition spaces : rex := RE (Rep isSpace 0).

(** The pattern of the format [[APP_NAME] | [ACTION] | [DETAILS]]: an optional
    bracket, group 1 (one or more units other than a closing bracket and a
    bar), an optional closing bracket, spaces, a bar, spaces, the same for
    group 2, spaces, and optionally a bar, spaces and the same for group 3,
    which may be empty. *)
Definition pipePattern : rex :=
  seqs [ ROpt (ch "["); Grp 1 (RE (Rep (notOneOf "]|") 1)); ROpt (ch "]");
         spaces; ch "|"; spaces;
         ROpt (ch "["); Grp 2 (RE (Rep (notOneOf "]|") 1)); ROpt (ch "]");
         spaces;
         ROpt (seqs [ ch "|"; spaces; ROpt (ch "[");
                      Grp 3 (RE (Rep (notOneOf "]|") 0)); ROpt (ch "]") ]) ].

(** The pattern of the format [[APP_NAME] - [ACTION] - [DETAILS]]: as the
    pattern above with a hyphen for the bar; group 3 may contain hyphens and
    bars. *)
Definition dashPattern : rex :=
  seqs [ ROpt (ch "["); Grp 1 (RE (Rep (notOneOf "]-") 1)); ROpt (ch "]");
         spaces; ch "-"; spaces;
         ROpt (ch "["); Grp 2 (RE (Rep (notOneOf "]-") 1)); ROpt (ch "]");
         spaces;
         ROpt (seqs [ ch "-"; spaces; ROpt (ch "[");
                      Grp 3 (RE (Rep (notOneOf "]") 0)); ROpt (ch "]") ]) ].

(** [a\s*b\s*c...] under the [i] flag. *)
Definition phrase (words : list string) : re :=
  match words with
  | [] => Eps
  | w :: rest => fold_left (fun r w' => Seq r (Seq (Rep isSpace 0) (litCI w'))) rest (litCI w)
  end.

Record AppRule : Type := mkRule {
  pattern : re;
  name : jsstring;
  category : AppCategory;
}.

Definition rule (entry : list (list string) * string * AppCategory) : AppRule :=
  let '(alternatives, n, c) := entry in
  {| pattern := alts (List.map phrase alternatives); name := js n; category := c |}.

(** The rules of [APP_RULES], in order: the alternatives of the pattern, each
    a sequence of words separated by [\s*], the canonical name and the
    category. *)
Definition RULE_TABLE : list (list (list string) * string * AppCategory) :=
  [ (* IDEs *)
    ([["vs"; "code"]; ["visual"; "studio"; "code"]], "VS Code", development);
    ([["intellij"]; ["webstorm"]; ["pycharm"]; ["goland"]; ["rider"]], "JetBrains", development);
    ([["xcode"]], "Xcode", development);
    ([["sublime"; "text"]], "Sublime Text", development);
    ([["vim"]; ["neovim"]; ["nvim"]], "Vim", development);
    ([["cursor"]], "Cursor", development);
    (* Terminals *)
    ([["terminal"]; ["iterm"]; ["warp"]; ["hyper"]; ["kitty"]; ["alacritty"]; ["console"]], "Terminal", development);
    (* Browsers *)
    ([["chrome"]; ["chromium"]], "Chrome", browsing);
    ([["firefox"]], "Firefox", browsing);
    ([["safari"]], "Safari", browsing);
    ([["arc"; "browser"]; ["arc"]], "Arc", browsing);
    ([["edge"]], "Edge", browsing);
    ([["brave"]], "Brave", browsing);
    (* Communication *)
    ([["slack"]], "Slack", communication);
    ([["discord"]], "Discord", communication);
    ([["microsoft"; "teams"]; ["teams"]], "Teams", communication);
    ([["zoom"]], "Zoom", communication);
    ([["google"; "meet"]], "Google Meet", communication);
    ([["whatsapp"]], "WhatsApp", communication);
    ([["telegram"]], "Telegram", communication);
    ([["messages"]], "Messages", communication);
    (* Documents *)
    ([["notion"]], "Notion", documents);
    ([["obsidian"]], "Obsidian", documents);
    ([["google"; "docs"]], "Google Docs", documents);
    ([["microsoft"; "word"]; ["word"]], "Word", documents);
    ([["pages"]], "Pages", documents);
    ([["notes"]], "Notes", documents);
    ([["google"; "sheets"]; ["excel"]; ["numbers"]], "Spreadsheets", documents);
    (* Design *)
    ([["figma"]], "Figma", design);
    ([["sketch"]], "Sketch", design);
    ([["photoshop"]], "Photoshop", design);
    ([["illustrator"]], "Illustrator", design);
    ([["canva"]], "Canva", design);
    (* Email *)
    ([["gmail"]], "Gmail", email);
    ([["outlook"]], "Outlook", email);
    ([["mail"]], "Mail", email);
    ([["superhuman"]], "Superhuman", email);
    (* Entertainment *)
    ([["youtube"]], "YouTube", entertainment);
    ([["netflix"]], "Netflix", entertainment);
    ([["twitch"]], "Twitch", entertainment);
    ([["spotify"]], "Spotify", entertainment);
    ([["twitter"]; ["x.com"]], "Twitter/X", entertainment);
    ([["reddit"]], "Reddit", entertainment);
    ([["instagram"]], "Instagram", entertainment);
    ([["tiktok"]], "TikTok", entertainment) ]%string.


Definition APP_RULES : list AppRule := List.map rule RULE_TABLE.

(** [matchApp]: the first rule whose pattern is found in the text. *)
Definition matchApp (text : jsstring) : option AppRule :=
  List.find (fun r => test (pattern r) text) APP_RULES.

Record ParsedScene : Type := mkParsed {
  ps_appName : jsstring;
  ps_category : AppCategory;
  ps_action : option jsstring;
  ps_details : option jsstring;
}.

(** The two module counters [parseCallCount] and [otherCount]. *)
Record Counters : Type := mkCounters {
  parseCallCount : Z;
  otherCount : Z;
}.

(** [s.split('\n')[0]] *)
Fixpoint firstLineOf (s : jsstring) : jsstring :=
  match s with
  | [] => []
  | c :: s' => if (c =? 10)%N then [] else c :: firstLineOf s'
  end.

(** [s.split(/\s+/)]; [cur] is the piece being read, reversed, and
    [skipping] tells that the unit before was white space. *)
Fixpoint splitSpaces (cur : jsstring) (skipping : bool) (s : jsstring)
  : list jsstring :=
  match s with
  | [] => [rev cur]
  | c :: s' =>
      if isSpace c
      then (if skipping then splitSpaces cur true s'
            else rev cur :: splitSpaces [] true s')
      else splitSpaces (c :: cur) false s'
  end.

Definition isLetter (c : N) : bool := isUpper c || isLower c.

(** [/^([A-Za-z][\w\s]{1,30})(?::|–|—)/], without its anchor. *)
Definition labelPattern : rex :=
  seqs [ Grp 1 (RSeq (RE (Cls isLetter))
                     (RRep (fun c => wordChar c || isSpace c) 1 30));
         RE (Cls (fun c => (c =? 58) || (c =? 8211) || (c =? 8212))%N) ].

Definition extractFirstPhrase (text : jsstring) : jsstring :=
  let firstLine := trim (firstLineOf text) in
  match execAtStart labelPattern firstLine ≫= group 1 with
  | Some g => trim g
  | None =>
      let words := join (js " ") (take 3 (splitSpaces [] false firstLine)) in
      if (2 <? length words)%nat then words else js "Unknown"
  end.

(** [o || d] for an app name. *)
Definition nameOr (matched : option AppRule) (d : jsstring) : jsstring :=
  match matched with
  | Some r => if nonEmpty (name r) then name r else d
  | None => d
  end.

Definition categoryOr (matched : option AppRule) : AppCategory :=
  match matched with Some r => category r | None => other end.

Definition countOther (c : AppCategory) (k : Counters) : Counters :=
  match c with
  | other => {| parseCallCount := parseCallCount k; otherCount := otherCount k + 1 |}
  | _ => k
  end.

(** The result of the structured formats, from the groups of the match. *)
Definition structured (c : captures) : option ParsedScene :=
  match group 1 c, group 2 c with
  | Some g1, Some g2 =>
      let rawApp := trim g1 in
      let action := trim g2 in
      let details := trim <$> group 3 c in
      let matched := matchApp (rawApp ++ js " " ++ orDefault details []) in
      Some {| ps_appName := nameOr matched rawApp;
              ps_category := categoryOr matched;
              ps_action := Some action;
              ps_details := details |}
  | _, _ => None
  end.

(** [parseSceneIndex] on the counters. *)
Definition parseSceneIndex (text : jsstring) (k : Counters) : ParsedScene * Counters :=
  let k := {| parseCallCount := parseCallCount k + 1; otherCount := otherCount k |} in
  match text with
  | [] =>
      ({| ps_appName := js "Unknown"; ps_category := other;
          ps_action := None; ps_details := None |}, k)
  | _ :: _ =>
      match exec pipePattern text ≫= structured with
      | Some result => (result, countOther (ps_category result) k)
      | None =>
          match exec dashPattern text ≫= structured with
          | Some result => (result, countOther (ps_category result) k)
          | None =>
              let matched := matchApp text in
              let result :=
                {| ps_appName := nameOr matched (extractFirstPhrase text);
                   ps_category := categoryOr matched;
                   ps_action := None;
                   ps_details := Some text |} in
              (result, countOther (ps_category result) k)
          end
      end
  end.

(** [getParseStats] *)
Definition getParseStats (k : Counters) : Z * Z := (parseCallCount k, otherCount k).

(** The object [categorizeAlert] returns.  When a rule matches it is the
    object of [matchApp], which has the fields [name] and [category] and no
    field [appName]. *)
Record AlertClass : Type := mkAlertClass {
  al_appName : option jsstring;
  al_name : option jsstring;
  al_category : AppCategory;
}.

Definition categorizeAlert (label eventName : jsstring) : AlertClass :=
  let combined := label ++ js " " ++ eventName in
  match matchApp combined with
  | Some r => {| al_appName := None; al_name := Some (name r); al_category := category r |}
  | None =>
      {| al_appName := Some (orDefault (Some label) (js "Unknown"));
         al_name := None; al_category := other |}
  end.

End SceneParser.

(* ===================================================================== *)
(** ** event-ingestion.ts: the dispatch of a message on its channel *)
(* ===================================================================== *)

Module Feed.
Import JS Regex Ingestion SceneParser.

(** The fields the ingestor reads, at the top level of a message and under
    its [data]; each is a string when present, as the casts of the source
    take it. *)
Record Payload : Type := mkPayload {
  p_text : option jsstring;
  p_label : option jsstring;
  p_event_name : option jsstring;
  p_summary : option jsstring;
}.

Record Message : Type := mkMessage {
  msg_channel : option jsstring;
  msg_type : option jsstring;
  msg_event_type : option jsstring;
  msg_top : Payload;
  msg_data : option Payload;
}.

Definition noPayload : Payload :=
  {| p_text := None; p_label := None; p_event_name := None; p_summary := None |}.

(** [a || b] on [string | undefined] values. *)
Definition orStr (a b : option jsstring) : option jsstring :=
  if truthyStr a then a else b.

(** [msg.channel || msg.type || msg.event_type] *)
Definition channelOf (msg : Message) : option jsstring :=
  orStr (orStr (msg_channel msg) (msg_type msg)) (msg_event_type msg).

(** The channel a [case] label of the [switch] selects. *)
Definition channelNamed (c : jsstring) : option Channel :=
  if bool_decide (c = js "scene_index") then Some scene_index
  else if bool_decide (c = js "visual_index") then Some visual_index
  else if bool_decide (c = js "transcript") then Some transcript
  else if bool_decide (c = js "spoken_index") then Some spoken_index
  else if bool_decide (c = js "alert") then Some alert
  else None.

(** The [switch] of [ingestEvent]: what the event will carry, or [None] when
    the message is discarded. *)
Definition dispatch (msg : Message) (k : Counters) : option Dispatched * Counters :=
  match channelOf msg with
  | None => (None, k)
  | Some c =>
      if negb (nonEmpty c) then (None, k)
      else
        let data := default noPayload (msg_data msg) in
        let top := msg_top msg in
        match channelNamed c with
        | Some (scene_index as ch) | Some (visual_index as ch) =>
            let text := orDefault (orStr (p_text data) (p_text top)) [] in
            if negb (nonEmpty (trim text)) then (None, k)
            else
              let '(parsed, k') := parseSceneIndex text k in
              (Some {| d_channel := ch;
                       d_appName := Some (ps_appName parsed);
                       d_appCategory := Some (ps_category parsed);
                       d_summaryText := Some text |}, k')
        | Some transcript =>
            let text := orDefault (orStr (p_text top) (p_text data)) [] in
            if negb (nonEmpty (trim text)) then (None, k)
            else
              (Some {| d_channel := transcript; d_appName := None;
                       d_appCategory := None; d_summaryText := Some text |}, k)
        | Some spoken_index =>
            (Some {| d_channel := spoken_index; d_appName := None;
                     d_appCategory := None;
                     d_summaryText :=
                       orUndefined
                         (orStr (orStr (p_summary top) (p_summary data)) (p_text data)) |},
             k)
        | Some alert =>
            let label := orDefault (orStr (p_label top) (p_label data)) [] in
            let eventName := orDefault (orStr (p_event_name top) (p_event_name data)) [] in
            let cat := categorizeAlert label eventName in
            (Some {| d_channel := alert; d_appName := al_appName cat;
                     d_appCategory := Some (al_category cat);
                     d_summaryText := Some label |}, k)
        | None => (None, k)
        end
  end.

(** [ingestEvent] on a message: nothing is looked at without an active
    session. *)
Definition ingestMessage (now : Z) (msg : Message) (raw : jsstring)
    (st : State) (k : Counters) : State * Counters :=
  if truthyStr (Ingestion.activeSessionId st) then
    let '(d, k') := dispatch msg k in
    (Ingestion.ingestEvent now d raw st, k')
  else (st, k).

End Feed.

(* ===================================================================== *)
(** ** Properties of the event ingestor *)
(* ===================================================================== *)

Module IngestionFacts.
Import JS Ingestion.

(** The events of the groups the loop has closed or is filling. *)
Definition eventsOf (st : list EventGroup * option EventGroup) : list RawEvent :=
  concat (List.map g_events (closeGroups st)).

(** A scene, visual or alert event that carries an app name, and one that
    is not the app name of the run [cur]. *)
Definition namesOtherApp (cur : EventGroup) (e : RawEvent) : Prop :=
  (channel e = scene_index \/ channel e = visual_index \/ channel e = alert)
  /\ (exists name, appName e = Some name /\ name <> [])
  /\ appName e <> g_appName cur.

(** What a flush records about one run of events: the segment counts the
    events of the run and spans from the first to the last of them. *)
Definition covers (run : list RawEvent) (seg : ActivitySegment) : Prop :=
  exists first last_,
    head run = Some first /\ List.last run first = last_
    /\ startTime seg = timestamp first
    /\ endTime seg = timestamp last_
    /\ eventCount seg = Z.of_nat (length run).

(** The segment ends no later than the next one starts. *)
Definition endsBefore (a b : ActivitySegment) : Prop := endTime a <= startTime b.

Lemma closeGroups_step st e :
  eventsOf (groupStep st e) = eventsOf st ++ [e].
Proof.
  destruct st as [groups [c|]]; unfold eventsOf, groupStep, closeGroups;
    [destruct (hasAppInfo e && truthyStr (appName e)
               && bool_decide (appName e <> g_appName c))
    |destruct (hasAppInfo e && truthyStr (appName e) && true)];
    simpl; rewrite ?List.map_app, ?concat_app; simpl;
    rewrite ?app_nil_r, <- ?app_assoc; reflexivity.
Qed.

Lemma eventsOf_fold evs : forall st,
  eventsOf (fold_left groupStep evs st) = eventsOf st ++ evs.
Proof.
  induction evs as [|e evs IH]; intros st; simpl.
  - by rewrite app_nil_r.
  - rewrite IH, closeGroups_step, <- app_assoc. reflexivity.
Qed.

Lemma groupByApp_concat evs :
  concat (List.map g_events (groupByApp evs)) = evs.
Proof. apply (eventsOf_fold evs ([], None)). Qed.

Definition allNonEmpty (gs : list EventGroup) : Prop :=
  Forall (fun g => g_events g <> []) gs.

Lemma groupStep_nonempty st e :
  allNonEmpty (closeGroups st) -> allNonEmpty (closeGroups (groupStep st e)).
Proof.
  unfold allNonEmpty.
  destruct st as [groups [c|]]; unfold groupStep, closeGroups;
    [destruct (hasAppInfo e && truthyStr (appName e)
               && bool_decide (appName e <> g_appName c))
    |destruct (hasAppInfo e && truthyStr (appName e) && true)];
    simpl; rewrite ?List.Forall_app; intros H; repeat split;
    try tauto; repeat constructor; simpl; try discriminate.
  destruct H as [_ H]. by destruct (g_events c).
Qed.

Lemma fold_nonempty evs : forall st,
  allNonEmpty (closeGroups st) ->
  allNonEmpty (closeGroups (fold_left groupStep evs st)).
Proof.
  induction evs as [|e evs IH]; intros st H; simpl; [exact H|].
  apply IH, groupStep_nonempty, H.
Qed.

Lemma groupByApp_nonempty evs : allNonEmpty (groupByApp evs).
Proof. apply fold_nonempty. constructor. Qed.

(** Once a run is open the loop always has an open run. *)
Lemma fold_open evs : forall groups c,
  exists groups' c', fold_left groupStep evs (groups, Some c) = (groups', Some c').
Proof.
  induction evs as [|e evs IH]; intros groups c; simpl; [by eauto|].
  destruct (hasAppInfo e && truthyStr (appName e)
            && bool_decide (appName e <> g_appName c)); apply IH.
Qed.

Lemma fold_first e0 evs :
  exists groups c, fold_left groupStep (e0 :: evs) ([], None) = (groups, Some c).
Proof.
  simpl. destruct (hasAppInfo e0 && truthyStr (appName e0) && true); apply fold_open.
Qed.

Lemma namesOtherApp_decide cur e :
  hasAppInfo e && truthyStr (appName e) && bool_decide (appName e <> g_appName cur) = true
  <-> namesOtherApp cur e.
Proof.
  unfold namesOtherApp, hasAppInfo, truthyStr, nonEmpty.
  rewrite !andb_true_iff, bool_decide_eq_true. split.
  - intros [[Hc Hn] Hd]. repeat split; [| |exact Hd].
    + destruct (channel e); auto; discriminate.
    + destruct (appName e) as [[|x n]|]; try discriminate. by eexists.
  - intros [Hc [[n [Hn Hne]] Hd]]. repeat split; [| |exact Hd].
    + destruct Hc as [-> | [-> | ->]]; reflexivity.
    + rewrite Hn. by destruct n.
Qed.

(** The flush loop on groups that are all non-empty stores one segment per
    group. *)
Lemma flushGroup_fold session idle gs : forall table n,
  allNonEmpty gs ->
  exists newSegs,
    fold_left (flushGroup session idle) gs (table, n)
      = (table ++ newSegs, n + Z.of_nat (length gs))
    /\ Forall2 covers (List.map g_events gs) newSegs
    /\ Forall (fun s => seg_sessionId s = session /\ isIdle s = idle) newSegs.
Proof.
  induction gs as [|g gs IH]; intros table n Hne; simpl.
  - exists []. rewrite app_nil_r, Z.add_0_r. by repeat constructor.
  - inversion Hne as [|? ? Hg Hgs]; subst.
    unfold flushGroup at 2. destruct (g_events g) as [|first rest] eqn:Hev; [done|].
    simpl.
    match goal with
    | |- context [fold_left _ gs (?t ++ [?row], _)] =>
        destruct (IH (t ++ [row]) (n + 1) Hgs) as [segs [Hfold [Hcov Hid]]];
        exists (row :: segs)
    end.
    rewrite Hfold. repeat split.
    + f_equal; [by rewrite <- app_assoc | lia].
    + constructor; [|exact Hcov].
      exists first, (List.last (first :: rest) first). simpl.
      rewrite Hev. repeat split; try reflexivity.
    + constructor; [by simpl|exact Hid].
Qed.

Lemma StronglySorted_app_inv {A} (R : A -> A -> Prop) l1 : forall l2,
  StronglySorted R (l1 ++ l2) ->
  StronglySorted R l1 /\ StronglySorted R l2
  /\ (forall x y, In x l1 -> In y l2 -> R x y).
Proof.
  induction l1 as [|a l1 IH]; intros l2 H; simpl in *.
  - repeat split; [constructor | exact H | tauto].
  - inversion H as [|? ? Hs Hall]; subst.
    destruct (IH _ Hs) as (H1 & H2 & H12). rewrite List.Forall_app in Hall.
    destruct Hall as [Ha1 Ha2]. repeat split; [by constructor | exact H2 |].
    intros x y [<-|Hx] Hy; [|by apply H12].
    rewrite List.Forall_forall in Ha2. by apply Ha2.
Qed.

Lemma sorted_head_last (l : list Z) (a : Z) :
  StronglySorted Z.le (a :: l) -> a <= List.last (a :: l) a.
Proof.
  intros H. inversion H as [|? ? _ Hall]; subst.
  destruct l as [|b l]; [simpl; lia|].
  rewrite List.Forall_forall in Hall. apply Hall.
  change (List.last (a :: b :: l) a) with (List.last (b :: l) a).
  destruct (exists_last (l:=b :: l)) as [l' [z Heq]]; [discriminate|].
  rewrite Heq, last_last. apply in_or_app. right. by left.
Qed.

Lemma last_map_timestamp (l : list RawEvent) (d : RawEvent) :
  timestamp (List.last l d) = List.last (List.map timestamp l) (timestamp d).
Proof.
  revert d. induction l as [|a l IH]; intros d; [reflexivity|].
  destruct l as [|b l]; [reflexivity|]. exact (IH d).
Qed.

Lemma covers_start_in runs segs :
  Forall2 covers runs segs ->
  forall s, In s segs -> exists e, In e (concat runs) /\ startTime s = timestamp e.
Proof.
  induction 1 as [|r s runs segs Hc _ IH]; intros s0 Hin; [destruct Hin|].
  destruct Hin as [<-|Hin].
  - destruct Hc as (first & l & Hh & _ & Hs & _).
    exists first. split; [|exact Hs].
    destruct r as [|x r]; [discriminate|]. injection Hh as ->. by left.
  - destruct (IH _ Hin) as (e & He & Hs). exists e. split; [|exact Hs].
    simpl. apply in_or_app. by right.
Qed.

Lemma last_In {A} (l : list A) (a : A) : In (List.last (a :: l) a) (a :: l).
Proof.
  destruct (exists_last (l:=a :: l)) as [l' [z Heq]]; [discriminate|].
  rewrite Heq, last_last. apply in_or_app. right. by left.
Qed.

Lemma covers_ordered runs segs :
  Forall2 covers runs segs ->
  StronglySorted Z.le (List.map timestamp (concat runs)) ->
  Forall (fun s => startTime s <= endTime s) segs /\ StronglySorted endsBefore segs.
Proof.
  induction 1 as [|r s runs segs Hc Hrest IH]; intros Hsorted.
  - split; constructor.
  - simpl in Hsorted. rewrite List.map_app in Hsorted.
    apply StronglySorted_app_inv in Hsorted as (Hr & Hrs & Hcross).
    destruct (IH Hrs) as [IH1 IH2].
    destruct Hc as (first & l & Hh & Hl & Hs & He & _).
    destruct r as [|x r]; [discriminate|]. injection Hh as ->.
    split; constructor; trivial.
    + rewrite Hs, He, <- Hl, last_map_timestamp. by apply sorted_head_last.
    + rewrite List.Forall_forall. intros s' Hin.
      destruct (covers_start_in _ _ Hrest _ Hin) as (e & He' & Hs').
      unfold endsBefore. rewrite He, Hs', <- Hl.
      apply Hcross; apply in_map; [apply last_In | exact He'].
Qed.

(** C1. For an active session and a non-empty buffer, [flushToSegments]
    empties the buffer and appends to the segment table one segment per run
    of [groupByApp]; the runs, concatenated in order, are exactly the
    buffered events (none lost, none duplicated, order kept within and
    across runs), and each segment counts the events of its run and spans
    from the first to the last of them. *)
Theorem flush_partitions_buffer (idle : bool) (st : State) (session : jsstring) :
  activeSessionId st = Some session ->
  nonEmpty session = true ->
  buffer st <> [] ->
  exists newSegs,
    let runs := List.map g_events (groupByApp (buffer st)) in
    segmentTable (flushToSegments idle st) = segmentTable st ++ newSegs
    /\ buffer (flushToSegments idle st) = []
    /\ concat runs = buffer st
    /\ Forall2 covers runs newSegs
    /\ totalFlushed (flushToSegments idle st)
       = totalFlushed st + Z.of_nat (length newSegs).
Proof.
  intros Hs Hne Hbuf. unfold flushToSegments. rewrite Hs, Hne.
  rewrite bool_decide_eq_false_2 by exact Hbuf. simpl.
  destruct (flushGroup_fold session idle (groupByApp (buffer st))
              (segmentTable st) 0 (groupByApp_nonempty _))
    as (newSegs & Hfold & Hcov & _).
  exists newSegs. rewrite Hfold. simpl. repeat split; trivial.
  - apply groupByApp_concat.
  - f_equal. apply Forall2_length in Hcov. rewrite length_map in Hcov. lia.
Qed.

(** C2 (amended). The first buffered event opens the first run, whatever
    its channel: the run has the app name and the category of that event
    and holds that event alone.  Once a run is open, the next event [e]
    closes it and opens a new run, with the app name and the category of
    [e] and [e] as its only event, if and only if [e] is a scene, visual or
    alert event that carries an app name different from the app name of the
    open run; otherwise [e] continues the open run, which keeps its app name
    and category and holds the events it had followed by [e].  A transcript
    event always continues the open run. *)
Theorem run_boundary_iff_other_app (e0 : RawEvent) (evs : list RawEvent) (e : RawEvent) :
  groupByApp [e0]
  = [ {| g_appName := appName e0; g_appCategory := appCategory e0;
         g_events := [e0] |} ]
  /\ exists closed cur,
      let before := groupByApp (e0 :: evs) in
      let after := groupByApp (e0 :: evs ++ [e]) in
      let opened :=
        {| g_appName := appName e; g_appCategory := appCategory e;
           g_events := [e] |} in
      let continued :=
        {| g_appName := g_appName cur; g_appCategory := g_appCategory cur;
           g_events := g_events cur ++ [e] |} in
      before = closed ++ [cur]
      /\ (namesOtherApp cur e -> after = closed ++ [cur; opened])
      /\ (~ namesOtherApp cur e -> after = closed ++ [continued])
      /\ (length after = S (length before) <-> namesOtherApp cur e)
      /\ (channel e = transcript -> after = closed ++ [continued]).
Proof.
  split.
  { unfold groupByApp. simpl.
    by destruct (hasAppInfo e0 && truthyStr (appName e0) && true). }
  destruct (fold_first e0 evs) as (closed & cur & Hfold).
  exists closed, cur. cbv zeta.
  assert (Hbefore : groupByApp (e0 :: evs) = closed ++ [cur]).
  { unfold groupByApp. by rewrite Hfold. }
  assert (Hafter : groupByApp (e0 :: evs ++ [e])
                   = closeGroups (groupStep (closed, Some cur) e)).
  { unfold groupByApp. rewrite app_comm_cons, fold_left_app, Hfold. reflexivity. }
  pose proof (namesOtherApp_decide cur e) as Hdec.
  rewrite Hbefore, Hafter. unfold groupStep, closeGroups, newGroup, pushEvent.
  destruct (hasAppInfo e && truthyStr (appName e)
            && bool_decide (appName e <> g_appName cur)) eqn:Hb; simpl.
  - assert (Hyes : namesOtherApp cur e) by (by apply Hdec).
    split; [reflexivity|]. split; [|split; [|split]].
    + intros _. by rewrite <- app_assoc.
    + intros Hn. by destruct Hn.
    + split; [intros _; exact Hyes|]. intros _. rewrite !length_app. simpl. lia.
    + intros Ht. destruct Hyes as [Hc _]. rewrite Ht in Hc.
      destruct Hc as [?|[?|?]]; discriminate.
  - assert (Hno : ~ namesOtherApp cur e).
    { intros Hn. apply Hdec in Hn. discriminate. }
    split; [reflexivity|]. split; [|split; [|split]].
    + intros Hn. by destruct Hno.
    + intros _. reflexivity.
    + split; [|intros Hn; by destruct Hno].
      rewrite !length_app. simpl. lia.
    + intros _. reflexivity.
Qed.

(** C7. When the buffered events carry non-decreasing timestamps, every
    segment a flush appends has [startTime <= endTime], and every segment
    ends no later than each segment appended after it starts. *)
Theorem flush_segments_time_ordered (idle : bool) (st : State) :
  Sorted Z.le (List.map timestamp (buffer st)) ->
  exists newSegs,
    segmentTable (flushToSegments idle st) = segmentTable st ++ newSegs
    /\ Forall (fun s => startTime s <= endTime s) newSegs
    /\ StronglySorted endsBefore newSegs
    /\ (truthyStr (activeSessionId st) = true ->
        length newSegs = length (groupByApp (buffer st))).
Proof.
  intros Hsorted.
  assert (Hnone : exists newSegs,
             segmentTable st = segmentTable st ++ newSegs
             /\ Forall (fun s => startTime s <= endTime s) newSegs
             /\ StronglySorted endsBefore newSegs
             /\ (buffer st = [] -> length newSegs = length (groupByApp (buffer st)))).
  { exists []. rewrite app_nil_r. repeat split; try constructor.
    intros ->. reflexivity. }
  unfold flushToSegments, truthyStr.
  destruct (activeSessionId st) as [session|];
    [|destruct Hnone as (n & ? & ? & ? & ?); exists n; repeat split; trivial; discriminate].
  destruct (nonEmpty session) eqn:Hne; simpl;
    [|destruct Hnone as (n & ? & ? & ? & ?); exists n; repeat split; trivial; discriminate].
  destruct (bool_decide (buffer st = [])) eqn:Hbuf.
  { apply bool_decide_eq_true in Hbuf.
    destruct Hnone as (n & ? & ? & ? & ?); exists n; repeat split; auto. }
  destruct (flushGroup_fold session idle (groupByApp (buffer st))
              (segmentTable st) 0 (groupByApp_nonempty _))
    as (newSegs & Hfold & Hcov & _).
  exists newSegs. rewrite Hfold. simpl.
  apply Sorted_StronglySorted in Hsorted; [|intros x y z; lia].
  rewrite <- (groupByApp_concat (buffer st)) in Hsorted.
  destruct (covers_ordered _ _ Hcov Hsorted) as [H1 H2].
  repeat split; trivial.
  intros _. apply Forall2_length in Hcov. by rewrite length_map in Hcov.
Qed.

(** A clock that never runs backwards stamps the buffer with non-decreasing
    timestamps. *)
Lemma ingestEvent_keeps_order now dispatched raw (st : State) :
  Sorted Z.le (List.map timestamp (buffer st)) ->
  Forall (fun e => timestamp e <= now) (buffer st) ->
  Sorted Z.le (List.map timestamp (buffer (ingestEvent now dispatched raw st)))
  /\ Forall (fun e => timestamp e <= now) (buffer (ingestEvent now dispatched raw st)).
Proof.
  intros Hs Hall. unfold ingestEvent.
  destruct (activeSessionId st) as [session|]; [|by split].
  destruct (nonEmpty session); [|by split].
  destruct dispatched as [d|]; [|by split]. simpl. split.
  - rewrite List.map_app. simpl.
    apply Sorted_StronglySorted in Hs; [|intros x y z; lia].
    apply StronglySorted_Sorted.
    induction (buffer st) as [|a l IH]; simpl; [repeat constructor|].
    inversion Hs; subst. inversion Hall; subst. constructor; [by apply IH|].
    rewrite List.Forall_app. split; [assumption|]. by repeat constructor.
  - rewrite List.Forall_app. split; [exact Hall|]. repeat constructor. simpl. lia.
Qed.

(** Events are buffered only while a session is active. *)
Definition bufferHasSession (st : State) : Prop :=
  buffer st <> [] -> truthyStr (activeSessionId st) = true.

Lemma flush_empties_buffer (idle : bool) (st : State) :
  truthyStr (activeSessionId st) = true -> buffer (flushToSegments idle st) = [].
Proof.
  unfold flushToSegments, truthyStr.
  destruct (activeSessionId st) as [session|]; [|discriminate].
  intros ->. simpl. case_bool_decide as Hb; [exact Hb|].
  destruct (fold_left (flushGroup session idle) _ _) as [table n]. reflexivity.
Qed.

Lemma flush_keeps_session (idle : bool) (st : State) :
  activeSessionId (flushToSegments idle st) = activeSessionId st.
Proof.
  unfold flushToSegments.
  destruct (activeSessionId st) as [session|] eqn:Hs; [|exact Hs].
  destruct (negb (nonEmpty session) || bool_decide (buffer st = [])); [exact Hs|].
  destruct (fold_left (flushGroup session idle) _ _) as [table n]. reflexivity.
Qed.

Lemma bufferHasSession_kept (st : State) :
  (forall session, bufferHasSession (startIngestion session st))
  /\ (bufferHasSession st ->
      (forall now dispatched raw,
          bufferHasSession (ingestEvent now dispatched raw st))
      /\ (forall idle, bufferHasSession (flushToSegments idle st))
      /\ (forall idle, bufferHasSession (stopIngestion idle st))).
Proof.
  split; [intros session H; by destruct H|].
  intros Hst. split; [|split].
  - intros now dispatched raw. unfold ingestEvent.
    destruct (activeSessionId st) as [session|] eqn:Hs; [|exact Hst].
    destruct (nonEmpty session) eqn:Hne; [|exact Hst].
    destruct dispatched as [d|]; [|unfold bufferHasSession; by rewrite Hs].
    intros _. exact Hne.
  - intros idle Hne. rewrite flush_keeps_session. apply Hst.
    intros Hbuf. apply Hne.
    unfold flushToSegments. rewrite Hbuf.
    destruct (activeSessionId st) as [session|]; [|exact Hbuf].
    rewrite bool_decide_eq_true_2 by reflexivity. rewrite orb_true_r. exact Hbuf.
  - intros idle. unfold stopIngestion, bufferHasSession.
    destruct (buffer st) as [|e rest] eqn:Hbuf; simpl; [by rewrite Hbuf|].
    intros Hne. exfalso. apply Hne.
    apply flush_empties_buffer, Hst. by rewrite Hbuf.
Qed.

(** *** A flush on a concrete buffer *)

Definition sceneEvent (t : Z) (app text : string) : RawEvent :=
  {| sessionId := js "s1"; timestamp := t; channel := scene_index;
     appName := Some (js app); appCategory := Some development;
     summaryText := Some (js text); rawJson := js "{}" |}.

Definition transcriptEvent (t : Z) (text : string) : RawEvent :=
  {| sessionId := js "s1"; timestamp := t; channel := transcript;
     appName := None; appCategory := None;
     summaryText := Some (js text); rawJson := js "{}" |}.

(** Three scene events for VS Code two minutes apart, a transcript, then two
    scene events for Chrome. *)
Definition sampleBuffer : list RawEvent :=
  [ sceneEvent 1000 "VS Code" "focusd - VS Code | editing code";
    sceneEvent 1120 "VS Code" "focusd - VS Code | editing code";
    transcriptEvent 1130 "let us fix the flush";
    sceneEvent 1240 "VS Code" "focusd - VS Code | debugging";
    sceneEvent 1300 "Chrome" "Chrome | browsing docs";
    sceneEvent 1310 "Chrome" "Chrome | browsing docs" ].

Definition sampleState : State :=
  {| buffer := sampleBuffer; activeSessionId := Some (js "s1");
     totalIngested := 6; totalFlushed := 0;
     rawEventTable := sampleBuffer; segmentTable := [] |}.

Example sample_flush_spans :
  List.map (fun s => (startTime s, endTime s, eventCount s, primaryApp s, project s))
           (segmentTable (flushToSegments false sampleState))
  = [ (1000, 1240, 4, Some (js "VS Code"), Some (js "focusd"));
      (1300, 1310, 2, Some (js "Chrome"), None) ].
Proof. vm_compute. reflexivity. Qed.

Lemma flush_partitions_buffer_witness :
  exists newSegs,
    let runs := List.map g_events (groupByApp (buffer sampleState)) in
    segmentTable (flushToSegments false sampleState)
      = segmentTable sampleState ++ newSegs
    /\ buffer (flushToSegments false sampleState) = []
    /\ concat runs = buffer sampleState
    /\ Forall2 covers runs newSegs
    /\ totalFlushed (flushToSegments false sampleState)
       = totalFlushed sampleState + Z.of_nat (length newSegs).
Proof.
  apply (flush_partitions_buffer false sampleState (js "s1"));
    [reflexivity | reflexivity | discriminate].
Defined.

Lemma run_boundary_iff_other_app_witness :
  groupByApp [sceneEvent 1240 "VS Code" "a"; sceneEvent 1300 "Chrome" "b";
              transcriptEvent 1305 "c"]
  = [ {| g_appName := Some (js "VS Code"); g_appCategory := Some development;
         g_events := [sceneEvent 1240 "VS Code" "a"] |};
      {| g_appName := Some (js "Chrome"); g_appCategory := Some development;
         g_events := [sceneEvent 1300 "Chrome" "b"; transcriptEvent 1305 "c"] |} ].
Proof.
  destruct (run_boundary_iff_other_app (sceneEvent 1240 "VS Code" "a")
              [sceneEvent 1300 "Chrome" "b"] (transcriptEvent 1305 "c"))
    as (_ & closed & cur & Hbefore & _ & _ & _ & Htranscript).
  cbv zeta in Hbefore, Htranscript.
  change (groupByApp [sceneEvent 1240 "VS Code" "a"; sceneEvent 1300 "Chrome" "b"])
    with ([newGroup (sceneEvent 1240 "VS Code" "a")]
          ++ [newGroup (sceneEvent 1300 "Chrome" "b")]) in Hbefore.
  apply app_inj_tail in Hbefore as [<- <-].
  exact (Htranscript eq_refl).
Defined.

(** C2 as the specification has it: whatever is flushed, no run starts with
    a transcript event. *)
Definition transcriptsNeverStartRuns : Prop :=
  forall (events : list RawEvent) (g : EventGroup) (first : RawEvent),
    In g (groupByApp events) ->
    head (g_events g) = Some first ->
    channel first <> transcript.

(** C2, counterexample. A flush whose first buffered event is a transcript:
    that event opens the first run. *)
Lemma leading_transcript_starts_a_run : ~ transcriptsNeverStartRuns.
Proof.
  intros H.
  apply (H [transcriptEvent 1000 "good morning"; sceneEvent 1010 "VS Code" "a"]
           {| g_appName := None; g_appCategory := None;
              g_events := [transcriptEvent 1000 "good morning"] |}
           (transcriptEvent 1000 "good morning")).
  - left. reflexivity.
  - reflexivity.
  - reflexivity.
Qed.

Example leading_transcript_runs :
  List.map (fun g => (g_appName g, List.map channel (g_events g)))
    (groupByApp [transcriptEvent 1000 "good morning"; sceneEvent 1010 "VS Code" "a";
                 transcriptEvent 1020 "next"])
  = [ (None, [transcript]); (Some (js "VS Code"), [scene_index; transcript]) ].
Proof. vm_compute. reflexivity. Qed.

Lemma flush_segments_time_ordered_witness :
  exists newSegs,
    segmentTable (flushToSegments false sampleState)
      = segmentTable sampleState ++ newSegs
    /\ Forall (fun s => startTime s <= endTime s) newSegs
    /\ StronglySorted endsBefore newSegs
    /\ (truthyStr (activeSessionId sampleState) = true ->
        length newSegs = length (groupByApp (buffer sampleState))).
Proof.
  apply (flush_segments_time_ordered false sampleState).
  simpl. repeat first [apply Sorted_cons | apply Sorted_nil
                      | apply HdRel_cons | apply HdRel_nil | lia].
Defined.

End IngestionFacts.

(* ===================================================================== *)
(** ** Properties of project inference *)
(* ===================================================================== *)

Module ClassifierFacts.
Import JS Regex Classifier.

(** The name an IDE title bar in [text] proposes: group 1 of the leftmost
    match of the title pattern, trimmed. *)
Definition titleCandidate (text : jsstring) : option jsstring :=
  trim <$> capture titlePattern text.

(** The name a file path in [text] proposes: group 1 of the leftmost match
    of the path pattern. *)
Definition pathCandidate (text : jsstring) : option jsstring :=
  capture pathPattern text.

(** The candidates of all texts, in scanning order: for each text its title
    candidate, then its path candidate. *)
Definition candidates (sceneTexts : list jsstring) : list jsstring :=
  flat_map (fun text => option_list (titleCandidate text)
                        ++ option_list (pathCandidate text)) sceneTexts.

(** [c] occurs in [text] as the group of pattern [pt]: after [before] the
    text goes on with what [pre] matches, then [c], matched by [grp], then
    [after], at the start of which [post] matches. *)
Definition occursAs (pt : pattern) (text c : jsstring) : Prop :=
  exists before lead after,
    text = before ++ lead ++ c ++ after
    /\ In (c ++ after) (matches (pre pt) (lead ++ c ++ after))
    /\ In after (matches (grp pt) (c ++ after))
    /\ testAtStart (post pt) after = true.

(** The validity filter, in words: the length is between 3 and 50, the
    lower-cased name does not end in a domain suffix, does not begin with
    [www.], [http.] or [ftp.], is not a rejected folder name, and is not a
    single generic word. *)
Definition passesFilter (name : jsstring) : Prop :=
  let lower := toLowerCase name in
  (3 <= length lower)%nat /\ (length lower <= 50)%nat
  /\ test domainSuffix lower = false
  /\ testAtStart urlPrefix lower = false
  /\ (lower ∉ REJECTED_NAMES)
  /\ ~ (testAtStart lowerWord lower = true /\ lower ∈ GENERIC_WORDS).

(** What a regular expression matches, said without the matcher: [lang r q
    rest] holds when [r] can match the code units [q] in front of [rest]. *)
Fixpoint lang (r : re) (q rest : jsstring) : Prop :=
  match r with
  | Eps => q = []
  | Eol => q = [] /\ rest = []
  | Cls p => exists c, q = [c] /\ p c = true
  | Rep p min => Forall (fun c => p c = true) q /\ (min <= length q)%nat
  | Opt r1 => lang r1 q rest \/ q = []
  | Seq r1 r2 =>
      exists q1 q2, q = q1 ++ q2 /\ lang r1 q1 (q2 ++ rest) /\ lang r2 q2 rest
  | Alt r1 r2 => lang r1 q rest \/ lang r2 q rest
  end.

(** The editors an IDE title bar can name. *)
Definition EDITOR_NAMES : list string :=
  ["VS Code"; "Visual Studio"; "Cursor"; "IntelliJ"; "WebStorm"; "PyCharm";
   "GoLand"; "Xcode"; "Sublime"]%string.

(** The directories a project root holds. *)
Definition SOURCE_DIRS : list string :=
  ["src"; "lib"; "app"; "package"; "packages"; "cmd"]%string.

(** Equality up to the case of the letters A-Z. *)
Definition sameIgnoringCase (a : jsstring) (b : string) : Prop :=
  toLowerCase a = toLowerCase (js b).

(** Code units of white space only. *)
Definition whiteSpace (q : jsstring) : Prop := Forall (fun u => isSpace u = true) q.

(** A name: a letter, digit or underscore, followed by at least two units
    of the class [cls]. *)
Definition nameOf (cls : N -> bool) (g : jsstring) : Prop :=
  exists x q, g = x :: q /\ wordChar x = true
              /\ Forall (fun u => cls u = true) q /\ (2 <= length q)%nat.

(** What follows the name in a title bar: optional white space, a hyphen or
    dash, optional white space, the name of an editor in any case. *)
Definition editorTail (rest : jsstring) : Prop :=
  exists sp1 d sp2 ed tail e,
    rest = sp1 ++ d :: sp2 ++ ed ++ tail
    /\ whiteSpace sp1 /\ dashClass d = true /\ whiteSpace sp2
    /\ In e EDITOR_NAMES /\ sameIgnoringCase ed e.

(** What follows the segment in a path: a slash, one of the source
    directories in any case, a slash. *)
Definition sourceDirTail (rest : jsstring) : Prop :=
  exists s1 dir s2 tail d,
    rest = s1 :: dir ++ s2 :: tail
    /\ slashClass s1 = true /\ slashClass s2 = true
    /\ In d SOURCE_DIRS /\ sameIgnoringCase dir d.

(** [text = before ++ g ++ rest] holds the name [g] in front of an editor. *)
Definition titleBarName (before g rest : jsstring) : Prop :=
  nameOf nameClass g /\ editorTail rest.

(** [text = before ++ g ++ rest] holds the path segment [g], between a slash
    and a source directory. *)
Definition pathSegmentName (before g rest : jsstring) : Prop :=
  (exists b sl, before = b ++ [sl] /\ slashClass sl = true)
  /\ nameOf segmentClass g /\ sourceDirTail rest.

(** [found] is the first occurrence of the form [occ] in [text]: the one
    that starts leftmost and, of those that start there, the longest;
    [None] when [text] holds no occurrence. *)
Definition firstOccurrence (occ : jsstring -> jsstring -> jsstring -> Prop)
    (text : jsstring) (found : option jsstring) : Prop :=
  match found with
  | Some g =>
      exists before rest,
        text = before ++ g ++ rest /\ occ before g rest
        /\ forall before' g' rest',
             text = before' ++ g' ++ rest' -> occ before' g' rest' ->
             (length before < length before')%nat
             \/ (length before' = length before /\ (length g' <= length g)%nat)
  | None => forall before g rest, text = before ++ g ++ rest -> ~ occ before g rest
  end.

(** The candidates of one text: the name of its first title bar, trimmed,
    then the segment of its first path. *)
Definition candidatesOf (text : jsstring) (cs : list jsstring) : Prop :=
  exists t p,
    firstOccurrence titleBarName text t
    /\ firstOccurrence pathSegmentName text p
    /\ cs = option_list (trim <$> t) ++ option_list p.

(** The domain suffixes and URL prefixes the filter rejects. *)
Definition DOMAIN_SUFFIXES : list string :=
  ["com"; "org"; "io"; "dev"; "net"; "co"; "app"; "xyz"; "ai"; "me"; "tv"; "gg"]%string.

Definition URL_PREFIXES : list string := ["www"; "http"; "ftp"]%string.

(** A name that ends in a dot and a domain suffix. *)
Definition domainLike (lower : jsstring) : Prop :=
  exists stem tld e,
    lower = stem ++ (46%N :: tld) /\ In e DOMAIN_SUFFIXES /\ sameIgnoringCase tld e.

(** A name that begins with [www.], [http.] or [ftp.]. *)
Definition urlLike (lower : jsstring) : Prop :=
  exists p rest e,
    lower = p ++ (46%N :: rest) /\ In e URL_PREFIXES /\ sameIgnoringCase p e.

(** A single word: lower-case letters only. *)
Definition singleWord (lower : jsstring) : Prop :=
  lower <> [] /\ Forall (fun u => isLower u = true) lower.

(** The validity filter, in words: the name has between 3 and 50 code
    units and its lower-casing is neither domain-like nor URL-like, nor a
    rejected folder name, nor a single generic word. *)
Definition validName (name : jsstring) : Prop :=
  let lower := toLowerCase name in
  (3 <= length lower <= 50)%nat
  /\ ~ domainLike lower
  /\ ~ urlLike lower
  /\ (lower ∉ REJECTED_NAMES)
  /\ ~ (singleWord lower /\ lower ∈ GENERIC_WORDS).

(** [c] is a candidate somewhere in [text]: the trimmed name of any title
    bar of the text, or any path segment in front of a source directory. *)
Definition holdsCandidate (text c : jsstring) : Prop :=
  (exists before g rest,
      text = before ++ g ++ rest /\ titleBarName before g rest /\ c = trim g)
  \/ (exists before rest,
        text = before ++ c ++ rest /\ pathSegmentName before c rest).

(** The reading under which every candidate of a text counts: a text that
    holds a valid candidate yields a project. *)
Definition findsEveryCandidate : Prop :=
  forall (sceneTexts : list jsstring) (text c : jsstring),
    In text sceneTexts -> holdsCandidate text c -> validName c ->
    inferProject sceneTexts <> None.

Lemma repClass_suffix p s : forall k r,
  In (k, r) (repClass p s) -> exists q, s = q ++ r /\ length q = k.
Proof.
  induction s as [|c s IH]; intros k r; simpl.
  - intros [[= <- <-]|[]]. by exists [].
  - destruct (p c).
    + rewrite in_app_iff, in_map_iff. intros [[[k' r'] [[= <- <-] Hin]]|[[= <- <-]|[]]].
      * destruct (IH _ _ Hin) as (q & -> & <-). by exists (c :: q).
      * by exists [].
    + intros [[= <- <-]|[]]. by exists [].
Qed.

Lemma matches_suffix r : forall s s', In s' (matches r s) -> exists q, s = q ++ s'.
Proof.
  induction r as [| |p|p n|r IH|r1 IH1 r2 IH2|r1 IH1 r2 IH2]; intros s s'; simpl.
  - intros [<-|[]]. by exists [].
  - destruct s; [intros [<-|[]]; by exists [] | intros []].
  - destruct s as [|c s]; [intros []|]. destruct (p c); [|intros []].
    intros [<-|[]]. by exists [c].
  - rewrite in_map_iff. intros [[k r] [<- Hin]].
    apply filter_In in Hin as [Hin _].
    destruct (repClass_suffix _ _ _ _ Hin) as (q & -> & _). by exists q.
  - rewrite in_app_iff. intros [H|[<-|[]]]; [by apply IH|by exists []].
  - rewrite in_flat_map. intros (s1 & H1 & H2).
    destruct (IH1 _ _ H1) as [q1 ->]. destruct (IH2 _ _ H2) as [q2 ->].
    exists (q1 ++ q2). by rewrite app_assoc.
  - rewrite in_app_iff. intros [H|H]; [by apply IH1|by apply IH2].
Qed.

Lemma repClass_units p s : forall k r,
  In (k, r) (repClass p s) ->
  exists q, s = q ++ r /\ Forall (fun c => p c = true) q.
Proof.
  induction s as [|c s IH]; intros k r; simpl.
  - intros [[= <- <-]|[]]. by exists [].
  - destruct (p c) eqn:Hc.
    + rewrite in_app_iff, in_map_iff. intros [[[k' r'] [[= <- <-] Hin]]|[[= <- <-]|[]]].
      * destruct (IH _ _ Hin) as (q & -> & Hq). exists (c :: q). split; [reflexivity|].
        by constructor.
      * by exists [].
    + intros [[= <- <-]|[]]. by exists [].
Qed.

(** What the group [[\w][cls]{n,}] captures: a word unit, then units of the
    class. *)
Lemma group_units (cls : N -> bool) (n : nat) (c after : jsstring) :
  In after (matches (Seq (Cls wordChar) (Rep cls n)) (c ++ after)) ->
  exists x q, c = x :: q /\ wordChar x = true /\ Forall (fun u => cls u = true) q.
Proof.
  simpl. rewrite in_flat_map. intros (s1 & H1 & H2).
  destruct (c ++ after) as [|x s] eqn:Hc; [destruct H1|].
  destruct (wordChar x) eqn:Hx; [|destruct H1]. destruct H1 as [<-|[]].
  apply in_map_iff in H2 as [[k r] [<- H2]]. apply filter_In in H2 as [H2 _].
  destruct (repClass_units _ _ _ _ H2) as (q & -> & Hq). simpl in *.
  exists x, q. split; [|by split].
  change (x :: q ++ r) with ((x :: q) ++ r) in Hc. by apply app_inv_tail in Hc.
Qed.

Lemma nameClass_ascii (u : N) : nameClass u = true -> (u < 128)%N.
Proof.
  unfold nameClass, wordChar, oneOf, isUpper, isLower, isDigit. simpl.
  rewrite !orb_true_iff, !andb_true_iff, !N.leb_le, !N.eqb_eq. lia.
Qed.

Lemma segmentClass_name (u : N) : segmentClass u = true -> nameClass u = true.
Proof.
  unfold segmentClass, nameClass, oneOf. simpl.
  rewrite !orb_true_iff. tauto.
Qed.

Lemma wordChar_name (u : N) : wordChar u = true -> nameClass u = true.
Proof. unfold nameClass. by intros ->. Qed.

Lemma trimStart_units (P : N -> Prop) (s : jsstring) :
  Forall P s -> Forall P (trimStart s).
Proof.
  induction 1 as [|c s Hc Hs IH]; simpl; [constructor|].
  destruct (isSpace c); [exact IH|by constructor].
Qed.

Lemma trim_units (P : N -> Prop) (s : jsstring) : Forall P s -> Forall P (trim s).
Proof.
  intros H. unfold trim.
  apply List.Forall_rev, trimStart_units, List.Forall_rev, trimStart_units, H.
Qed.

Lemma head_In {A} (l : list A) (x : A) : head l = Some x -> In x l.
Proof. destruct l; [discriminate|]. intros [= ->]. by left. Qed.

Lemma captureAtStart_occurs pt s c :
  captureAtStart pt s = Some c -> occursAs pt s c.
Proof.
  unfold captureAtStart. intros H. apply head_In in H.
  apply in_flat_map in H as (s1 & H1 & H). apply in_flat_map in H as (s2 & H2 & H).
  destruct (testAtStart (post pt) s2) eqn:Hpost; [|destruct H].
  destruct H as [<-|[]].
  destruct (matches_suffix _ _ _ H1) as [lead ->].
  destruct (matches_suffix _ _ _ H2) as [g ->].
  replace (length (g ++ s2) - length s2)%nat with (length g)
    by (rewrite length_app; lia).
  rewrite take_app_length. exists [], lead, s2. by repeat split.
Qed.

Lemma capture_occurs pt : forall s c, capture pt s = Some c -> occursAs pt s c.
Proof.
  induction s as [|x s IH]; intros c; simpl.
  - destruct (captureAtStart pt []) eqn:H0; [|discriminate].
    intros [= ->]. by apply captureAtStart_occurs.
  - destruct (captureAtStart pt (x :: s)) eqn:H0.
    + intros [= ->]. by apply captureAtStart_occurs.
    + intros H. destruct (IH _ H) as (before & lead & after & -> & Hrest).
      by exists (x :: before), lead, after.
Qed.

Lemma isValidProject_passes name :
  isValidProject name = true <-> passesFilter name.
Proof.
  unfold isValidProject, passesFilter. cbv zeta.
  set (lower := toLowerCase name).
  destruct (length lower <? 3)%nat eqn:H3; simpl.
  { apply Nat.ltb_lt in H3. split; [discriminate|]. intros (? & _). lia. }
  destruct (50 <? length lower)%nat eqn:H50.
  { apply Nat.ltb_lt in H50. split; [discriminate|]. intros (_ & ? & _). lia. }
  apply Nat.ltb_ge in H3, H50.
  destruct (test domainSuffix lower);
    [split; [discriminate|intros (_ & _ & ? & _); discriminate]|].
  destruct (testAtStart urlPrefix lower);
    [split; [discriminate|intros (_ & _ & _ & ? & _); discriminate]|].
  destruct (bool_decide (lower ∈ REJECTED_NAMES)) eqn:Hr.
  { apply bool_decide_eq_true in Hr. split; [discriminate|].
    intros (_ & _ & _ & _ & Hn & _). destruct (Hn Hr). }
  apply bool_decide_eq_false in Hr.
  destruct (testAtStart lowerWord lower); simpl.
  - destruct (bool_decide (lower ∈ GENERIC_WORDS)) eqn:Hg.
    + apply bool_decide_eq_true in Hg. split; [discriminate|].
      intros (_ & _ & _ & _ & _ & Hn). destruct Hn. by split.
    + apply bool_decide_eq_false in Hg. split; [|reflexivity]. intros _.
      repeat split; trivial. intros [_ Hin]. destruct (Hg Hin).
  - split; [|reflexivity]. intros _. repeat split; trivial.
    intros [? _]. discriminate.
Qed.

Lemma inferProjectIn_find text :
  inferProjectIn text
  = List.find isValidProject
      (option_list (titleCandidate text) ++ option_list (pathCandidate text)).
Proof.
  unfold inferProjectIn, titleCandidate, pathCandidate.
  destruct (capture titlePattern text) as [g|]; simpl.
  - destruct (isValidProject (trim g)); [reflexivity|].
    destruct (capture pathPattern text) as [p|]; simpl; [|reflexivity].
    by destruct (isValidProject p).
  - destruct (capture pathPattern text) as [p|]; simpl; [|reflexivity].
    by destruct (isValidProject p).
Qed.

Lemma find_app {A} (f : A -> bool) (l1 l2 : list A) :
  List.find f (l1 ++ l2)
  = match List.find f l1 with Some x => Some x | None => List.find f l2 end.
Proof.
  induction l1 as [|a l1 IH]; simpl; [reflexivity|]. by destruct (f a).
Qed.

(** Every candidate name is made of units of [[A-Za-z0-9_. -]], all of
    them ASCII: [isValidProject] lower-cases nothing else. *)
Lemma candidates_in_name_class (sceneTexts : list jsstring) (c : jsstring) :
  In c (candidates sceneTexts) ->
  Forall (fun u => nameClass u = true /\ (u < 128)%N) c.
Proof.
  unfold candidates. rewrite in_flat_map. intros (text & _ & Hin).
  assert (Hcls : Forall (fun u => nameClass u = true) c).
  { apply in_app_iff in Hin as [Hin|Hin].
    - unfold titleCandidate in Hin.
      destruct (capture titlePattern text) as [g|] eqn:Hc; [|destruct Hin].
      destruct Hin as [<-|[]]. apply trim_units.
      destruct (capture_occurs _ _ _ Hc) as (before & lead & after & _ & _ & Hg & _).
      destruct (group_units _ _ _ _ Hg) as (x & q & -> & Hx & Hq).
      constructor; [by apply wordChar_name|exact Hq].
    - unfold pathCandidate in Hin.
      destruct (capture pathPattern text) as [g|] eqn:Hc; [|destruct Hin].
      destruct Hin as [<-|[]].
      destruct (capture_occurs _ _ _ Hc) as (before & lead & after & _ & _ & Hg & _).
      destruct (group_units _ _ _ _ Hg) as (x & q & -> & Hx & Hq).
      constructor; [by apply wordChar_name|].
      eapply List.Forall_impl; [|exact Hq]. apply segmentClass_name. }
  eapply List.Forall_impl; [|exact Hcls].
  intros u Hu. split; [exact Hu|by apply nameClass_ascii].
Qed.

Lemma repClass_iff p : forall s k r,
  In (k, r) (repClass p s)
  <-> exists q, s = q ++ r /\ length q = k /\ Forall (fun c => p c = true) q.
Proof.
  intros s k r. split.
  - revert k r. induction s as [|c s IH]; intros k r; simpl.
    + intros [[= <- <-]|[]]. by exists [].
    + destruct (p c) eqn:Hc.
      * rewrite in_app_iff, in_map_iff.
        intros [[[k' r'] [[= <- <-] Hin]]|[[= <- <-]|[]]].
        -- destruct (IH _ _ Hin) as (q & -> & <- & Hq). exists (c :: q).
           repeat split; trivial. by constructor.
        -- by exists [].
      * intros [[= <- <-]|[]]. by exists [].
  - intros (q & -> & <- & Hq). induction Hq as [|c q Hc Hq IH]; simpl.
    + destruct r as [|c r]; simpl; [by left|].
      destruct (p c); [|by left]. apply in_app_iff. right. by left.
    + rewrite Hc. apply in_app_iff. left. apply in_map_iff.
      by exists (length q, r).
Qed.

Lemma matches_lang r : forall s s',
  In s' (matches r s) <-> exists q, s = q ++ s' /\ lang r q s'.
Proof.
  induction r as [| |p|p n|r IH|r1 IH1 r2 IH2|r1 IH1 r2 IH2]; intros s s'; simpl.
  - split; [intros [<-|[]]; by exists []|]. intros (q & -> & ->). by left.
  - split.
    + destruct s; [intros [<-|[]]; by exists [] | intros []].
    + intros (q & -> & -> & ->). by left.
  - split.
    + destruct s as [|c s]; [intros []|]. destruct (p c) eqn:Hc; [|intros []].
      intros [<-|[]]. exists [c]. split; [done|]. by exists c.
    + intros (q & -> & c & -> & Hc). simpl. rewrite Hc. by left.
  - rewrite in_map_iff. split.
    + intros [[k r] [<- Hin]]. apply filter_In in Hin as [Hin Hk].
      apply repClass_iff in Hin as (q & -> & <- & Hq). exists q.
      repeat split; trivial. by apply Nat.leb_le in Hk.
    + intros (q & -> & Hq & Hn). exists (length q, s'). split; [done|].
      apply filter_In. split; [|by apply Nat.leb_le].
      apply repClass_iff. by exists q.
  - rewrite in_app_iff, IH. split.
    + intros [(q & -> & Hq)|[<-|[]]]; [exists q; by split; [|left]|].
      exists []. by split; [|right].
    + intros (q & -> & [Hq| ->]); [left; by exists q|right; by left].
  - rewrite in_flat_map. split.
    + intros (s1 & H1 & H2). apply IH1 in H1 as (q1 & -> & H1).
      apply IH2 in H2 as (q2 & -> & H2). exists (q1 ++ q2).
      split; [by rewrite app_assoc|]. by exists q1, q2.
    + intros (q & -> & q1 & q2 & -> & H1 & H2). exists (q2 ++ s'). split.
      * apply IH1. exists q1. split; [by rewrite app_assoc|done].
      * apply IH2. by exists q2.
  - rewrite in_app_iff, IH1, IH2. split.
    + intros [(q & -> & Hq)|(q & -> & Hq)]; exists q; (split; [done|]); [by left|by right].
    + intros (q & -> & [Hq|Hq]); [left|right]; by exists q.
Qed.

Lemma testAtStart_lang r s :
  testAtStart r s = true <-> exists q s', s = q ++ s' /\ lang r q s'.
Proof.
  unfold testAtStart. split.
  - destruct (matches r s) as [|s' l] eqn:Hm; [discriminate|]. intros _.
    assert (Hin : In s' (matches r s)) by (rewrite Hm; by left).
    apply matches_lang in Hin as (q & -> & Hq). by exists q, s'.
  - intros (q & s' & -> & Hq).
    assert (Hin : In s' (matches r (q ++ s'))) by (apply matches_lang; by exists q).
    by destruct (matches r (q ++ s')).
Qed.

Lemma lang_lit (l : jsstring) (q rest : jsstring) :
  lang (fold_right (fun x r => Seq (unitCI x) r) Eps l) q rest
  <-> toLowerCase q = toLowerCase l.
Proof.
  revert q. induction l as [|x l IH]; intros q; simpl.
  - split; [by intros ->|]. by destruct q.
  - split.
    + intros (q1 & q2 & -> & (c & -> & Hc) & H2). apply IH in H2.
      apply N.eqb_eq in Hc. simpl. by rewrite Hc, H2.
    + destruct q as [|c q]; [discriminate|]. simpl. intros [= Hc Hq].
      exists [c], q. split; [done|]. split; [|by apply IH].
      exists c. split; [done|]. by apply N.eqb_eq.
Qed.

Lemma lang_litCI (str : string) (q rest : jsstring) :
  lang (litCI str) q rest <-> sameIgnoringCase q str.
Proof. apply lang_lit. Qed.

Lemma lang_fold_Alt (rs : list re) : forall (a : re) (q rest : jsstring),
  lang (fold_left Alt rs a) q rest
  <-> lang a q rest \/ exists r, In r rs /\ lang r q rest.
Proof.
  induction rs as [|r rs IH]; intros a q rest; simpl.
  - split; [by left|]. intros [H|(r & [] & _)]. done.
  - rewrite IH. simpl. split.
    + intros [[H|H]|(r' & Hin & H)]; [by left| |].
      * right. exists r. by split; [left|].
      * right. exists r'. by split; [right|].
    + intros [H|(r' & [<-|Hin] & H)]; [left; by left|left; by right|].
      right. by exists r'.
Qed.

Lemma lang_alts (rs : list re) (q rest : jsstring) :
  lang (alts rs) q rest <-> exists r, In r rs /\ lang r q rest.
Proof.
  destruct rs as [|a rs]; simpl.
  - split; [intros (c & _ & [=])|intros (r & [] & _)].
  - rewrite lang_fold_Alt. split.
    + intros [H|(r & Hin & H)]; [exists a; by split; [left|]|].
      exists r. by split; [right|].
    + intros (r & [<-|Hin] & H); [by left|]. right. by exists r.
Qed.

Lemma lang_alts_litCI (names : list string) (q rest : jsstring) :
  lang (alts (List.map litCI names)) q rest
  <-> exists e, In e names /\ sameIgnoringCase q e.
Proof.
  rewrite lang_alts. split.
  - intros (r & Hin & H). apply in_map_iff in Hin as (e & <- & Hin).
    exists e. split; [done|]. by apply lang_litCI in H.
  - intros (e & Hin & H). exists (litCI e). split; [by apply in_map|].
    by apply lang_litCI.
Qed.

Lemma title_post_tail (rest : jsstring) :
  testAtStart (post titlePattern) rest = true <-> editorTail rest.
Proof.
  rewrite testAtStart_lang. unfold editorTail, whiteSpace.
  change (post titlePattern)
    with (Seq (Rep isSpace 0) (Seq (Cls dashClass) (Seq (Rep isSpace 0)
            (alts (List.map litCI EDITOR_NAMES))))).
  generalize (lang_alts_litCI EDITOR_NAMES).
  generalize (alts (List.map litCI EDITOR_NAMES)). intros editors Heditors.
  split.
  - intros (q & tail & -> & H). cbn [lang] in H.
    destruct H as (sp1 & q2 & -> & [Hsp1 _] & q3 & q4 & -> & (d & -> & Hd)
                   & sp2 & ed & -> & [Hsp2 _] & Hed).
    apply Heditors in Hed as (e & He & Hsame).
    exists sp1, d, sp2, ed, tail, e. repeat split; trivial.
    by rewrite <- !app_assoc.
  - intros (sp1 & d & sp2 & ed & tail & e & -> & Hsp1 & Hd & Hsp2 & He & Hsame).
    exists (sp1 ++ d :: sp2 ++ ed), tail.
    split; [by rewrite <- !app_assoc; simpl; rewrite <- app_assoc|].
    cbn [lang].
    exists sp1, (d :: sp2 ++ ed). split; [done|]. split; [split; [done|lia]|].
    exists [d], (sp2 ++ ed). split; [done|]. split; [by exists d|].
    exists sp2, ed. split; [done|]. split; [split; [done|lia]|].
    apply Heditors. by exists e.
Qed.

Lemma path_post_tail (rest : jsstring) :
  testAtStart (post pathPattern) rest = true <-> sourceDirTail rest.
Proof.
  rewrite testAtStart_lang. unfold sourceDirTail.
  change (post pathPattern)
    with (Seq (Cls slashClass)
           (Seq (alts [litCI "src"; litCI "lib"; litCI "app";
                       Seq (litCI "package") (Opt (litCI "s")); litCI "cmd"])
                (Cls slashClass))).
  assert (Hdirs : forall q r,
    lang (alts [litCI "src"; litCI "lib"; litCI "app";
                Seq (litCI "package") (Opt (litCI "s")); litCI "cmd"]) q r
    <-> exists d, In d SOURCE_DIRS /\ sameIgnoringCase q d).
  { intros q r. rewrite lang_alts. split.
    - intros (r0 & Hin & H).
      destruct Hin as [<-|[<-|[<-|[<-|[<-|[]]]]]];
        try (apply lang_litCI in H; eexists; split; [|exact H]; simpl; auto 10).
      cbn [lang] in H. destruct H as (q1 & q2 & -> & H1 & [H2| ->]).
      + apply lang_litCI in H1, H2. exists "packages"%string. split; [simpl; auto 10|].
        unfold sameIgnoringCase, toLowerCase in *. rewrite List.map_app, H1, H2.
        reflexivity.
      + apply lang_litCI in H1. rewrite app_nil_r. exists "package"%string.
        split; [simpl; auto 10|done].
    - intros (d & Hin & H).
      destruct Hin as [<-|[<-|[<-|[<-|[<-|[<-|[]]]]]]].
      + exists (litCI "src"). split; [by left|by apply lang_litCI].
      + exists (litCI "lib"). split; [right; by left|by apply lang_litCI].
      + exists (litCI "app"). split; [do 2 right; by left|by apply lang_litCI].
      + exists (Seq (litCI "package") (Opt (litCI "s"))). split; [do 3 right; by left|].
        cbn [lang]. exists q, []. split; [by rewrite app_nil_r|].
        split; [by apply lang_litCI|by right].
      + exists (Seq (litCI "package") (Opt (litCI "s"))). split; [do 3 right; by left|].
        cbn [lang]. unfold sameIgnoringCase, toLowerCase in H.
        assert (Hlen : length q = 8%nat).
        { apply (f_equal (@length N)) in H. by rewrite !length_map in H. }
        exists (take 7 q), (drop 7 q). split; [by rewrite take_drop|].
        rewrite <- (take_drop 7 q), List.map_app in H.
        change (List.map lowerUnit (js "packages"))
          with (List.map lowerUnit (js "package") ++ List.map lowerUnit (js "s")) in H.
        apply app_inj_1 in H as [H1 H2];
          [|rewrite !length_map, length_take, Hlen; reflexivity].
        split; [by apply lang_litCI|left; by apply lang_litCI].
      + exists (litCI "cmd"). split; [do 4 right; by left|by apply lang_litCI]. }
  generalize Hdirs.
  generalize (alts [litCI "src"; litCI "lib"; litCI "app";
                    Seq (litCI "package") (Opt (litCI "s")); litCI "cmd"]).
  clear Hdirs. intros dirs Hdirs. split.
  - intros (q & tail & -> & H). cbn [lang] in H.
    destruct H as (q1 & q2 & -> & (s1 & -> & Hs1) & dir & q3 & -> & Hdir
                   & (s2 & -> & Hs2)).
    apply Hdirs in Hdir as (d & Hd & Hsame).
    exists s1, dir, s2, tail, d. repeat split; trivial.
    simpl. by rewrite <- app_assoc.
  - intros (s1 & dir & s2 & tail & d & -> & Hs1 & Hs2 & Hd & Hsame).
    exists (s1 :: dir ++ [s2]), tail.
    split; [simpl; by rewrite <- app_assoc|].
    cbn [lang]. exists [s1], (dir ++ [s2]). split; [done|]. split; [by exists s1|].
    exists dir, [s2]. split; [done|]. split; [|by exists s2].
    apply Hdirs. by exists d.
Qed.

Lemma find_map {A B} (f : B -> bool) (g : A -> B) (l : list A) :
  List.find f (List.map g l) = g <$> List.find (fun a => f (g a)) l.
Proof. induction l as [|a l IH]; simpl; [done|]. by destruct (f (g a)). Qed.

Lemma find_same {A} (f g : A -> bool) (l : list A) :
  (forall a, f a = g a) -> List.find f l = List.find g l.
Proof.
  intros H. induction l as [|a l IH]; simpl; [done|]. by rewrite H, IH.
Qed.

Lemma repClass_find (p : N -> bool) : forall s (ok : nat -> jsstring -> bool),
  match List.find (fun e => ok (fst e) (snd e)) (repClass p s) with
  | Some e =>
      ok (fst e) (snd e) = true
      /\ (exists q, s = q ++ snd e /\ length q = fst e
                    /\ Forall (fun c => p c = true) q)
      /\ forall q' r', s = q' ++ r' -> Forall (fun c => p c = true) q' ->
           ok (length q') r' = true -> (length q' <= fst e)%nat
  | None =>
      forall q' r', s = q' ++ r' -> Forall (fun c => p c = true) q' ->
        ok (length q') r' = false
  end.
Proof.
  assert (Hlast : forall s (ok : nat -> jsstring -> bool),
    (forall q' r', s = q' ++ r' -> Forall (fun c => p c = true) q' -> q' <> [] ->
       ok (length q') r' = false) ->
    match List.find (fun e => ok (fst e) (snd e)) [(O, s)] with
    | Some e =>
        ok (fst e) (snd e) = true
        /\ (exists q, s = q ++ snd e /\ length q = fst e
                      /\ Forall (fun c => p c = true) q)
        /\ forall q' r', s = q' ++ r' -> Forall (fun c => p c = true) q' ->
             ok (length q') r' = true -> (length q' <= fst e)%nat
    | None =>
        forall q' r', s = q' ++ r' -> Forall (fun c => p c = true) q' ->
          ok (length q') r' = false
    end).
  { intros s ok Hlonger. simpl. destruct (ok O s) eqn:H0.
    - split; [done|]. split; [by exists []|]. intros q' r' Hs Hq Hok.
      destruct q' as [|x q']; [simpl; lia|].
      rewrite (Hlonger _ _ Hs Hq) in Hok; [discriminate|done].
    - intros q' r' Hs Hq. destruct q' as [|x q']; [by simpl in Hs; subst r'|].
      by apply Hlonger. }
  induction s as [|c s IH]; intros ok.
  - apply Hlast. intros q' r' Hs _ Hne. destruct q'; [done|discriminate].
  - cbn [repClass]. destruct (p c) eqn:Hc.
    + rewrite find_app, find_map.
      rewrite (find_same _ (fun e => ok (S (fst e)) (snd e)))
        by (by intros [k r]).
      specialize (IH (fun k r => ok (S k) r)). cbv beta in IH.
      destruct (List.find _ (repClass p s)) as [[k r]|] eqn:Hfind; simpl.
      * cbn [fst snd] in IH. destruct IH as (Hok & (q & -> & <- & Hq) & Hmax).
        split; [done|]. split; [exists (c :: q); split; [reflexivity|split; [reflexivity|by constructor]]|].
        intros q' r' Hs Hq' Hok'. destruct q' as [|x q']; [simpl; lia|].
        simpl in Hs. injection Hs as <- Hs. inversion Hq'; subst. simpl.
        apply le_n_S. by apply (Hmax q' r').
      * apply Hlast. intros q' r' Hs Hq' Hne. destruct q' as [|x q']; [done|].
        simpl in Hs. injection Hs as <- Hs. inversion Hq'; subst. simpl.
        by apply IH.
    + apply Hlast. intros q' r' Hs Hq' Hne. destruct q' as [|x q']; [done|].
      simpl in Hs. injection Hs as <- Hs. inversion Hq'; subst. congruence.
Qed.

Lemma head_flat_map_if {A B} (t : A -> bool) (h : A -> B) (l : list A) :
  head (flat_map (fun a => if t a then [h a] else []) l) = h <$> List.find t l.
Proof. induction l as [|a l IH]; simpl; [done|]. by destruct (t a). Qed.

Lemma find_filter {A} (f t : A -> bool) (l : list A) :
  List.find t (List.filter f l) = List.find (fun a => f a && t a) l.
Proof.
  induction l as [|a l IH]; simpl; [done|]. destruct (f a); simpl; [|done].
  by destruct (t a).
Qed.

Lemma take_group (g r : jsstring) : take (length (g ++ r) - length r) (g ++ r) = g.
Proof.
  replace (length (g ++ r) - length r)%nat with (length g)
    by (rewrite length_app; lia).
  apply take_app_length.
Qed.

Lemma firstOccurrence_iff (occ1 occ2 : jsstring -> jsstring -> jsstring -> Prop)
    (text : jsstring) (found : option jsstring) :
  (forall before g rest, occ1 before g rest <-> occ2 before g rest) ->
  firstOccurrence occ1 text found -> firstOccurrence occ2 text found.
Proof.
  intros Hiff. destruct found as [g|]; simpl.
  - intros (before & rest & Htext & Hocc & Hfirst). exists before, rest.
    split; [done|]. split; [by apply Hiff|].
    intros before' g' rest' Htext' Hocc'. apply (Hfirst _ _ _ Htext').
    by apply Hiff.
  - intros Hnone before g rest Htext Hocc. apply (Hnone _ _ _ Htext).
    by apply Hiff.
Qed.

Section NamePatterns.
Variables (cls : N -> bool) (post0 : re) (tail : jsstring -> Prop).
Hypothesis post_tail : forall r, testAtStart post0 r = true <-> tail r.

Lemma bare_start (s : jsstring) :
  match captureAtStart
          {| pre := Eps; grp := Seq (Cls wordChar) (Rep cls 2); post := post0 |} s with
  | Some g =>
      exists rest,
        s = g ++ rest /\ nameOf cls g /\ tail rest
        /\ forall g' rest', s = g' ++ rest' -> nameOf cls g' -> tail rest' ->
             (length g' <= length g)%nat
  | None => forall g' rest', s = g' ++ rest' -> nameOf cls g' -> ~ tail rest'
  end.
Proof.
  unfold captureAtStart. cbn [pre grp post matches flat_map]. rewrite app_nil_r.
  destruct s as [|x s'].
  { simpl. intros g' rest' Hs (x & q & -> & _). discriminate. }
  destruct (wordChar x) eqn:Hx.
  2:{ simpl. intros g' rest' Hs (x' & q & -> & Hx' & _).
      injection Hs as <- _. congruence. }
  cbn [flat_map]. rewrite app_nil_r.
  rewrite (head_flat_map_if (testAtStart post0)
             (fun s2 => take (length (x :: s') - length s2) (x :: s'))).
  rewrite find_map, find_filter.
  rewrite (find_same _ (fun e => (fun k r => (2 <=? k)%nat && testAtStart post0 r)
                                   (fst e) (snd e)))
    by (by intros [k r]).
  pose proof (repClass_find cls s'
                (fun k r => (2 <=? k)%nat && testAtStart post0 r)) as Hfind.
  destruct (List.find _ (repClass cls s')) as [[k r]|]; cbn [fst snd fmap option_fmap option_map] in *.
  - destruct Hfind as (Hok & (q & -> & <- & Hq) & Hmax).
    apply andb_true_iff in Hok as [Hlen Hpost]. apply Nat.leb_le in Hlen.
    change (x :: q ++ r) with ((x :: q) ++ r). rewrite take_group.
    exists r. split; [done|]. split; [by exists x, q|]. split; [by apply post_tail|].
    intros g' rest' Hs (x' & q' & -> & _ & Hq' & Hlen') Htail.
    injection Hs as <- Hs. simpl. apply le_n_S, (Hmax q' rest' Hs Hq').
    apply andb_true_iff. split; [by apply Nat.leb_le|by apply post_tail].
  - intros g' rest' Hs (x' & q' & -> & _ & Hq' & Hlen') Htail.
    injection Hs as <- Hs. specialize (Hfind q' rest' Hs Hq').
    apply andb_false_iff in Hfind as [Hlen|Hpost].
    + apply Nat.leb_gt in Hlen. lia.
    + apply post_tail in Htail. congruence.
Qed.

Lemma led_start (lead : N -> bool) (s : jsstring) :
  captureAtStart
    {| pre := Cls lead; grp := Seq (Cls wordChar) (Rep cls 2); post := post0 |} s
  = match s with
    | sl :: s1 =>
        if lead sl
        then captureAtStart
               {| pre := Eps; grp := Seq (Cls wordChar) (Rep cls 2); post := post0 |} s1
        else None
    | [] => None
    end.
Proof.
  unfold captureAtStart. cbn [pre grp post]. destruct s as [|sl s1]; [done|].
  cbn [matches]. by destruct (lead sl).
Qed.

End NamePatterns.

Lemma capture_leftmost (pt : pattern)
    (occ : jsstring -> jsstring -> jsstring -> Prop) (n : nat) :
  (forall lead g rest, occ lead g rest -> length lead = n) ->
  (forall s,
     match captureAtStart pt s with
     | Some g =>
         exists lead rest,
           s = lead ++ g ++ rest /\ occ lead g rest
           /\ forall lead' g' rest', s = lead' ++ g' ++ rest' -> occ lead' g' rest' ->
                (length g' <= length g)%nat
     | None => forall lead g rest, s = lead ++ g ++ rest -> ~ occ lead g rest
     end) ->
  forall s,
    firstOccurrence
      (fun before g rest => exists b lead, before = b ++ lead /\ occ lead g rest)
      s (capture pt s).
Proof.
  intros Hn Hstart. induction s as [|x s IH].
  - simpl. pose proof (Hstart []) as H0.
    destruct (captureAtStart pt []) as [g|].
    + destruct H0 as (lead & rest & Hs & Hocc & Hmax). simpl.
      exists lead, rest. split; [done|]. split; [by exists [], lead|].
      intros before' g' rest' Hs' (b' & lead' & -> & Hocc').
      pose proof (Hn _ _ _ Hocc). pose proof (Hn _ _ _ Hocc').
      destruct b' as [|y b'].
      * right. cbn [app]. split; [lia|]. by apply (Hmax lead' g' rest').
      * left. cbn [app length]. rewrite length_app. lia.
    + simpl. intros before g rest Hs (b & lead & -> & Hocc).
      destruct b as [|y b]; [by apply (H0 lead g rest)|discriminate].
  - cbn [capture]. pose proof (Hstart (x :: s)) as H0.
    destruct (captureAtStart pt (x :: s)) as [g|].
    + destruct H0 as (lead & rest & Hs & Hocc & Hmax). simpl.
      exists lead, rest. split; [done|]. split; [by exists [], lead|].
      intros before' g' rest' Hs' (b' & lead' & -> & Hocc').
      pose proof (Hn _ _ _ Hocc). pose proof (Hn _ _ _ Hocc').
      destruct b' as [|y b'].
      * right. cbn [app]. split; [lia|]. by apply (Hmax lead' g' rest').
      * left. cbn [app length]. rewrite length_app. lia.
    + destruct (capture pt s) as [g|]; simpl in *.
      * destruct IH as (before & rest & -> & (b & lead & -> & Hocc) & Hfirst).
        exists (x :: b ++ lead), rest. split; [done|].
        split; [by exists (x :: b), lead|].
        intros before' g' rest' Hs' (b' & lead' & -> & Hocc').
        destruct b' as [|y b'].
        { destruct (H0 lead' g' rest' Hs' Hocc'). }
        simpl in Hs'. injection Hs' as <- Hs'.
        destruct (Hfirst (b' ++ lead') g' rest' Hs') as [Hlt|[Heq Hle]].
        { by exists b', lead'. }
        { left. simpl. lia. }
        { right. simpl. split; [lia|done]. }
      * intros before g rest Hs (b & lead & -> & Hocc).
        destruct b as [|y b]; [by apply (H0 lead g rest)|].
        simpl in Hs. injection Hs as <- Hs.
        apply (IH (b ++ lead) g rest Hs). by exists b, lead.
Qed.

Lemma capture_title (text : jsstring) :
  firstOccurrence titleBarName text (capture titlePattern text).
Proof.
  apply (firstOccurrence_iff
           (fun before g rest =>
              exists b lead, before = b ++ lead
                /\ (lead = [] /\ nameOf nameClass g /\ editorTail rest))).
  { intros before g rest. unfold titleBarName. split.
    - by intros (b & lead & _ & _ & H).
    - intros H. exists before, []. by rewrite app_nil_r. }
  apply (capture_leftmost titlePattern
           (fun lead g rest => lead = [] /\ nameOf nameClass g /\ editorTail rest) 0).
  { by intros lead g rest [-> _]. }
  intros s. pose proof (bare_start nameClass (post titlePattern) editorTail
                          title_post_tail s) as H.
  change {| pre := Eps; grp := Seq (Cls wordChar) (Rep nameClass 2);
            post := post titlePattern |} with titlePattern in H.
  destruct (captureAtStart titlePattern s) as [g|].
  - destruct H as (rest & -> & Hname & Htail & Hmax). exists [], rest.
    split; [done|]. split; [done|].
    intros lead' g' rest' Hs (-> & Hname' & Htail'). by apply (Hmax g' rest').
  - intros lead g rest Hs (-> & Hname & Htail). by apply (H g rest).
Qed.

Lemma capture_path (text : jsstring) :
  firstOccurrence pathSegmentName text (capture pathPattern text).
Proof.
  apply (firstOccurrence_iff
           (fun before g rest =>
              exists b lead, before = b ++ lead
                /\ ((exists sl, lead = [sl] /\ slashClass sl = true)
                    /\ nameOf segmentClass g /\ sourceDirTail rest))).
  { intros before g rest. unfold pathSegmentName. split.
    - intros (b & lead & -> & (sl & -> & Hsl) & H). split; [by exists b, sl|done].
    - intros [(b & sl & -> & Hsl) H]. exists b, [sl]. split; [done|].
      split; [by exists sl|done]. }
  apply (capture_leftmost pathPattern
           (fun lead g rest => (exists sl, lead = [sl] /\ slashClass sl = true)
                               /\ nameOf segmentClass g /\ sourceDirTail rest) 1).
  { by intros lead g rest [(sl & -> & _) _]. }
  intros s.
  change pathPattern
    with {| pre := Cls slashClass; grp := Seq (Cls wordChar) (Rep segmentClass 2);
            post := post pathPattern |}.
  rewrite led_start. destruct s as [|sl s1].
  { intros lead g rest Hs [(sl & -> & _) _]. discriminate. }
  destruct (slashClass sl) eqn:Hsl.
  2:{ intros lead g rest Hs [(sl' & -> & Hsl') _]. injection Hs as <- _. congruence. }
  pose proof (bare_start segmentClass (post pathPattern) sourceDirTail
                path_post_tail s1) as H.
  destruct (captureAtStart _ s1) as [g|].
  - destruct H as (rest & -> & Hname & Htail & Hmax). exists [sl], rest.
    split; [done|]. split; [split; [by exists sl|done]|].
    intros lead' g' rest' Hs ((sl' & -> & _) & Hname' & Htail').
    injection Hs as _ Hs. by apply (Hmax g' rest').
  - intros lead g rest Hs ((sl' & -> & _) & Hname & Htail).
    injection Hs as _ Hs. by apply (H g rest).
Qed.

Lemma test_somewhere r : forall s,
  test r s = true
  <-> exists before after, s = before ++ after /\ testAtStart r after = true.
Proof.
  induction s as [|x s IH]; simpl.
  - rewrite orb_false_r. split.
    + intros H. by exists [], [].
    + intros (before & after & Hs & H). symmetry in Hs.
      apply app_eq_nil in Hs as [-> ->]. done.
  - rewrite orb_true_iff, IH. split.
    + intros [H|(before & after & -> & H)]; [by exists [], (x :: s)|].
      by exists (x :: before), after.
    + intros (before & after & Hs & H). destruct before as [|y before].
      * left. simpl in Hs. by subst after.
      * right. injection Hs as <- ->. by exists before, after.
Qed.

Lemma oneOf_dot (c : N) : oneOf "." c = true <-> c = 46%N.
Proof.
  unfold oneOf. simpl. rewrite orb_false_r. apply N.eqb_eq.
Qed.

Lemma domainSuffix_like (lower : jsstring) :
  test domainSuffix lower = true <-> domainLike lower.
Proof.
  rewrite test_somewhere. unfold domainLike.
  change domainSuffix
    with (Seq (Cls (oneOf ".")) (Seq (alts (List.map litCI DOMAIN_SUFFIXES)) Eol)).
  generalize (lang_alts_litCI DOMAIN_SUFFIXES).
  generalize (alts (List.map litCI DOMAIN_SUFFIXES)). intros tlds Htlds. split.
  - intros (stem & after & -> & H). apply testAtStart_lang in H as (q & s' & -> & H).
    cbn [lang] in H.
    destruct H as (q1 & q2 & -> & (c & -> & Hc) & tld & q4 & -> & Htld & -> & ->).
    apply oneOf_dot in Hc as ->. apply Htlds in Htld as (e & He & Hsame).
    exists stem, tld, e. by rewrite !app_nil_r.
  - intros (stem & tld & e & -> & He & Hsame). exists stem, (46%N :: tld).
    split; [done|]. apply testAtStart_lang. exists (46%N :: tld), [].
    split; [by rewrite app_nil_r|]. cbn [lang].
    exists [46%N], tld. split; [done|]. split; [exists 46%N; by split|].
    exists tld, []. split; [by rewrite app_nil_r|]. split; [|done].
    apply Htlds. by exists e.
Qed.

Lemma urlPrefix_like (lower : jsstring) :
  testAtStart urlPrefix lower = true <-> urlLike lower.
Proof.
  rewrite testAtStart_lang. unfold urlLike.
  change urlPrefix
    with (Seq (alts (List.map litCI URL_PREFIXES)) (Cls (oneOf "."))).
  generalize (lang_alts_litCI URL_PREFIXES).
  generalize (alts (List.map litCI URL_PREFIXES)). intros prefixes Hprefixes. split.
  - intros (q & rest & -> & H). cbn [lang] in H.
    destruct H as (p & q2 & -> & Hp & c & -> & Hc).
    apply oneOf_dot in Hc as ->. apply Hprefixes in Hp as (e & He & Hsame).
    exists p, rest, e. by rewrite <- app_assoc.
  - intros (p & rest & e & -> & He & Hsame). exists (p ++ [46%N]), rest.
    split; [by rewrite <- app_assoc|]. cbn [lang].
    exists p, [46%N]. split; [done|]. split; [apply Hprefixes; by exists e|].
    exists 46%N. by split.
Qed.

Lemma lowerWord_single (lower : jsstring) :
  testAtStart lowerWord lower = true <-> singleWord lower.
Proof.
  rewrite testAtStart_lang. unfold singleWord, lowerWord. cbn [lang]. split.
  - intros (q & s' & -> & q1 & q2 & -> & [Hq Hlen] & -> & ->).
    rewrite !app_nil_r. split; [|done]. intros ->. simpl in Hlen. lia.
  - intros [Hne Hq]. exists lower, []. split; [by rewrite app_nil_r|].
    exists lower, []. split; [by rewrite app_nil_r|]. split; [|done].
    split; [done|]. destruct lower; [done|simpl; lia].
Qed.

Lemma isValidProject_valid (name : jsstring) :
  isValidProject name = true <-> validName name.
Proof.
  rewrite isValidProject_passes. unfold passesFilter, validName. cbv zeta.
  rewrite <- domainSuffix_like, <- urlPrefix_like, <- lowerWord_single.
  rewrite !not_true_iff_false. tauto.
Qed.


Lemma firstOccurrence_unique (occ : jsstring -> jsstring -> jsstring -> Prop)
    (text : jsstring) (f1 f2 : option jsstring) :
  firstOccurrence occ text f1 -> firstOccurrence occ text f2 -> f1 = f2.
Proof.
  destruct f1 as [g1|], f2 as [g2|]; simpl.
  - intros (b1 & r1 & Ht1 & Ho1 & Hf1) (b2 & r2 & Ht2 & Ho2 & Hf2).
    destruct (Hf1 _ _ _ Ht2 Ho2) as [H12|[Hb12 Hg12]];
      destruct (Hf2 _ _ _ Ht1 Ho1) as [H21|[Hb21 Hg21]]; try lia.
    rewrite Ht1 in Ht2. apply app_inj_1 in Ht2 as [_ Ht2]; [|lia].
    apply app_inj_1 in Ht2 as [-> _]; [done|lia].
  - intros (b1 & r1 & Ht1 & Ho1 & _) Hnone. destruct (Hnone _ _ _ Ht1 Ho1).
  - intros Hnone (b2 & r2 & Ht2 & Ho2 & _). destruct (Hnone _ _ _ Ht2 Ho2).
  - done.
Qed.

Lemma candidatesOf_code (text : jsstring) :
  candidatesOf text
    (option_list (titleCandidate text) ++ option_list (pathCandidate text)).
Proof.
  exists (capture titlePattern text), (capture pathPattern text).
  split; [apply capture_title|]. split; [apply capture_path|done].
Qed.

Lemma candidatesOf_unique (text : jsstring) (cs1 cs2 : list jsstring) :
  candidatesOf text cs1 -> candidatesOf text cs2 -> cs1 = cs2.
Proof.
  intros (t1 & p1 & Ht1 & Hp1 & ->) (t2 & p2 & Ht2 & Hp2 & ->).
  by rewrite (firstOccurrence_unique _ _ _ _ Ht1 Ht2),
             (firstOccurrence_unique _ _ _ _ Hp1 Hp2).
Qed.

(** C8 (amended). [inferProject] returns the first candidate, in scanning
    order, that passes the validity filter, and no project when no
    candidate passes it.  Each text has at most two candidates, and they are
    determined by the text: the name in front of its first IDE title bar
    ([<name> - <EditorName>]: the occurrence that starts leftmost, with the
    longest name there), trimmed, and then the segment of its first file
    path that immediately precedes a [src], [lib], [app], [package(s)] or
    [cmd] directory.  Later title bars and paths of the same text are not
    considered.  The filter accepts the names of 3 to 50 code units whose
    lower-casing is not domain-like, not URL-like, not a rejected folder
    name and not a single generic word. *)
Theorem inferProject_first_valid_candidate (sceneTexts : list jsstring) :
  (forall name, isValidProject name = true <-> validName name)
  /\ exists css,
       Forall2 candidatesOf sceneTexts css
       /\ (forall css', Forall2 candidatesOf sceneTexts css' -> css' = css)
       /\ inferProject sceneTexts = List.find isValidProject (concat css)
       /\ (inferProject sceneTexts = None
           <-> forall c, In c (concat css) -> ~ validName c)
       /\ (forall p, inferProject sceneTexts = Some p ->
             validName p /\ In p (concat css)).
Proof.
  split; [apply isValidProject_valid|].
  exists (List.map (fun text => option_list (titleCandidate text)
                                ++ option_list (pathCandidate text)) sceneTexts).
  assert (Hfind : inferProject sceneTexts
                  = List.find isValidProject
                      (concat (List.map (fun text => option_list (titleCandidate text)
                                  ++ option_list (pathCandidate text)) sceneTexts))).
  { induction sceneTexts as [|text rest IH]; simpl; [reflexivity|].
    by rewrite find_app, <- inferProjectIn_find, IH. }
  split; [|split; [|split; [exact Hfind|split]]].
  - induction sceneTexts as [|text rest IH]; simpl; constructor.
    + apply candidatesOf_code.
    + apply IH. 
      clear. induction rest as [|text rest IH]; simpl; [reflexivity|].
      by rewrite find_app, <- inferProjectIn_find, IH.
  - clear Hfind. induction sceneTexts as [|text rest IH]; intros css' Hcss';
      inversion Hcss' as [|? cs ? css'' Hcs Hrest]; subst; simpl; [done|].
    f_equal; [|by apply IH].
    apply (candidatesOf_unique text); [done|apply candidatesOf_code].
  - rewrite Hfind. split.
    + intros Hnone c Hin Hvalid. apply isValidProject_valid in Hvalid.
      pose proof (find_none _ _ Hnone c Hin). congruence.
    + intros Hall. destruct (List.find _ _) as [p|] eqn:Hf; [|reflexivity].
      apply find_some in Hf as [Hin Hv]. apply isValidProject_valid in Hv.
      by destruct (Hall p Hin).
  - intros p Hp. rewrite Hfind in Hp. apply find_some in Hp as [Hin Hv].
    split; [by apply isValidProject_valid|exact Hin].
Qed.

Example inferProject_title :
  inferProject [js "focusd - VS Code | editing event-ingestion.ts"]
  = Some (js "focusd").
Proof. vm_compute. reflexivity. Qed.

Example inferProject_path :
  inferProject [js "Terminal | running tests"; js "open /Users/dev/my_tracker/src/main.ts"]
  = Some (js "my_tracker").
Proof. vm_compute. reflexivity. Qed.

Example inferProject_rejects :
  inferProject [js "github.com - Cursor"; js "/home/src/file.ts"; js "coding - Xcode"]
  = None.
Proof. vm_compute. reflexivity. Qed.

Lemma inferProject_first_valid_candidate_witness :
  let texts := [js "github.com - Cursor | my_tracker - VS Code";
                js "open /Users/dev/my_tracker/src/main.ts"] in
  inferProject texts = Some (js "my_tracker")
  /\ validName (js "my_tracker")
  /\ exists css, Forall2 candidatesOf texts css /\ In (js "my_tracker") (concat css).
Proof.
  intros texts.
  destruct (inferProject_first_valid_candidate texts)
    as (_ & css & Hspec & _ & _ & _ & Hsome).
  assert (Hrun : inferProject texts = Some (js "my_tracker"))
    by (vm_compute; reflexivity).
  destruct (Hsome _ Hrun) as [Hvalid Hin].
  split; [exact Hrun|]. split; [exact Hvalid|]. by exists css.
Defined.

(** A text can hold a valid candidate and yield no project: in
    [github.com - Cursor | my_tracker - VS Code] the first title bar proposes
    [github.com], which the filter rejects, and the second is not looked
    at. *)
Lemma later_title_bar_is_ignored : ~ findsEveryCandidate.
Proof.
  intros H.
  apply (H [js "github.com - Cursor | my_tracker - VS Code"]
           (js "github.com - Cursor | my_tracker - VS Code") (js "my_tracker")).
  - by left.
  - left. exists (js "github.com - Cursor | "), (js "my_tracker"), (js " - VS Code").
    split; [reflexivity|]. split; [|reflexivity]. split.
    + exists 109%N, (js "y_tracker"). split; [reflexivity|]. split; [reflexivity|].
      split; [|simpl; lia]. repeat constructor.
    + exists [32%N], 45%N, [32%N], (js "VS Code"), [], "VS Code"%string.
      split; [reflexivity|]. split; [by repeat constructor|]. split; [reflexivity|].
      split; [by repeat constructor|]. split; [by left|reflexivity].
  - apply isValidProject_valid. vm_compute. reflexivity.
  - vm_compute. reflexivity.
Qed.

End ClassifierFacts.

(* ===================================================================== *)
(** ** Properties of the summarizer *)
(* ===================================================================== *)

Module SummarizerFacts.
Import JS Regex Summarizer.

Definition sumZ (l : list Z) : Z := fold_right Z.add 0 l.

(** The app a segment is attributed to: [s.primaryApp || 'Unknown']. *)
Definition appOf (s : ActivitySegment) : jsstring :=
  orDefault (primaryApp s) (js "Unknown").

(** The seconds of the segments attributed to [app]. *)
Definition segmentSecondsOf (app : jsstring) (segs : list ActivitySegment) : Z :=
  sumZ (List.map (fun s => endTime s - startTime s)
          (List.filter (fun s => bool_decide (appOf s = app)) segs)).

(** The entries of the breakdowns of the micro-summaries, one after the
    other. *)
Definition breakdownEntries (ms : list MicroSummary) : list (jsstring * DictValue) :=
  flat_map (fun m => map_to_list (m_appBreakdown m)) ms.

(** The seconds of the entries of the breakdowns whose name is [app] once
    its suffix is stripped. *)
Definition breakdownSecondsOf (app : jsstring) (ms : list MicroSummary) : Z :=
  sumZ (List.map (fun e => numberOr0 (snd e))
          (List.filter (fun e => bool_decide (normalizeApp (fst e) = app))
                       (breakdownEntries ms))).

(** A key that names no property of [Object.prototype]. *)
Definition ordinaryKey (k : jsstring) : bool :=
  negb (bool_decide (k ∈ INHERITED_KEYS)).

(** The domain suffixes [normalizeApp] strips. *)
Definition APP_SUFFIXES : list string := [".com"; ".org"; ".io"; ".dev"]%string.

(** [app] is [stem] followed by one of the suffixes, in any case. *)
Definition hasSuffix (app stem : jsstring) : Prop :=
  exists tld e,
    app = stem ++ tld /\ In e APP_SUFFIXES /\ ClassifierFacts.sameIgnoringCase tld e.

(** [name] is [app] without its domain suffix: [app] itself when it ends in
    none. *)
Definition withoutSuffix (app name : jsstring) : Prop :=
  hasSuffix app name \/ (name = app /\ forall stem, ~ hasSuffix app stem).

(** The module state that outlives an operation: the store, the two
    watermarks and the two counters. *)
Definition samePersistent (w w' : World) : Prop :=
  store w' = store w
  /\ lastMicroTime w' = lastMicroTime w
  /\ lastSessionSummaryTime w' = lastSessionSummaryTime w
  /\ microCount w' = microCount w
  /\ sessionCount w' = sessionCount w
  /\ activeSessionId w' = activeSessionId w
  /\ llm w' = llm w.

(** The completion call issued next throws, or the decoding of what it
    returns does. *)
Definition nextCallOrDecodeThrows (E : Env) (w : World) : Prop :=
  (exists err, api E (apiCalls w) = Rejected err)
  \/ (exists content, api E (apiCalls w) = Completed content /\ decode E content = None).

Definition PRODUCTIVITY_LABELS : list json :=
  [JStr (js "productive"); JStr (js "neutral"); JStr (js "distracted")].

Lemma fold_left_flat_map {A B C} (g : C -> B -> C) (h : A -> list B) (l : list A) :
  forall acc,
    fold_left (fun acc a => fold_left g (h a) acc) l acc
    = fold_left g (flat_map h l) acc.
Proof.
  induction l as [|a l IH]; intros acc; simpl; [reflexivity|].
  by rewrite IH, fold_left_app.
Qed.

Example normalizeApp_examples :
  normalizeApp (js "github.com") = js "github"
  /\ normalizeApp (js "Linear.APP") = js "Linear.APP"
  /\ normalizeApp (js "Fly.IO") = js "Fly"
  /\ normalizeApp (js "docs.dev.org") = js "docs.dev"
  /\ normalizeApp (js "VS Code") = js "VS Code".
Proof. vm_compute. repeat split. Qed.

Example fmtDuration_examples :
  fmtDuration 45 = js "45s" /\ fmtDuration 120 = js "2m"
  /\ fmtDuration 135 = js "2m 15s".
Proof. vm_compute. repeat split. Qed.

Example stripCodeFences_example :
  stripCodeFences (js "```json
{}
```  ") = js "{}".
Proof. vm_compute. reflexivity. Qed.

Ltac run :=
  repeat (first
    [ progress simplify_eq/=
    | case_match ]).

Lemma storeMicro_rows session now segs parsed w r w' :
  storeMicro session now segs parsed w = (r, w') ->
  apiCalls w' = apiCalls w /\
  ((r = None /\ samePersistent w w')
  \/ exists row,
       micros (store w') = micros (store w) ++ [row]
       /\ m_appBreakdown row = computeAppBreakdown segs
       /\ (exists v, getProp parsed (js "productivity_label") = inr v
            /\ m_productivityLabel row = orElse v (JStr (js "neutral")))
       /\ lastMicroTime w' = now
       /\ sessions (store w') = sessions (store w)
       /\ dailies (store w') = dailies (store w)
       /\ deepDives (store w') = deepDives (store w)
       /\ rawEvents (store w') = rawEvents (store w)
       /\ lastSessionSummaryTime w' = lastSessionSummaryTime w
       /\ forall m, r = Some m ->
            m_appBreakdown m = m_appBreakdown row
            /\ m_productivityLabel m = m_productivityLabel row
            /\ m_summary m = m_summary row).
Proof.
  unfold storeMicro. intros H.
  destruct parsed; simpl in H;
    [split; [by simplify_eq|]; left; simplify_eq; by repeat split |..].
  all: run; (split; [reflexivity|]); right; eexists; (split; [reflexivity|]); (split; [reflexivity|]);
    (split; [eexists; split; reflexivity|]);
    repeat (split; [reflexivity|]); intros m Hm; simplify_eq; try done.
Qed.

Lemma samePersistent_refl w : samePersistent w w.
Proof. by repeat split. Qed.

Lemma callApi_persistent E w : samePersistent w (snd (callApi E w)).
Proof. by repeat split. Qed.

(** What a run of [generateMicroSummary] comes to: it returns before the
    completion call; or it issues the call and stores nothing; or it issues
    the call and appends one row. *)
Lemma generateMicroSummary_cases E w r w' :
  generateMicroSummary E w = (r, w') ->
  (r = None /\ w' = w)
  \/ exists session,
       activeSessionId w = Some session
       /\ llm w = true
       /\ getUnprocessedSegmentsForMicro (store w) session (lastMicroTime w) <> []
       /\ apiCalls w' = S (apiCalls w)
       /\ ((r = None /\ samePersistent w w')
           \/ exists content parsed row,
                api E (apiCalls w) = Completed content
                /\ decode E content = Some parsed
                /\ micros (store w') = micros (store w) ++ [row]
                /\ m_appBreakdown row
                   = computeAppBreakdown
                       (getUnprocessedSegmentsForMicro (store w) session (lastMicroTime w))
                /\ (exists v, getProp parsed (js "productivity_label") = inr v
                     /\ m_productivityLabel row = orElse v (JStr (js "neutral")))
                /\ lastMicroTime w' = clock w
                /\ sessions (store w') = sessions (store w)
                /\ dailies (store w') = dailies (store w)
                /\ deepDives (store w') = deepDives (store w)
                /\ rawEvents (store w') = rawEvents (store w)
                /\ lastSessionSummaryTime w' = lastSessionSummaryTime w
                /\ forall m, r = Some m ->
                     m_appBreakdown m = m_appBreakdown row
                     /\ m_productivityLabel m = m_productivityLabel row
                     /\ m_summary m = m_summary row).
Proof.
  unfold generateMicroSummary. intros H.
  destruct (llm w) eqn:Hllm; simpl in H; [|left; by simplify_eq].
  destruct (activeSessionId w) as [session|] eqn:Hs; [|left; by simplify_eq].
  destruct (nonEmpty session); simpl in H; [|left; by simplify_eq].
  destruct (getUnprocessedSegmentsForMicro (store w) session (lastMicroTime w))
    as [|s0 segs] eqn:Hsegs; [left; by simplify_eq|].
  right. exists session. split; [reflexivity|]. split; [reflexivity|].
  rewrite Hsegs. split; [done|].
  destruct (api E (apiCalls w)) as [err|content] eqn:Hapi.
  { simplify_eq. split; [reflexivity|]. left.
    split; [reflexivity|]. unfold samePersistent; simpl; repeat split; congruence. }
  destruct (decode E content) as [parsed|] eqn:Hdec.
  2:{ simplify_eq. split; [reflexivity|]. left.
      split; [reflexivity|]. unfold samePersistent; simpl; repeat split; congruence. }
  apply storeMicro_rows in H
    as [Hcalls [[-> Hsame]|(row & H1 & H2 & H3 & H4 & H5 & H6 & H7 & H8 & H9 & H10)]];
    simpl in Hcalls; (split; [exact Hcalls|]).
  - left. split; [reflexivity|]. unfold samePersistent in *; simpl in *.
    destruct Hsame as (? & ? & ? & ? & ? & ? & ?). repeat split; congruence.
  - right. exists content, parsed, row. simpl in *. repeat (split; [done|]). done.
Qed.

Lemma storeSession_rows E session now ms parsed w r w' :
  storeSession E session now ms parsed w = (r, w') ->
  apiCalls w' = apiCalls w /\
  ((r = None /\ samePersistent w w')
  \/ exists row,
       sessions (store w') = sessions (store w) ++ [row]
       /\ s_appStats row = computeAppStats ms
       /\ (exists v, getProp parsed (js "productivity_label") = inr v
            /\ s_productivityLabel row = orElse v (JStr (js "neutral")))
       /\ lastSessionSummaryTime w' = now
       /\ micros (store w') = micros (store w)
       /\ segments (store w') = segments (store w)
       /\ dailies (store w') = dailies (store w)
       /\ deepDives (store w') = deepDives (store w)
       /\ rawEvents (store w') = rawEvents (store w)
       /\ lastMicroTime w' = lastMicroTime w
       /\ forall s, r = Some s ->
            s_appStats s = s_appStats row
            /\ s_productivityLabel s = s_productivityLabel row
            /\ s_summary s = s_summary row).
Proof.
  unfold storeSession. intros H.
  destruct parsed; simpl in H;
    [split; [by simplify_eq|]; left; simplify_eq; by repeat split |..].
  all: run; (split; [reflexivity|]); right; eexists;
    (split; [reflexivity|]); (split; [reflexivity|]);
    (split; [eexists; split; reflexivity|]);
    repeat (split; [reflexivity|]); intros m Hm; simplify_eq; try done.
Qed.

Lemma generateSessionSummary_cases E w r w' :
  generateSessionSummary E w = (r, w') ->
  (r = None /\ w' = w)
  \/ exists session,
       activeSessionId w = Some session
       /\ llm w = true
       /\ getMicroSummaries E (store w) (lastSessionSummaryTime w) (clock w) <> []
       /\ apiCalls w' = S (apiCalls w)
       /\ ((r = None /\ samePersistent w w')
           \/ exists content parsed row,
                api E (apiCalls w) = Completed content
                /\ decode E content = Some parsed
                /\ sessions (store w') = sessions (store w) ++ [row]
                /\ s_appStats row
                   = computeAppStats
                       (getMicroSummaries E (store w) (lastSessionSummaryTime w) (clock w))
                /\ (exists v, getProp parsed (js "productivity_label") = inr v
                     /\ s_productivityLabel row = orElse v (JStr (js "neutral")))
                /\ lastSessionSummaryTime w' = clock w
                /\ micros (store w') = micros (store w)
                /\ segments (store w') = segments (store w)
                /\ dailies (store w') = dailies (store w)
                /\ deepDives (store w') = deepDives (store w)
                /\ rawEvents (store w') = rawEvents (store w)
                /\ lastMicroTime w' = lastMicroTime w
                /\ forall s, r = Some s ->
                     s_appStats s = s_appStats row
                     /\ s_productivityLabel s = s_productivityLabel row
                     /\ s_summary s = s_summary row).
Proof.
  unfold generateSessionSummary. intros H.
  destruct (llm w) eqn:Hllm; simpl in H; [|left; by simplify_eq].
  destruct (activeSessionId w) as [session|] eqn:Hs; [|left; by simplify_eq].
  destruct (nonEmpty session); simpl in H; [|left; by simplify_eq].
  destruct (getMicroSummaries E (store w) (lastSessionSummaryTime w) (clock w))
    as [|m0 ms] eqn:Hms; [left; by simplify_eq|].
  right. exists session. split; [reflexivity|]. split; [reflexivity|].
  split; [done|].
  destruct (api E (apiCalls w)) as [err|content] eqn:Hapi.
  { simplify_eq. split; [reflexivity|]. left.
    split; [reflexivity|]. unfold samePersistent; simpl; repeat split; congruence. }
  destruct (decode E content) as [parsed|] eqn:Hdec.
  2:{ simplify_eq. split; [reflexivity|]. left.
      split; [reflexivity|]. unfold samePersistent; simpl; repeat split; congruence. }
  apply storeSession_rows in H
    as [Hcalls [[-> Hsame]|(row & H1 & H2 & H3 & H4 & H5 & H6 & H7 & H8 & H9 & H10 & H11)]];
    simpl in Hcalls; (split; [exact Hcalls|]).
  - left. split; [reflexivity|]. unfold samePersistent in *; simpl in *.
    destruct Hsame as (? & ? & ? & ? & ? & ? & ?). repeat split; congruence.
  - right. exists content, parsed, row. simpl in *. repeat (split; [done|]). done.
Qed.

Lemma app_cons_not_nil_self {A} (l : list A) (x : A) : l ++ [x] <> l.
Proof.
  intros H. apply (f_equal (@length A)) in H. rewrite length_app in H. simpl in H. lia.
Qed.

(** C6. With no eligible segment for the active session,
    [generateMicroSummary] returns null and leaves the module state, the
    count of completion calls included, as it was; with no session summary
    for the date and no micro-summary within the day,
    [generateDailySummary] does the same. *)
Theorem empty_input_is_a_no_op (E : Env) (w : World) (date : jsstring) :
  ((forall session, activeSessionId w = Some session ->
      getUnprocessedSegmentsForMicro (store w) session (lastMicroTime w) = []) ->
   generateMicroSummary E w = (None, w))
  /\ (getSessionSummaries (store w) date = [] ->
      getMicroSummaries E (store w) (dayStartOf E date) (dayStartOf E date + 86400) = [] ->
      generateDailySummary E date w = (None, w)).
Proof.
  split.
  - intros Hnone. unfold generateMicroSummary.
    destruct (llm w); [|reflexivity]. simpl.
    destruct (activeSessionId w) as [session|]; [|reflexivity].
    rewrite (Hnone session eq_refl). by destruct (nonEmpty session).
  - intros Hs Hm. unfold generateDailySummary.
    destruct (llm w); [|reflexivity]. simpl. by rewrite Hs, Hm.
Qed.

Lemma generateMicroSummary_frame E w :
  let w' := snd (generateMicroSummary E w) in
  sessions (store w') = sessions (store w)
  /\ deepDives (store w') = deepDives (store w)
  /\ dailies (store w') = dailies (store w)
  /\ llm w' = llm w.
Proof.
  cbv zeta. destruct (generateMicroSummary E w) as [r w'] eqn:H. simpl.
  destruct (generateMicroSummary_cases _ _ _ _ H) as [[-> ->]|(session & Hs & _ & _ & _ & Hcase)];
    [done|].
  destruct Hcase as [[-> Hsame]|(content & parsed & row & _ & _ & _ & _ & _ & _ & H1 & H2 & H3 & _)].
  - destruct Hsame as (-> & _ & _ & _ & _ & _ & ->). done.
  - repeat split; try done.
    revert H. unfold generateMicroSummary, storeMicro, callApi.
    intros H. run; reflexivity.
Qed.

(** C9. [generateOnDemandSummary] first runs [generateMicroSummary]; with
    [allMicros] the micro-summaries of today read after that, it returns the
    fixed message when there is none; the summary of the only one, with no
    further completion call, when there is exactly one; and, when there are
    several, the summary of the last one if the client is missing or the
    overview call, or the decoding of its content, throws.  It never adds a
    session-summary row. *)
Theorem on_demand_summary_cases (E : Env) (w : World) :
  let w1 := snd (generateMicroSummary E w) in
  let today := todayDateString E (clock w1) in
  let allMicros :=
    getMicroSummaries E (store w1) (dayStartOf E today) (clock w1 + 60) in
  let result := fst (generateOnDemandSummary E w) in
  let w' := snd (generateOnDemandSummary E w) in
  (allMicros = [] -> result = JStr (js "No activity recorded yet.") /\ w' = w1)
  /\ (forall only, allMicros = [only] -> result = m_summary only /\ w' = w1)
  /\ (forall earlier latest,
        allMicros = earlier ++ [latest] -> earlier <> [] ->
        (llm w1 = false -> result = m_summary latest /\ w' = w1)
        /\ (llm w1 = true -> nextCallOrDecodeThrows E w1 ->
              result = m_summary latest /\ apiCalls w' = S (apiCalls w1)))
  /\ sessions (store w') = sessions (store w).
Proof.
  cbv zeta. unfold generateOnDemandSummary.
  destruct (generateMicroSummary_frame E w) as (Hsess & _).
  destruct (generateMicroSummary E w) as [r w1] eqn:Hmicro. simpl in *.
  set (allMicros := getMicroSummaries E (store w1)
                      (dayStartOf E (todayDateString E (clock w1))) (clock w1 + 60)).
  split; [|split; [|split]].
  - intros ->. by split.
  - intros only ->. by split.
  - intros earlier latest Hall Hne. rewrite Hall.
    assert (Hlast : forall d, lastSummary (earlier ++ [latest]) d = m_summary latest).
    { intros d. unfold lastSummary. rewrite List.map_app.
      change (List.map Some [latest]) with [Some latest]. by rewrite last_last. }
    destruct earlier as [|first rest]; [done|].
    destruct rest as [|second rest]; simpl app; cbv iota.
    + change [first; latest] with ([first] ++ [latest]). rewrite Hlast. split.
      * intros ->. by split.
      * intros -> [[err Herr]|(c & Hc & Hd)]; simpl;
          [rewrite Herr | rewrite Hc, Hd]; by split.
    + change (first :: second :: rest ++ [latest])
        with ((first :: second :: rest) ++ [latest]).
      rewrite Hlast. split.
      * intros ->. by split.
      * intros -> [[err Herr]|(c & Hc & Hd)]; simpl;
          [rewrite Herr | rewrite Hc, Hd]; by split.
  - destruct allMicros as [|first [|second rest]]; try exact Hsess.
    destruct (llm w1); simpl; [|exact Hsess].
    destruct (api E (apiCalls w1)); [exact Hsess|].
    destruct (decode E content); [|exact Hsess].
    by destruct (getProp j (js "summary")).
Qed.

Lemma generateSessionSummary_frame E w :
  deepDives (store (snd (generateSessionSummary E w))) = deepDives (store w).
Proof.
  destruct (generateSessionSummary E w) as [r w'] eqn:H. simpl.
  destruct (generateSessionSummary_cases _ _ _ _ H) as [[-> ->]|(session & Hs & _ & _ & _ & Hcase)];
    [done|].
  destruct Hcase as [[-> Hsame]|(content & parsed & row & _ & _ & _ & _ & _ & _ & _ & _ & _ & H1 & _)].
  - destruct Hsame as (-> & _). done.
  - exact H1.
Qed.

Lemma storeDaily_cases E date dayStart agg parsed w r w' :
  storeDaily E date dayStart agg parsed w = (r, w') ->
  (r = None /\ w' = w)
  \/ exists d, r = Some d /\ w' = withStore (upsertDailySummary d (store w)) w
       /\ d_date d = date
       /\ d_totalTrackedSecs d = totalTracked agg
       /\ d_totalIdleSecs d = totalIdle agg
       /\ d_totalProductiveSecs d = productive agg
       /\ d_totalDistractedSecs d = distracted agg.
Proof.
  unfold storeDaily. intros H. run; eauto 10.
Qed.

(** What a run of [generateDailySummary] comes to. *)
Lemma generateDailySummary_cases E date w r w' :
  generateDailySummary E date w = (r, w') ->
  (r = None /\ w' = w)
  \/ (llm w = true
      /\ apiCalls w' = S (apiCalls w)
      /\ ((r = None /\ samePersistent w w')
          \/ exists content parsed d,
               api E (apiCalls w) = Completed content
               /\ decode E content = Some parsed
               /\ r = Some d
               /\ store w' = upsertDailySummary d (store w)
               /\ lastMicroTime w' = lastMicroTime w
               /\ lastSessionSummaryTime w' = lastSessionSummaryTime w)).
Proof.
  unfold generateDailySummary. intros H.
  destruct (llm w) eqn:Hllm; simpl in H; [|left; by simplify_eq].
  assert (Hcall : forall res,
    (let '(outcome, w1) := callApi E w in
     match outcome with
     | Rejected _ => (None, w1)
     | Completed content =>
         match decode E content with
         | Some parsed =>
             storeDaily E date (dayStartOf E date)
               (aggregatesFor E (store w) date) parsed w1
         | None => (None, w1)
         end
     end) = res ->
    apiCalls (snd res) = S (apiCalls w)
    /\ ((fst res = None /\ samePersistent w (snd res))
        \/ exists content parsed d,
             api E (apiCalls w) = Completed content
             /\ decode E content = Some parsed
             /\ fst res = Some d
             /\ store (snd res) = upsertDailySummary d (store w)
             /\ lastMicroTime (snd res) = lastMicroTime w
             /\ lastSessionSummaryTime (snd res) = lastSessionSummaryTime w)).
  { intros [r0 w0]. unfold callApi.
    destruct (api E (apiCalls w)) as [err|content] eqn:Hapi.
    { intros [= <- <-]. split; [reflexivity|]. left. by repeat split. }
    destruct (decode E content) as [parsed|] eqn:Hdec.
    2:{ intros [= <- <-]. split; [reflexivity|]. left. by repeat split. }
    intros Hst. apply storeDaily_cases in Hst as [[-> ->]|(d & -> & -> & _)]; simpl.
    - split; [reflexivity|]. left. by repeat split.
    - split; [reflexivity|]. right. exists content, parsed, d. by repeat split. }
  destruct (getSessionSummaries (store w) date) as [|s0 sess].
  - destruct (getMicroSummaries E (store w) _ _) as [|m0 ms]; [left; by simplify_eq|].
    right. split; [reflexivity|]. exact (Hcall _ H).
  - right. split; [reflexivity|]. exact (Hcall _ H).
Qed.

Lemma generateDailySummary_frame E date w :
  deepDives (store (snd (generateDailySummary E date w))) = deepDives (store w).
Proof.
  destruct (generateDailySummary E date w) as [r w'] eqn:H. simpl.
  destruct (generateDailySummary_cases _ _ _ _ _ H)
    as [[_ ->]|(_ & _ & [[_ Hsame]|(c & p & d & _ & _ & _ & -> & _)])];
    [reflexivity| |reflexivity].
  destruct Hsame as (-> & _). reflexivity.
Qed.

Lemma generateOnDemandSummary_frame E w :
  deepDives (store (snd (generateOnDemandSummary E w))) = deepDives (store w).
Proof.
  unfold generateOnDemandSummary.
  destruct (generateMicroSummary_frame E w) as (_ & Hdd & _).
  destruct (generateMicroSummary E w) as [r w1]. simpl in Hdd.
  destruct (getMicroSummaries E (store w1) _ _) as [|first [|second rest]];
    try exact Hdd.
  destruct (llm w1); simpl; [|exact Hdd].
  destruct (api E (apiCalls w1)); [exact Hdd|].
  destruct (decode E content); [|exact Hdd].
  by destruct (getProp j (js "summary")).
Qed.

Lemma generateDeepDive_keeps_entries E start end_ w key r :
  deepDives (store w) !! key = Some r ->
  deepDives (store (snd (generateDeepDive E start end_ w))) !! key = Some r.
Proof.
  intros Hkey. unfold generateDeepDive, getCachedDeepDive.
  destruct (deepDives (store w) !! cacheKey w start end_) eqn:Hc; [exact Hkey|].
  destruct (llm w); [|exact Hkey]. simpl.
  destruct (getRawEvents E (store w) start end_); [exact Hkey|].
  destruct (api E (apiCalls w)); [exact Hkey|]. simpl.
  rewrite lookup_insert_ne; [exact Hkey|]. intros <-. congruence.
Qed.

(** C10. If the completion call an operation issues throws, or the
    decoding of its content does, then [generateMicroSummary],
    [generateSessionSummary] and [generateDailySummary] return null and leave
    the store, both watermarks and both counters as they were, and so does
    [generateDeepDive] when its call is rejected: no row, no cache entry, no
    backfill; the segment query of the next trigger returns the same rows. *)
Theorem failed_completion_changes_nothing (E : Env) (w : World)
    (date : jsstring) (start end_ : Z) :
  (nextCallOrDecodeThrows E w ->
     (fst (generateMicroSummary E w) = None
      /\ samePersistent w (snd (generateMicroSummary E w)))
     /\ (fst (generateSessionSummary E w) = None
         /\ samePersistent w (snd (generateSessionSummary E w)))
     /\ (fst (generateDailySummary E date w) = None
         /\ samePersistent w (snd (generateDailySummary E date w))))
  /\ (forall err, api E (apiCalls w) = Rejected err ->
        samePersistent w (snd (generateDeepDive E start end_ w)))
  /\ (forall w', samePersistent w w' ->
        forall session,
          getUnprocessedSegmentsForMicro (store w') session (lastMicroTime w')
          = getUnprocessedSegmentsForMicro (store w) session (lastMicroTime w)
          /\ micros (store w') = micros (store w)
          /\ segments (store w') = segments (store w)
          /\ deepDives (store w') = deepDives (store w)).
Proof.
  split; [|split].
  - intros Hthrow. split; [|split].
    + destruct (generateMicroSummary E w) as [r w'] eqn:H. simpl.
      destruct (generateMicroSummary_cases _ _ _ _ H)
        as [[-> ->]|(session & _ & _ & _ & _ & [[-> Hsame]|Hrow])];
        [split; [reflexivity|apply samePersistent_refl] | by split |].
      destruct Hrow as (content & parsed & row & Hapi & Hdec & _).
      destruct Hthrow as [[err Herr]|(c & Hc & Hd)]; congruence.
    + destruct (generateSessionSummary E w) as [r w'] eqn:H. simpl.
      destruct (generateSessionSummary_cases _ _ _ _ H)
        as [[-> ->]|(session & _ & _ & _ & _ & [[-> Hsame]|Hrow])];
        [split; [reflexivity|apply samePersistent_refl] | by split |].
      destruct Hrow as (content & parsed & row & Hapi & Hdec & _).
      destruct Hthrow as [[err Herr]|(c & Hc & Hd)]; congruence.
    + destruct (generateDailySummary E date w) as [r w'] eqn:H. simpl.
      destruct (generateDailySummary_cases _ _ _ _ _ H)
        as [[-> ->]|(_ & _ & [[-> Hsame]|Hrow])];
        [split; [reflexivity|apply samePersistent_refl] | by split |].
      destruct Hrow as (content & parsed & d & Hapi & Hdec & _).
      destruct Hthrow as [[err Herr]|(c & Hc & Hd)]; congruence.
  - intros err Herr. unfold generateDeepDive, getCachedDeepDive.
    destruct (deepDives (store w) !! cacheKey w start end_); [apply samePersistent_refl|].
    destruct (llm w) eqn:Hllm; simpl; [|apply samePersistent_refl].
    destruct (getRawEvents E (store w) start end_); [apply samePersistent_refl|].
    unfold callApi. rewrite Herr. simpl. unfold samePersistent; simpl.
    repeat split; congruence.
  - intros w' (Hst & Hlm & _) session. rewrite Hst, Hlm. by repeat split.
Qed.

(** Idempotence of the deep dive at one input: two calls in a row with the same
    range return the same result, issue one completion call in total, and
    the first result is in the cache when the first call returns. *)
Definition idempotentAt (E : Env) (start end_ : Z) (w : World) : Prop :=
  let '(r1, w1) := generateDeepDive E start end_ w in
  let '(r2, w2) := generateDeepDive E start end_ w1 in
  r1 = r2
  /\ apiCalls w2 = S (apiCalls w)
  /\ getCachedDeepDive (store w1) (cacheKey w start end_) = Some r1.

(** C4 (amended). When the key is not cached, the client is configured,
    the range holds events and the completion call succeeds, the first call
    of [generateDeepDive] issues exactly one completion call and caches its
    result before returning it; a second call with the same range returns
    the same result and leaves the state, the count of completion calls
    included, unchanged; any later call with the same key, in any state that
    still holds the entry, is served from the cache; and no operation of the
    summarizer removes or replaces the entry. *)
Theorem deep_dive_cached_after_success (E : Env) (start end_ : Z) (w : World)
    (content : option jsstring) :
  getCachedDeepDive (store w) (cacheKey w start end_) = None ->
  llm w = true ->
  getRawEvents E (store w) start end_ <> [] ->
  api E (apiCalls w) = Completed content ->
  let r1 := fst (generateDeepDive E start end_ w) in
  let w1 := snd (generateDeepDive E start end_ w) in
  apiCalls w1 = S (apiCalls w)
  /\ getCachedDeepDive (store w1) (cacheKey w start end_) = Some r1
  /\ generateDeepDive E start end_ w1 = (r1, w1)
  /\ idempotentAt E start end_ w
  /\ (forall E2 w2,
        activeSessionId w2 = activeSessionId w ->
        getCachedDeepDive (store w2) (cacheKey w start end_) = Some r1 ->
        generateDeepDive E2 start end_ w2 = (r1, w2))
  /\ (forall E2 w2 date s e,
        getCachedDeepDive (store w2) (cacheKey w start end_) = Some r1 ->
        getCachedDeepDive (store (snd (generateMicroSummary E2 w2)))
          (cacheKey w start end_) = Some r1
        /\ getCachedDeepDive (store (snd (generateSessionSummary E2 w2)))
             (cacheKey w start end_) = Some r1
        /\ getCachedDeepDive (store (snd (generateDailySummary E2 date w2)))
             (cacheKey w start end_) = Some r1
        /\ getCachedDeepDive (store (snd (generateOnDemandSummary E2 w2)))
             (cacheKey w start end_) = Some r1
        /\ getCachedDeepDive (store (snd (generateDeepDive E2 s e w2)))
             (cacheKey w start end_) = Some r1).
Proof.
  intros Hmiss Hllm Hevents Hapi.
  assert (Hserved : forall E2 w2 r,
            activeSessionId w2 = activeSessionId w ->
            getCachedDeepDive (store w2) (cacheKey w start end_) = Some r ->
            generateDeepDive E2 start end_ w2 = (r, w2)).
  { intros E2 w2 r Hs Hc. unfold generateDeepDive.
    replace (cacheKey w2 start end_) with (cacheKey w start end_)
      by (unfold cacheKey; by rewrite Hs).
    by rewrite Hc. }
  assert (Hfirst : generateDeepDive E start end_ w
    = ({| analysis := orDefault content (js "Analysis unavailable.") |},
       withStore (cacheDeepDive (cacheKey w start end_)
                    {| analysis := orDefault content (js "Analysis unavailable.") |}
                    (store w))
                 (snd (callApi E w)))).
  { unfold generateDeepDive. rewrite Hmiss, Hllm. simpl.
    destruct (getRawEvents E (store w) start end_); [done|].
    unfold callApi. rewrite Hapi. reflexivity. }
  cbv zeta. rewrite Hfirst. simpl fst. simpl snd.
  assert (Hcached : getCachedDeepDive
            (store (withStore (cacheDeepDive (cacheKey w start end_)
                    {| analysis := orDefault content (js "Analysis unavailable.") |}
                    (store w)) (snd (callApi E w))))
            (cacheKey w start end_)
          = Some {| analysis := orDefault content (js "Analysis unavailable.") |}).
  { unfold getCachedDeepDive. simpl. apply lookup_insert_eq. }
  split; [reflexivity|]. split; [exact Hcached|].
  pose proof (fun H => Hserved E _ _ H Hcached) as Hsecond.
  specialize (Hsecond eq_refl).
  split; [exact Hsecond|]. split.
  { unfold idempotentAt. rewrite Hfirst, Hsecond. by repeat split. }
  split; [intros E2 w2; apply Hserved|].
  intros E2 w2 date s e Hc. unfold getCachedDeepDive in *.
  destruct (generateMicroSummary_frame E2 w2) as (_ & Hm & _).
  rewrite Hm, generateSessionSummary_frame, generateDailySummary_frame,
    generateOnDemandSummary_frame.
  repeat split; trivial. by apply generateDeepDive_keeps_entries.
Qed.

(** *** A concrete environment *)

(** A string literal of a JSON text. *)
Definition quoted (s : string) : jsstring := [34%N] ++ js s ++ [34%N].

(** The text [{"summary":"Reviewed the inbox","productivity_label":"great"}]. *)
Definition sampleReply : jsstring :=
  js "{" ++ quoted "summary" ++ js ":" ++ quoted "Reviewed the inbox" ++ js ","
  ++ quoted "productivity_label" ++ js ":" ++ quoted "great" ++ js "}".

Definition sampleDocument : json :=
  JObj [ (js "summary", JStr (js "Reviewed the inbox"));
         (js "productivity_label", JStr (js "great")) ].

(** The first completion call is rejected; every later one returns
    [sampleReply]. *)
Definition sampleEnv : Env :=
  {| api := fun n => match n with
                     | O => Rejected (js "Error: timeout")
                     | S _ => Completed (Some sampleReply)
                     end;
     delay := fun _ => 2;
     JSON_parse := fun s =>
       if bool_decide (s = sampleReply) then Some sampleDocument
       else if bool_decide (s = js "{}") then Some (JObj [])
       else None;
     StringToNumber := fun _ => None;
     microInRange := fun a b m => (a <=? m_startTime m) && (m_endTime m <=? b);
     segmentInRange := fun a b s => (a <=? startTime s) && (endTime s <=? b);
     eventInRange := fun a b e => (a <=? timestamp e) && (timestamp e <=? b);
     todayDateString := fun _ => js "2026-01-15";
     dayStartOf := fun _ => 0;
     aggregatesFor := fun _ _ =>
       {| appUsage := []; projectUsage := []; totalTracked := 0; totalIdle := 0;
          productive := 0; distracted := 0 |} |}.

(** The store after the flush of [IngestionFacts.sampleState]: its six raw
    events and its two segments. *)
Definition sampleStore : Db :=
  {| rawEvents := IngestionFacts.sampleBuffer;
     segments := segmentTable (flushToSegments false IngestionFacts.sampleState);
     micros := []; sessions := []; dailies := ∅; deepDives := ∅ |}.

(** An active session with both segments pending, after [calls] completion
    calls. *)
Definition sampleWorld (calls : nat) : World :=
  {| llm := true; activeSessionId := Some (js "s1");
     sessionStartTime := 900; lastMicroTime := 900; lastSessionSummaryTime := 900;
     microCount := 0; sessionCount := 0;
     store := sampleStore; clock := 1400; apiCalls := calls |}.

(** The same session with nothing pending. *)
Definition idleWorld : World :=
  {| llm := true; activeSessionId := Some (js "s1");
     sessionStartTime := 900; lastMicroTime := 1400; lastSessionSummaryTime := 900;
     microCount := 0; sessionCount := 0;
     store := sampleStore; clock := 1400; apiCalls := 0 |}.


Definition sampleMicroRow (id start end_ : Z) (text : string)
    (apps : list (jsstring * Z)) : MicroSummary :=
  {| m_id := Some id; m_sessionId := js "s1"; m_startTime := start;
     m_endTime := end_; m_summary := JStr (js text);
     m_appBreakdown := list_to_map (List.map (fun e => (fst e, DNum (snd e))) apps);
     m_primaryActivity := None;
     m_productivityLabel := JStr (js "productive"); m_project := None;
     m_segmentIds := [] |}.

(** Two micro-summaries stored, nothing pending. *)
Definition busyWorld (calls : nat) : World :=
  {| llm := true; activeSessionId := Some (js "s1");
     sessionStartTime := 900; lastMicroTime := 1400; lastSessionSummaryTime := 900;
     microCount := 2; sessionCount := 0;
     store :=
       {| rawEvents := IngestionFacts.sampleBuffer;
          segments := segmentTable (flushToSegments false IngestionFacts.sampleState);
          micros :=
            [ sampleMicroRow 1 1000 1150 "Edited the ingestor"
                [(js "VS Code", 100); (js "github.com", 50)];
              sampleMicroRow 2 1150 1310 "Read the pull request"
                [(js "github", 30); (js "Chrome", 130)] ];
          sessions := []; dailies := ∅; deepDives := ∅ |};
     clock := 1400; apiCalls := calls |}.

(** The micro-summary [generateMicroSummary] returns in [sampleWorld 1]. *)
Definition sampleMicro : MicroSummary :=
  default (sampleMicroRow 0 0 0 "" [])
          (fst (generateMicroSummary sampleEnv (sampleWorld 1))).

(** The row it stores. *)
Definition sampleStoredMicro : MicroSummary :=
  default (sampleMicroRow 0 0 0 "" [])
          (head (micros (store (snd (generateMicroSummary sampleEnv (sampleWorld 1)))))).

Definition sampleSession : option SessionSummary :=
  fst (generateSessionSummary sampleEnv (busyWorld 1)).

Definition sampleSessionRow : SessionSummary :=
  default {| s_id := None; s_sessionId := []; s_date := []; s_startTime := 0;
             s_endTime := 0; s_summary := JNull; s_keyActivities := [];
             s_projects := ∅; s_appStats := ∅; s_productivityLabel := JNull |}
          sampleSession.

Example sample_micro_breakdown :
  List.map (fun app => m_appBreakdown sampleMicro !! js app) ["VS Code"; "Chrome"; "Slack"]%string
  = [Some (DNum 240); Some (DNum 10); None].
Proof. vm_compute. reflexivity. Qed.

Example sample_session_stats :
  List.map (fun app => (s_appStats <$> sampleSession) ≫= (.!! js app))
           ["VS Code"; "github"; "github.com"; "Chrome"]%string
  = [Some (DNum 100); Some (DNum 80); None; Some (DNum 130)].
Proof. vm_compute. reflexivity. Qed.

Lemma label_defaults_to_neutral (v : option json) :
  truthy v = false -> orElse v (JStr (js "neutral")) = JStr (js "neutral").
Proof. destruct v as [x|]; [|reflexivity]. unfold orElse. by intros ->. Qed.

Lemma label_kept_when_truthy (x : json) (d : json) :
  truthy (Some x) = true -> orElse (Some x) d = x.
Proof. unfold orElse. by intros ->. Qed.

Lemma sumZ_app (a b : list Z) : sumZ (a ++ b) = sumZ a + sumZ b.
Proof. induction a as [|x a IH]; simpl; [done|]. rewrite IH. lia. Qed.

Lemma ordinaryKey_own (k : jsstring) :
  ordinaryKey k = true ->
  bool_decide (k = js "__proto__") = false /\ bool_decide (k ∈ INHERITED_KEYS) = false.
Proof.
  unfold ordinaryKey. intros H. apply negb_true_iff in H. split; [|done].
  apply bool_decide_eq_false. intros ->. apply bool_decide_eq_false in H.
  apply H. unfold INHERITED_KEYS. simpl. do 11 apply list_elem_of_further.
  apply list_elem_of_here.
Qed.

Lemma tldSuffix_matches (s rest : jsstring) :
  In rest (matches tldSuffix s)
  <-> rest = [] /\ exists e, In e APP_SUFFIXES /\ ClassifierFacts.sameIgnoringCase s e.
Proof.
  rewrite ClassifierFacts.matches_lang.
  change tldSuffix
    with (alts (List.map (fun e => Seq (litCI e) Eol) APP_SUFFIXES)).
  split.
  - intros (q & -> & H). apply ClassifierFacts.lang_alts in H as (r & Hin & H).
    apply in_map_iff in Hin as (e & <- & He). cbn [ClassifierFacts.lang] in H.
    destruct H as (q1 & q2 & -> & H1 & -> & ->).
    apply ClassifierFacts.lang_litCI in H1. split; [done|]. exists e.
    by rewrite !app_nil_r.
  - intros (-> & e & He & Hsame). exists s. split; [by rewrite app_nil_r|].
    apply ClassifierFacts.lang_alts. exists (Seq (litCI e) Eol).
    split; [by apply (in_map (fun e => Seq (litCI e) Eol))|].
    cbn [ClassifierFacts.lang]. exists s, []. split; [by rewrite app_nil_r|].
    split; [by apply ClassifierFacts.lang_litCI|done].
Qed.

Lemma hasSuffix_cons (c : N) (s stem : jsstring) :
  hasSuffix s stem -> hasSuffix (c :: s) (c :: stem).
Proof. intros (tld & e & -> & He & Hsame). by exists tld, e. Qed.

Lemma replaceFirst_tldSuffix : forall s,
  (hasSuffix s (replaceFirst tldSuffix s))
  \/ (replaceFirst tldSuffix s = s /\ forall stem, ~ hasSuffix s stem).
Proof.
  induction s as [|c s IH].
  - cbn [replaceFirst]. unfold matchAtStart.
    destruct (matches tldSuffix []) as [|rest l] eqn:Hm; cbn [head].
    + right. split; [done|]. intros stem (tld & e & Hs & He & Hsame).
      symmetry in Hs. apply app_eq_nil in Hs as [-> ->].
      assert (Hin : In [] (matches tldSuffix [])).
      { apply tldSuffix_matches. split; [done|]. by exists e. }
      rewrite Hm in Hin. destruct Hin.
    + assert (Hin : In rest (matches tldSuffix [])) by (rewrite Hm; by left).
      apply tldSuffix_matches in Hin as (-> & e & He & Hsame).
      left. by exists [], e.
  - cbn [replaceFirst]. unfold matchAtStart.
    destruct (matches tldSuffix (c :: s)) as [|rest l] eqn:Hm; cbn [head].
    + destruct IH as [IH|[Heq IH]].
      * left. by apply hasSuffix_cons.
      * right. rewrite Heq. split; [done|].
        intros stem (tld & e & Hs & He & Hsame). destruct stem as [|c' stem].
        -- simpl in Hs. subst tld.
           assert (Hin : In [] (matches tldSuffix (c :: s))).
           { apply tldSuffix_matches. split; [done|]. by exists e. }
           rewrite Hm in Hin. destruct Hin.
        -- injection Hs as <- Hs. apply (IH stem). by exists tld, e.
    + assert (Hin : In rest (matches tldSuffix (c :: s))) by (rewrite Hm; by left).
      apply tldSuffix_matches in Hin as (-> & e & He & Hsame).
      left. by exists (c :: s), e.
Qed.

Lemma normalizeApp_withoutSuffix (app : jsstring) :
  withoutSuffix app (normalizeApp app).
Proof.
  unfold withoutSuffix, normalizeApp.
  destruct (replaceFirst_tldSuffix app) as [H|[Heq H]]; [by left|right].
  by rewrite Heq.
Qed.

Lemma hasSuffix_unique (app stem1 stem2 : jsstring) :
  hasSuffix app stem1 -> hasSuffix app stem2 -> stem1 = stem2.
Proof.
  assert (Hlen : forall tld e, In e APP_SUFFIXES ->
            ClassifierFacts.sameIgnoringCase tld e ->
            exists c1 c2 c3 rest,
              tld = c1 :: c2 :: c3 :: rest /\ lowerUnit c1 = 46%N
              /\ lowerUnit c2 <> 46%N /\ lowerUnit c3 <> 46%N
              /\ (rest = [] \/ exists c4, rest = [c4] /\ lowerUnit c4 <> 46%N)).
  { intros tld e He Hsame. unfold ClassifierFacts.sameIgnoringCase, toLowerCase in Hsame.
    destruct He as [<-|[<-|[<-|[<-|[]]]]];
      (destruct tld as [|c1 [|c2 [|c3 [|c4 [|c5 rest]]]]]; try discriminate;
       injection Hsame as H1 H2 H3 H4 || injection Hsame as H1 H2 H3;
       exists c1, c2, c3; eexists; split; [reflexivity|];
       rewrite ?H1, ?H2, ?H3; repeat split; try done;
       first [by left | right; eexists; split; [reflexivity|]; by rewrite H4]). }
  intros (t1 & e1 & -> & He1 & Hs1) (t2 & e2 & Heq & He2 & Hs2).
  destruct (Hlen _ _ He1 Hs1) as (a1 & a2 & a3 & r1 & -> & Ha1 & Ha2 & Ha3 & Hr1).
  destruct (Hlen _ _ He2 Hs2) as (b1 & b2 & b3 & r2 & -> & Hb1 & Hb2 & Hb3 & Hr2).
  assert (Hl : length stem1 = length stem2 \/ length stem1 = S (length stem2)
               \/ length stem2 = S (length stem1)).
  { apply (f_equal (@length N)) in Heq. rewrite !length_app in Heq. simpl in Heq.
    destruct Hr1 as [->|(? & -> & _)], Hr2 as [->|(? & -> & _)]; simpl in Heq; lia. }
  destruct Hl as [Hl|[Hl|Hl]].
  - by apply app_inj_1 in Heq as [? _].
  - exfalso. rewrite <- (take_drop (length stem2) stem1) in Heq.
    rewrite <- app_assoc in Heq.
    apply app_inj_1 in Heq as [_ Heq]; [|rewrite length_take; lia].
    destruct (drop (length stem2) stem1) as [|d [|d' ds]] eqn:Hd.
    + apply (f_equal (@length N)) in Hd. rewrite length_drop in Hd. simpl in Hd. lia.
    + simpl in Heq. injection Heq as -> -> _. congruence.
    + apply (f_equal (@length N)) in Hd. rewrite length_drop in Hd. simpl in Hd. lia.
  - exfalso. rewrite <- (take_drop (length stem1) stem2) in Heq.
    rewrite <- app_assoc in Heq.
    apply app_inj_1 in Heq as [_ Heq]; [|rewrite length_take; lia].
    destruct (drop (length stem1) stem2) as [|d [|d' ds]] eqn:Hd.
    + apply (f_equal (@length N)) in Hd. rewrite length_drop in Hd. simpl in Hd. lia.
    + simpl in Heq. injection Heq as <- <- _. congruence.
    + apply (f_equal (@length N)) in Hd. rewrite length_drop in Hd. simpl in Hd. lia.
Qed.

Lemma normalizeApp_iff (app name : jsstring) :
  normalizeApp app = name <-> withoutSuffix app name.
Proof.
  split; [intros <-; apply normalizeApp_withoutSuffix|].
  intros Hname. destruct (normalizeApp_withoutSuffix app) as [H|[Heq H]];
    destruct Hname as [H'|[Heq' H']].
  - by apply (hasSuffix_unique app).
  - destruct (H' _ H).
  - destruct (H _ H').
  - congruence.
Qed.

Lemma addTo_other (k : jsstring) (n : Z) (obj : gmap jsstring DictValue) (k' : jsstring) :
  k <> k' -> addTo k n obj !! k' = obj !! k'.
Proof.
  intros Hne. unfold addTo.
  destruct (obj !! k) as [[m|]|]; repeat case_bool_decide;
    rewrite ?lookup_insert_ne by done; done.
Qed.

Lemma fold_addTo_ordinary {A} (key : A -> jsstring) (val : A -> Z) (k : jsstring) :
  ordinaryKey k = true ->
  forall items,
    fold_left (fun acc x => addTo (key x) (val x) acc) items ∅ !! k
    = match List.filter (fun x => bool_decide (key x = k)) items with
      | [] => None
      | sel => Some (DNum (sumZ (List.map val sel)))
      end.
Proof.
  intros Hk. destruct (ordinaryKey_own k Hk) as [Hproto Hinh].
  induction items as [|x items IH] using rev_ind;
    [cbn [fold_left List.filter]; by rewrite lookup_empty|].
  rewrite fold_left_app, List.filter_app. cbn [fold_left List.filter].
  destruct (decide (key x = k)) as [Hx|Hx];
    [rewrite (bool_decide_eq_true_2 _ Hx)|rewrite (bool_decide_eq_false_2 _ Hx)].
  - unfold addTo at 1. rewrite Hx, IH.
    destruct (List.filter _ items) as [|y sel]; cbn [app].
    + rewrite Hproto, Hinh, lookup_insert_eq. simpl. do 2 f_equal. lia.
    + rewrite lookup_insert_eq. do 2 f_equal.
      change (y :: sel ++ [x]) with ((y :: sel) ++ [x]).
      rewrite List.map_app, sumZ_app. simpl. lia.
  - rewrite addTo_other by done. rewrite IH, app_nil_r. reflexivity.
Qed.

(** For an app name that no object inherits, the stored rows hold the sums:
    the breakdown of a micro-summary gives the app the seconds of the
    contributing segments attributed to it, and the statistics of a session
    summary give it the seconds of the entries of the contributing
    breakdowns whose name, without its domain suffix, is that app; an app
    with no segment, or no entry, is absent.  Neither depends on what the
    completion call returned. *)
Lemma ordinary_apps_get_their_sums (E : Env) (w : World) (app : jsstring) :
  ordinaryKey app = true ->
  (forall a name, normalizeApp a = name <-> withoutSuffix a name)
  /\ (forall r w' m,
      generateMicroSummary E w = (r, w') ->
      r = Some m \/ micros (store w') = micros (store w) ++ [m] ->
      exists session,
        activeSessionId w = Some session
        /\ let segs := getUnprocessedSegmentsForMicro (store w) session (lastMicroTime w) in
           m_appBreakdown m !! app
           = match List.filter (fun s => bool_decide (appOf s = app)) segs with
             | [] => None
             | _ :: _ => Some (DNum (segmentSecondsOf app segs))
             end)
  /\ (forall r w' s,
      generateSessionSummary E w = (r, w') ->
      r = Some s \/ sessions (store w') = sessions (store w) ++ [s] ->
      let ms := List.filter (microInRange E (lastSessionSummaryTime w) (clock w))
                            (micros (store w)) in
      s_appStats s !! app
      = match List.filter (fun e => bool_decide (normalizeApp (fst e) = app))
                          (breakdownEntries ms) with
        | [] => None
        | _ :: _ => Some (DNum (breakdownSecondsOf app ms))
        end).
Proof.
  intros Happ. split; [apply normalizeApp_iff|]. split.
  - intros r w' m H Hm.
    destruct (generateMicroSummary_cases _ _ _ _ H) as [[-> ->]|(session & Hs & _ & _ & _ & Hcase)].
    { destruct Hm as [?|Hm]; [discriminate|].
      symmetry in Hm. by apply app_cons_not_nil_self in Hm. }
    exists session. split; [exact Hs|]. cbv zeta.
    assert (Hb : m_appBreakdown m
                 = computeAppBreakdown
                     (getUnprocessedSegmentsForMicro (store w) session (lastMicroTime w))).
    { destruct Hcase as [[-> Hsame]|(content & parsed & row & _ & _ & Hrows & Hb & _ & _ & _ & _ & _ & _ & _ & Hret)].
      - destruct Hm as [?|Hm]; [discriminate|].
        destruct Hsame as [Hst _]. rewrite Hst in Hm.
        symmetry in Hm. by apply app_cons_not_nil_self in Hm.
      - destruct Hm as [Hm|Hm].
        + destruct (Hret _ Hm) as [-> _]. exact Hb.
        + rewrite Hrows in Hm. apply app_inj_tail in Hm as [_ ->]. exact Hb. }
    rewrite Hb.
    change (computeAppBreakdown ?segs)
      with (fold_left (fun acc x => addTo (appOf x) (duration x) acc) segs ∅).
    rewrite (fold_addTo_ordinary appOf duration app Happ). unfold segmentSecondsOf.
    by destruct (List.filter _ _).
  - intros r w' s H Hsv. cbv zeta.
    change (List.filter (microInRange E (lastSessionSummaryTime w) (clock w)) (micros (store w)))
      with (getMicroSummaries E (store w) (lastSessionSummaryTime w) (clock w)).
    assert (Hb : s_appStats s
                 = computeAppStats
                     (getMicroSummaries E (store w) (lastSessionSummaryTime w) (clock w))).
    { destruct (generateSessionSummary_cases _ _ _ _ H) as [[-> ->]|(session & Hs & _ & _ & _ & Hcase)].
      { destruct Hsv as [?|Hm]; [discriminate|].
        symmetry in Hm. by apply app_cons_not_nil_self in Hm. }
      destruct Hcase as [[-> Hsame]|(content & parsed & row & _ & _ & Hrows & Hb & _ & _ & _ & _ & _ & _ & _ & _ & Hret)].
      - destruct Hsv as [?|Hm]; [discriminate|].
        destruct Hsame as [Hst _]. rewrite Hst in Hm.
        symmetry in Hm. by apply app_cons_not_nil_self in Hm.
      - destruct Hsv as [Hm|Hm].
        + destruct (Hret _ Hm) as [-> _]. exact Hb.
        + rewrite Hrows in Hm. apply app_inj_tail in Hm as [_ ->]. exact Hb. }
    rewrite Hb. unfold computeAppStats. rewrite fold_left_flat_map.
    fold (breakdownEntries (getMicroSummaries E (store w) (lastSessionSummaryTime w) (clock w))).
    rewrite (fold_addTo_ordinary (fun e : jsstring * DictValue => normalizeApp (fst e))
               (fun e => numberOr0 (snd e)) app Happ).
    unfold breakdownSecondsOf. by destruct (List.filter _ _).
Qed.

(** Six scene texts in the bar format, with their arrival times: two name
    the app [constructor], two the app [__proto__] and two VS Code. *)
Definition protoFeed : list (Z * jsstring) :=
  [ (1000, js "constructor | typing | x"); (1060, js "constructor | typing | x");
    (1100, js "__proto__ | typing | x"); (1190, js "__proto__ | typing | x");
    (1200, js "VS Code | editing | main.ts");
    (1230, js "VS Code | editing | main.ts") ].

Definition sceneMessageOf (text : jsstring) : Feed.Message :=
  Feed.mkMessage (Some (js "scene_index")) None None Feed.noPayload
    (Some (Feed.mkPayload (Some text) None None None)).

(** The segments the ingestor stores for them in the session [s1]. *)
Definition protoSegments : list ActivitySegment :=
  segmentTable
    (flushToSegments false
       (fst (fold_left
               (fun acc m =>
                  Feed.ingestMessage (fst m) (sceneMessageOf (snd m)) (js "{}")
                                     (fst acc) (snd acc))
               protoFeed
               (startIngestion (js "s1") (Ingestion.mkState [] None 0 0 [] []),
                SceneParser.mkCounters 0 0)))).

(** The session [s1] with these segments pending. *)
Definition protoWorld : World :=
  {| llm := true; activeSessionId := Some (js "s1");
     sessionStartTime := 900; lastMicroTime := 900; lastSessionSummaryTime := 900;
     microCount := 0; sessionCount := 0;
     store := {| rawEvents := []; segments := protoSegments; micros := [];
                 sessions := []; dailies := ∅; deepDives := ∅ |};
     clock := 1400; apiCalls := 1 |}.

(** The session [s1] with one stored micro-summary, whose breakdown gives 50
    seconds to [constructor.com] and 100 to VS Code. *)
Definition protoSessionWorld : World :=
  {| llm := true; activeSessionId := Some (js "s1");
     sessionStartTime := 900; lastMicroTime := 1400; lastSessionSummaryTime := 900;
     microCount := 1; sessionCount := 0;
     store := {| rawEvents := []; segments := [];
                 micros := [ sampleMicroRow 1 1000 1150 "Typed notes"
                               [(js "constructor.com", 50); (js "VS Code", 100)] ];
                 sessions := []; dailies := ∅; deepDives := ∅ |};
     clock := 1400; apiCalls := 1 |}.

(** C3 (the code departs from the specification). Scene texts that name the
    apps [constructor] and [__proto__] are stored as segments of 60 and 90
    seconds attributed to these apps, beside one of 30 seconds for VS Code;
    these are the sums the breakdown should give the three apps.  In the
    micro-summary row [generateMicroSummary] stores for them, the breakdown
    holds the 30 seconds of VS Code, a string, not the number 60, for
    [constructor], and no entry at all for [__proto__].  In the session
    summary row [generateSessionSummary] stores from a micro-summary that
    gives 50 seconds to [constructor.com], [appStats] holds a string, not
    the number 50, for [constructor].  For the app names no object inherits
    the sums are right, see [ordinary_apps_get_their_sums]. *)
Theorem inherited_app_names_break_the_breakdown :
  List.map (fun s => (primaryApp s, endTime s - startTime s)) protoSegments
  = [ (Some (js "constructor"), 60); (Some (js "__proto__"), 90);
      (Some (js "VS Code"), 30) ]
  /\ List.map (fun app => segmentSecondsOf (js app) protoSegments)
              ["constructor"; "__proto__"; "VS Code"]%string
     = [60; 90; 30]
  /\ List.map (fun m => List.map (fun app => m_appBreakdown m !! js app)
                          ["constructor"; "__proto__"; "VS Code"]%string)
       (micros (store (snd (generateMicroSummary sampleEnv protoWorld))))
     = [ [Some DText; None; Some (DNum 30)] ]
  /\ List.map (fun s => List.map (fun app => s_appStats s !! js app)
                          ["constructor"; "constructor.com"; "VS Code"]%string)
       (sessions (store (snd (generateSessionSummary sampleEnv protoSessionWorld))))
     = [ [Some DText; None; Some (DNum 100)] ].
Proof.
  split; [vm_compute; reflexivity|]. split; [vm_compute; reflexivity|].
  split; vm_compute; reflexivity.
Qed.

(** C5 (the code departs from the specification). The completion returns the JSON
    text [sampleReply], whose [productivity_label] is ["great"]: the
    micro-summary row that [generateMicroSummary] stores carries the label
    ["great"], which is none of [productive], [neutral], [distracted], and
    the session summary stored from the same reply does too. *)
Theorem label_great_is_stored :
  List.map m_productivityLabel
    (micros (store (snd (generateMicroSummary sampleEnv (sampleWorld 1)))))
  = [JStr (js "great")]
  /\ List.map s_productivityLabel
       (sessions (store (snd (generateSessionSummary sampleEnv (busyWorld 1)))))
     = [JStr (js "great")]
  /\ ~ In (JStr (js "great")) PRODUCTIVITY_LABELS.
Proof.
  split; [vm_compute; reflexivity|]. split; [vm_compute; reflexivity|].
  vm_compute. intros [H|[H|[H|[]]]]; discriminate.
Qed.

(** C4, as stated, fails when the first completion call is rejected: the
    error text is returned and not cached, the second call issues another
    completion call and returns its analysis. *)
Lemma deep_dive_not_idempotent_after_failure :
  ~ idempotentAt sampleEnv 0 2000 (sampleWorld 0).
Proof.
  unfold idempotentAt. vm_compute. intros [H _]. discriminate.
Qed.

Example deep_dive_two_calls_after_failure :
  let '(r1, w1) := generateDeepDive sampleEnv 0 2000 (sampleWorld 0) in
  let '(r2, w2) := generateDeepDive sampleEnv 0 2000 w1 in
  analysis r1 = js "Error generating analysis: Error: timeout"
  /\ analysis r2 = sampleReply
  /\ apiCalls w2 = 2%nat
  /\ deepDives (store w1) = ∅.
Proof. vm_compute. repeat split. Qed.

Lemma deep_dive_cached_after_success_witness :
  idempotentAt sampleEnv 0 2000 (sampleWorld 1).
Proof.
  destruct (deep_dive_cached_after_success sampleEnv 0 2000 (sampleWorld 1)
              (Some sampleReply)) as (_ & _ & _ & H & _);
    [vm_compute; reflexivity | reflexivity | vm_compute; discriminate
    | reflexivity | exact H].
Defined.

Lemma empty_input_is_a_no_op_witness :
  generateMicroSummary sampleEnv idleWorld = (None, idleWorld)
  /\ generateDailySummary sampleEnv (js "2026-01-15") idleWorld = (None, idleWorld).
Proof.
  split.
  - apply (proj1 (empty_input_is_a_no_op sampleEnv idleWorld (js "2026-01-15"))).
    intros session [= <-]. vm_compute. reflexivity.
  - apply (proj2 (empty_input_is_a_no_op sampleEnv idleWorld (js "2026-01-15")));
      vm_compute; reflexivity.
Defined.

Lemma on_demand_summary_cases_witness :
  fst (generateOnDemandSummary sampleEnv idleWorld) = JStr (js "No activity recorded yet.")
  /\ fst (generateOnDemandSummary sampleEnv (sampleWorld 1)) = JStr (js "Reviewed the inbox")
  /\ fst (generateOnDemandSummary sampleEnv (busyWorld 0)) = JStr (js "Read the pull request").
Proof.
  split; [|split].
  - apply (proj1 (on_demand_summary_cases sampleEnv idleWorld)).
    vm_compute. reflexivity.
  - destruct (on_demand_summary_cases sampleEnv (sampleWorld 1)) as (_ & Hone & _).
    destruct (Hone sampleStoredMicro) as [-> _]; vm_compute; reflexivity.
  - destruct (on_demand_summary_cases sampleEnv (busyWorld 0)) as (_ & _ & Hmany & _).
    destruct (Hmany [sampleMicroRow 1 1000 1150 "Edited the ingestor"
                       [(js "VS Code", 100); (js "github.com", 50)]]
                    (sampleMicroRow 2 1150 1310 "Read the pull request"
                       [(js "github", 30); (js "Chrome", 130)])) as [_ Hrejected];
      [vm_compute; reflexivity | discriminate |].
    destruct Hrejected as [-> _]; [reflexivity | | reflexivity].
    left. exists (js "Error: timeout"). reflexivity.
Defined.

Lemma failed_completion_changes_nothing_witness :
  (fst (generateMicroSummary sampleEnv (sampleWorld 0)) = None
   /\ samePersistent (sampleWorld 0) (snd (generateMicroSummary sampleEnv (sampleWorld 0))))
  /\ samePersistent (sampleWorld 0) (snd (generateDeepDive sampleEnv 0 2000 (sampleWorld 0))).
Proof.
  destruct (failed_completion_changes_nothing sampleEnv (sampleWorld 0)
              (js "2026-01-15") 0 2000) as (Hthrow & Hdeep & _).
  split.
  - apply Hthrow. left. exists (js "Error: timeout"). reflexivity.
  - apply (Hdeep (js "Error: timeout")). reflexivity.
Defined.

End SummarizerFacts.

(* ===================================================================== *)
(** ** Further properties of the event ingestor *)
(* ===================================================================== *)

Module IngestionExtras.
Import JS Ingestion IngestionFacts.

(** The row [insertActivitySegment] appends for a segment. *)
Definition stored (id : Z) (seg : ActivitySegment) : ActivitySegment :=
  {| seg_id := Some id; seg_sessionId := seg_sessionId seg;
     startTime := startTime seg; endTime := endTime seg;
     primaryApp := primaryApp seg; seg_appCategory := seg_appCategory seg;
     action := action seg; project := project seg; context := context seg;
     transcriptSnippet := transcriptSnippet seg; eventCount := eventCount seg;
     isIdle := isIdle seg |}.

(** The row a flush stores for a run. *)
Definition rowOf (session : jsstring) (idle : bool) (g : EventGroup)
    (row : ActivitySegment) : Prop :=
  exists first id,
    head (g_events g) = Some first
    /\ row = stored id (segmentOf session idle g first).

(** A scene, visual or alert event that carries an app name. *)
Definition attributed (e : RawEvent) : bool :=
  hasAppInfo e && truthyStr (appName e).

(** Every attributed event of the run carries the app name of the run. *)
Definition sameApp (g : EventGroup) : Prop :=
  Forall (fun e => attributed e = true -> appName e = g_appName g) (g_events g).

(** The run [g2] starts with an attributed event that names the app of
    [g2], and that is not the app of the run [g1] before it. *)
Definition startsOtherApp (g1 g2 : EventGroup) : Prop :=
  exists e rest,
    g_events g2 = e :: rest
    /\ attributed e = true
    /\ appName e = g_appName g2
    /\ g_appName g2 <> g_appName g1.

Fixpoint linked (gs : list EventGroup) : Prop :=
  match gs with
  | g1 :: ((g2 :: _) as rest) => startsOtherApp g1 g2 /\ linked rest
  | _ => True
  end.

(** Every buffered event is in the raw-event table. *)
Definition bufferPersisted (st : State) : Prop :=
  forall e, In e (buffer st) -> In e (rawEventTable st).

(** Feeding a list of dispatched messages, each with the clock value at
    which it arrives. *)
Definition ingestAll (feed : list (Z * option Dispatched * jsstring)) (st : State)
  : State :=
  fold_left (fun s '(now, d, raw) => ingestEvent now d raw s) feed st.

Lemma flushGroup_rows session idle gs : forall table n,
  allNonEmpty gs ->
  exists rows,
    fold_left (flushGroup session idle) gs (table, n)
      = (table ++ rows, n + Z.of_nat (length gs))
    /\ Forall2 (rowOf session idle) gs rows.
Proof.
  induction gs as [|g gs IH]; intros table n Hne; simpl.
  - exists []. rewrite app_nil_r, Z.add_0_r. by repeat constructor.
  - inversion Hne as [|? ? Hg Hgs]; subst.
    unfold flushGroup at 2. destruct (g_events g) as [|first rest] eqn:Hev; [done|].
    simpl.
    match goal with
    | |- context [fold_left _ gs (?t ++ [?row], _)] =>
        destruct (IH (t ++ [row]) (n + 1) Hgs) as [segs [Hfold Hrows]];
        exists (row :: segs)
    end.
    rewrite Hfold. split.
    + f_equal; [by rewrite <- app_assoc | lia].
    + constructor; [|exact Hrows].
      exists first, (Z.of_nat (length table) + 1).
      unfold stored, segmentOf. simpl. rewrite Hev. by split.
Qed.

Lemma flush_rows (idle : bool) (st : State) (session : jsstring) :
  activeSessionId st = Some session ->
  nonEmpty session = true ->
  buffer st <> [] ->
  exists rows,
    segmentTable (flushToSegments idle st) = segmentTable st ++ rows
    /\ totalFlushed (flushToSegments idle st)
       = totalFlushed st + Z.of_nat (length (groupByApp (buffer st)))
    /\ Forall2 (rowOf session idle) (groupByApp (buffer st)) rows.
Proof.
  intros Hs Hne Hbuf. unfold flushToSegments. rewrite Hs, Hne.
  rewrite bool_decide_eq_false_2 by exact Hbuf. simpl.
  destruct (flushGroup_rows session idle (groupByApp (buffer st))
              (segmentTable st) 0 (groupByApp_nonempty _)) as (rows & Hfold & Hrows).
  exists rows. rewrite Hfold. simpl. repeat split; trivial.
Qed.

Lemma sum_lengths {A} (runs : list (list A)) :
  length (concat runs) = fold_right Nat.add O (List.map (@length A) runs).
Proof.
  induction runs as [|r runs IH]; simpl; [reflexivity|].
  by rewrite length_app, IH.
Qed.

(** X1. A flush counts every buffered event once.  With an active session
    and a buffer that is not empty, [flushToSegments] appends rows whose
    [eventCount]s add up to the number of buffered events; every row counts
    at least one event, there is at least one row and no more rows than
    events, and [totalFlushed] advances by the number of rows. *)
Theorem flush_counts_every_event (idle : bool) (st : State) (session : jsstring) :
  activeSessionId st = Some session ->
  nonEmpty session = true ->
  buffer st <> [] ->
  exists rows,
    segmentTable (flushToSegments idle st) = segmentTable st ++ rows
    /\ fold_right Z.add 0 (List.map eventCount rows) = Z.of_nat (length (buffer st))
    /\ Forall (fun row => 1 <= eventCount row) rows
    /\ (1 <= length rows <= length (buffer st))%nat
    /\ totalFlushed (flushToSegments idle st)
       = totalFlushed st + Z.of_nat (length rows).
Proof.
  intros Hs Hne Hbuf.
  destruct (flush_rows idle st session Hs Hne Hbuf) as (rows & Htable & Htotal & Hrows).
  exists rows. split; [exact Htable|].
  pose proof (groupByApp_concat (buffer st)) as Hcat.
  pose proof (groupByApp_nonempty (buffer st)) as Hnonempty.
  assert (Hlen : length rows = length (groupByApp (buffer st))).
  { symmetry. by apply Forall2_length in Hrows. }
  assert (Hsum : fold_right Z.add 0 (List.map eventCount rows)
                 = Z.of_nat (length (concat (List.map g_events (groupByApp (buffer st)))))
                 /\ Forall (fun row => 1 <= eventCount row) rows
                 /\ (length rows
                     <= length (concat (List.map g_events (groupByApp (buffer st)))))%nat).
  { clear Hlen Htotal Htable Hcat. revert Hnonempty.
    induction Hrows as [|g row gs rows Hrow _ IH]; intros Hnonempty; simpl.
    - repeat split; [constructor|lia].
    - inversion Hnonempty as [|? ? Hg Hgs]; subst.
      destruct (IH Hgs) as (IH1 & IH2 & IH3).
      destruct Hrow as (first & id & Hhead & ->).
      change (eventCount (stored id (segmentOf session idle g first)))
        with (Z.of_nat (length (g_events g))).
      rewrite IH1, length_app.
      assert (1 <= length (g_events g))%nat by (destruct (g_events g); [done|simpl; lia]).
      repeat split; [lia | constructor; [simpl; lia|exact IH2] | lia]. }
  rewrite Hcat in Hsum. destruct Hsum as (H1 & H2 & H3).
  repeat split; trivial.
  - destruct rows; [|simpl; lia].
    destruct (groupByApp (buffer st)) eqn:Hg; [|discriminate].
    simpl in Hcat. by rewrite <- Hcat in Hbuf.
  - rewrite Htotal. by rewrite Hlen.
Qed.

Lemma linked_snoc (l : list EventGroup) (g1 g2 : EventGroup) :
  linked (l ++ [g1]) -> startsOtherApp g1 g2 -> linked (l ++ [g1; g2]).
Proof.
  induction l as [|a l IH]; simpl; [by split|].
  destruct l as [|b l]; simpl in *.
  - intros [H _] H2. by repeat split.
  - intros [H Hl] H2. split; [exact H|]. by apply IH.
Qed.

Lemma linked_last (l : list EventGroup) (c c' : EventGroup) :
  linked (l ++ [c]) ->
  (forall p, startsOtherApp p c -> startsOtherApp p c') ->
  linked (l ++ [c']).
Proof.
  induction l as [|a l IH]; simpl; [done|].
  destruct l as [|b l]; simpl in *.
  - intros [H _] Hc. split; [by apply Hc|done].
  - intros [H Hl] Hc. split; [exact H|]. by apply IH.
Qed.

Lemma linked_adjacent (l : list EventGroup) : forall before g1 g2 after,
  linked l -> l = before ++ g1 :: g2 :: after -> startsOtherApp g1 g2.
Proof.
  induction l as [|a l IH]; intros before g1 g2 after Hl Heq.
  - by destruct before.
  - destruct before as [|b before]; simpl in Heq; injection Heq as -> ->.
    + by destruct Hl.
    + apply (IH before g1 g2 after); [|reflexivity].
      destruct (before ++ g1 :: g2 :: after) eqn:E; [done|]. by destruct Hl.
Qed.

(** The run takes its app name and category from its first event. *)
Definition headed (g : EventGroup) : Prop :=
  exists first,
    head (g_events g) = Some first
    /\ g_appName g = appName first
    /\ g_appCategory g = appCategory first.

Definition grouped (st : list EventGroup * option EventGroup) : Prop :=
  Forall sameApp (closeGroups st)
  /\ Forall headed (closeGroups st)
  /\ linked (closeGroups st)
  /\ allNonEmpty (closeGroups st)
  /\ (snd st = None -> fst st = []).

Lemma groupStep_grouped st e : grouped st -> grouped (groupStep st e).
Proof.
  intros (Hsame & Hhead & Hlink & Hne & Hnone).
  pose proof (groupStep_nonempty st e Hne) as Hne'.
  destruct st as [groups [c|]]; unfold grouped, groupStep, closeGroups in *; simpl in *.
  - destruct (hasAppInfo e && truthyStr (appName e)
              && bool_decide (appName e <> g_appName c)) eqn:Hcond; simpl in *.
    + apply andb_true_iff in Hcond as [Hattr Hdiff].
      apply bool_decide_eq_true in Hdiff.
      repeat split; trivial; [| | |discriminate].
      * apply List.Forall_app. split; [exact Hsame|]. repeat constructor.
      * apply List.Forall_app. split; [exact Hhead|]. repeat constructor.
        by exists e.
      * rewrite <- app_assoc. apply linked_snoc; [exact Hlink|].
        exists e, []. by repeat split.
    + apply List.Forall_app in Hsame as [Hsame Hc].
      apply List.Forall_app in Hne as [_ Hcne].
      apply List.Forall_app in Hhead as [Hhead Hch].
      inversion Hc as [|? ? Hc' _]; subst. inversion Hcne as [|? ? Hcne' _]; subst.
      inversion Hch as [|? ? Hch' _]; subst.
      repeat split; trivial; [| | |discriminate].
      * apply List.Forall_app. split; [exact Hsame|]. constructor; [|constructor].
        unfold sameApp, pushEvent. simpl. apply List.Forall_app. split; [exact Hc'|].
        constructor; [|constructor]. intros Hattr. unfold attributed in Hattr.
        rewrite Hattr in Hcond. simpl in Hcond.
        apply bool_decide_eq_false in Hcond. by destruct (decide (appName e = g_appName c)).
      * apply List.Forall_app. split; [exact Hhead|]. constructor; [|constructor].
        destruct Hch' as (first & Hf & Hn & Hcat). exists first.
        unfold pushEvent. simpl. destruct (g_events c); [done|]. by repeat split.
      * apply (linked_last groups c); [exact Hlink|].
        intros p (e1 & rest & Hev & Ha & Hn & Hd).
        exists e1, (rest ++ [e]). unfold pushEvent. simpl. rewrite Hev. by repeat split.
  - rewrite (Hnone eq_refl) in *.
    destruct (hasAppInfo e && truthyStr (appName e) && true); simpl;
      repeat split; trivial; try discriminate; repeat constructor; by exists e.
Qed.

Lemma groupByApp_grouped evs : grouped (fold_left groupStep evs ([], None)).
Proof.
  assert (H : forall st, grouped st -> grouped (fold_left groupStep evs st)).
  { induction evs as [|e evs IH]; intros st Hst; simpl; [exact Hst|].
    apply IH, groupStep_grouped, Hst. }
  apply H. repeat split; constructor.
Qed.

(** X2. The runs of [groupByApp].  Within a run, every scene, visual or
    alert event that carries an app name carries the app name of the run.
    Of two runs that follow each other, the second starts with such an
    event, and its app name is not the app name of the first.  The app name
    and the category of a run are those of its first event. *)
Theorem runs_are_same_app_and_maximal (events : list RawEvent) :
  Forall sameApp (groupByApp events)
  /\ (forall before g1 g2 after,
        groupByApp events = before ++ g1 :: g2 :: after -> startsOtherApp g1 g2)
  /\ (forall g, In g (groupByApp events) ->
        exists first, head (g_events g) = Some first
                      /\ g_appName g = appName first
                      /\ g_appCategory g = appCategory first).
Proof.
  destruct (groupByApp_grouped events) as (Hsame & Hhead & Hlink & _).
  split; [exact Hsame|]. split.
  - intros before g1 g2 after Heq. by apply (linked_adjacent _ before g1 g2 after Hlink).
  - intros g Hin. rewrite List.Forall_forall in Hhead. by apply Hhead.
Qed.

Lemma length_slice0 (n : nat) (s : jsstring) : (length (slice0 n s) <= n)%nat.
Proof. unfold slice0. rewrite length_take. lia. Qed.

Lemma texts_from (keep : RawEvent -> bool) (events : list RawEvent) (t : jsstring) :
  In t (texts keep events) ->
  exists e, In e events /\ keep e = true /\ summaryText e = Some t.
Proof.
  unfold texts. intros Hin. apply list_elem_of_In, list_elem_of_omap in Hin.
  destruct Hin as (e & He & Ht). apply list_elem_of_In, filter_In in He as [He Hk].
  by exists e.
Qed.

(** X3. The fields of a flushed segment.  Every row of a flush carries the
    session that is active and the idle flag read at the flush.  Its
    primary app and category are those of the first event of its run, an
    empty app name being stored as absent.  Its context, when present, is
    the first 200 code units of a scene text of the run, and it is absent
    exactly when the run has no scene text.  Its transcript snippet, when
    present, is not empty and has at most 300 code units. *)
Theorem flushed_segment_fields (idle : bool) (st : State) (session : jsstring) :
  activeSessionId st = Some session ->
  nonEmpty session = true ->
  buffer st <> [] ->
  exists rows,
    segmentTable (flushToSegments idle st) = segmentTable st ++ rows
    /\ Forall2
         (fun g row =>
            seg_sessionId row = session
            /\ isIdle row = idle
            /\ (exists first, head (g_events g) = Some first
                  /\ primaryApp row = orUndefined (appName first)
                  /\ seg_appCategory row = appCategory first)
            /\ primaryApp row <> Some []
            /\ (forall c, context row = Some c ->
                  (length c <= 200)%nat
                  /\ exists e t, In e (g_events g) /\ isSceneText e = true
                                 /\ summaryText e = Some t /\ c = slice0 200 t)
            /\ (context row = None <-> texts isSceneText (g_events g) = [])
            /\ (forall t, transcriptSnippet row = Some t ->
                  t <> [] /\ (length t <= 300)%nat))
         (groupByApp (buffer st)) rows.
Proof.
  intros Hs Hne Hbuf.
  destruct (flush_rows idle st session Hs Hne Hbuf) as (rows & Htable & _ & Hrows).
  exists rows. split; [exact Htable|].
  destruct (groupByApp_grouped (buffer st)) as (_ & Hhead & _).
  change (closeGroups (fold_left groupStep (buffer st) ([], None)))
    with (groupByApp (buffer st)) in Hhead.
  clear Htable. generalize dependent (groupByApp (buffer st)). intros gs0 Hrows Hhead.
  induction Hrows as [|g row gs rows Hrow _ IH]; [constructor|].
  inversion Hhead as [|? ? Hg Hgs]; subst.
  constructor; [|by apply IH].
  destruct Hrow as (first & id & Hfirst & ->).
  destruct Hg as (first' & Hfirst' & Hname & Hcat).
  assert (first' = first) by congruence. subst first'.
  unfold stored, segmentOf.
  cbn [seg_sessionId isIdle primaryApp seg_appCategory context transcriptSnippet].
  split; [reflexivity|]. split; [reflexivity|]. split.
  { exists first. rewrite Hname, Hcat. by repeat split. }
  split.
  { unfold orUndefined, truthyStr. by destruct (g_appName g) as [[|x s]|]. }
  split.
  { intros c Hc.
    destruct (texts isSceneText (g_events g)) as [|t ts] eqn:Ht; [discriminate|].
    assert (Hc' : c = slice0 200 t).
    { change (Some (slice0 200 t) = Some c) in Hc. congruence. }
    subst c. split; [apply length_slice0|].
    destruct (texts_from isSceneText (g_events g) t) as (e & He & Hk & Htxt);
      [rewrite Ht; by left|].
    by exists e, t. }
  split.
  { by destruct (texts isSceneText (g_events g)). }
  intros t. unfold orUndefined, truthyStr.
  destruct (nonEmpty (slice0 300 (join (js " ") (texts isTranscriptText (g_events g)))))
    eqn:Hnz; [|discriminate].
  intros Ht. assert (Ht' : t = slice0 300 (join (js " ") (texts isTranscriptText (g_events g))))
    by congruence.
  subst t. split; [|apply length_slice0].
  intros Hnil. by rewrite Hnil in Hnz.
Qed.

Lemma flush_of_empty_buffer (idle : bool) (st : State) :
  buffer st = [] -> flushToSegments idle st = st.
Proof.
  intros Hb. unfold flushToSegments. rewrite Hb.
  destruct (activeSessionId st); [|reflexivity].
  rewrite bool_decide_eq_true_2 by reflexivity. by rewrite orb_true_r.
Qed.

Lemma flush_without_session (idle : bool) (st : State) :
  truthyStr (activeSessionId st) = false -> flushToSegments idle st = st.
Proof.
  unfold flushToSegments, truthyStr. destruct (activeSessionId st); [|reflexivity].
  by intros ->.
Qed.

(** X4. Flushing twice is flushing once.  A second [flushToSegments],
    whatever the idle flag, changes nothing; without an active session, or
    with an empty buffer, the first one changes nothing either. *)
Theorem flush_is_idempotent (idle idle' : bool) (st : State) :
  flushToSegments idle' (flushToSegments idle st) = flushToSegments idle st
  /\ (truthyStr (activeSessionId st) = false -> flushToSegments idle st = st)
  /\ (buffer st = [] -> flushToSegments idle st = st).
Proof.
  split; [|split; [apply flush_without_session|apply flush_of_empty_buffer]].
  destruct (truthyStr (activeSessionId st)) eqn:Hact.
  - apply flush_of_empty_buffer. by apply flush_empties_buffer.
  - rewrite (flush_without_session idle st Hact).
    by apply flush_without_session.
Qed.

(** X5. Stopping drains the buffer.  If the buffer is only filled while a
    session is active, then after [stopIngestion] the buffer is empty and
    no session is active; the segment table is the one a flush gives and
    the raw-event table is as before; and until a session is started again
    [ingestEvent] and [flushToSegments] change nothing. *)
Theorem stop_drains_the_buffer (idle : bool) (st : State) :
  bufferHasSession st ->
  let st' := stopIngestion idle st in
  buffer st' = []
  /\ activeSessionId st' = None
  /\ segmentTable st' = segmentTable (flushToSegments idle st)
  /\ rawEventTable st' = rawEventTable st
  /\ (forall now d raw, ingestEvent now d raw st' = st')
  /\ (forall idle', flushToSegments idle' st' = st').
Proof.
  intros Hinv. cbv zeta. unfold stopIngestion.
  assert (Hflush : buffer st <> [] -> buffer (flushToSegments idle st) = []).
  { intros Hb. apply flush_empties_buffer. by apply Hinv. }
  assert (Hraw : rawEventTable (flushToSegments idle st) = rawEventTable st).
  { unfold flushToSegments. destruct (activeSessionId st) as [session|]; [|reflexivity].
    destruct (negb (nonEmpty session) || bool_decide (buffer st = [])); [reflexivity|].
    by destruct (fold_left (flushGroup session idle) _ _). }
  destruct (buffer st) as [|e rest] eqn:Hbuf; simpl.
  - rewrite (flush_of_empty_buffer idle st Hbuf). by repeat split.
  - repeat split; trivial. by apply Hflush.
Qed.

Lemma flush_table_frame (idle : bool) (st : State) :
  rawEventTable (flushToSegments idle st) = rawEventTable st
  /\ (forall e, In e (buffer (flushToSegments idle st)) -> In e (buffer st)).
Proof.
  unfold flushToSegments. destruct (activeSessionId st) as [session|]; [|by split].
  destruct (negb (nonEmpty session) || bool_decide (buffer st = [])); [by split|].
  destruct (fold_left (flushGroup session idle) _ _). simpl. split; [reflexivity|].
  intros e [].
Qed.

(** X6. Buffered events are stored events.  That every buffered event is
    in the raw-event table holds after [startIngestion] and is kept by
    [ingestEvent], [flushToSegments] and [stopIngestion].  [ingestEvent]
    either changes nothing, or appends one and the same event, stamped with
    the clock and the active session, to the buffer and to the raw-event
    table, and advances [totalIngested] by one; it never touches the
    segment table. *)
Theorem buffered_events_are_persisted (st : State) :
  (forall session, bufferPersisted (startIngestion session st))
  /\ (bufferPersisted st ->
      (forall now d raw, bufferPersisted (ingestEvent now d raw st))
      /\ (forall idle, bufferPersisted (flushToSegments idle st))
      /\ (forall idle, bufferPersisted (stopIngestion idle st)))
  /\ (forall now d raw,
        ingestEvent now d raw st = st
        \/ exists e, buffer (ingestEvent now d raw st) = buffer st ++ [e]
                     /\ rawEventTable (ingestEvent now d raw st) = rawEventTable st ++ [e]
                     /\ timestamp e = now
                     /\ Some (sessionId e) = activeSessionId st
                     /\ totalIngested (ingestEvent now d raw st) = totalIngested st + 1
                     /\ segmentTable (ingestEvent now d raw st) = segmentTable st).
Proof.
  unfold bufferPersisted. split; [intros session e []|]. split.
  - intros Hinv. split; [|split].
    + intros now d raw e. unfold ingestEvent.
      destruct (activeSessionId st) as [session|]; [|apply Hinv].
      destruct (nonEmpty session); [|apply Hinv].
      destruct d as [d|]; [|apply Hinv]. simpl. unfold insertRawEvent.
      rewrite !in_app_iff. intros [H|H]; [left; by apply Hinv|by right].
    + intros idle e He. destruct (flush_table_frame idle st) as [-> Hsub].
      by apply Hinv, Hsub.
    + intros idle e. unfold stopIngestion.
      destruct (flush_table_frame idle st) as [Hraw Hsub].
      destruct (buffer st) eqn:Hb; simpl; [by rewrite Hb|].
      rewrite Hraw. intros He. by apply Hinv, Hsub.
  - intros now d raw. unfold ingestEvent.
    destruct (activeSessionId st) as [session|]; [|by left].
    destruct (nonEmpty session); [|by left].
    destruct d as [d|]; [|by left]. right. eexists. simpl. by repeat split.
Qed.

Definition arrival (m : Z * option Dispatched * jsstring) : Z := fst (fst m).

Lemma ingestAll_cons m feed st :
  ingestAll (m :: feed) st
  = ingestAll feed (ingestEvent (arrival m) (snd (fst m)) (snd m) st).
Proof. by destruct m as [[now d] raw]. Qed.

Lemma ingestAll_sorted feed : forall st,
  StronglySorted Z.le (List.map arrival feed) ->
  Sorted Z.le (List.map timestamp (buffer st)) ->
  (forall t, In t (List.map arrival feed) ->
     Forall (fun e => timestamp e <= t) (buffer st)) ->
  Sorted Z.le (List.map timestamp (buffer (ingestAll feed st)))
  /\ segmentTable (ingestAll feed st) = segmentTable st
  /\ activeSessionId (ingestAll feed st) = activeSessionId st.
Proof.
  induction feed as [|m feed IH]; intros st Hfeed Hbuf Hle; [by repeat split|].
  rewrite ingestAll_cons. simpl in Hfeed. inversion Hfeed as [|? ? Hrest Hhead]; subst.
  destruct (ingestEvent_keeps_order (arrival m) (snd (fst m)) (snd m) st Hbuf)
    as [Hsorted Hnow]; [apply Hle; by left|].
  destruct (IH (ingestEvent (arrival m) (snd (fst m)) (snd m) st) Hrest Hsorted)
    as (H1 & H2 & H3).
  { intros t Ht. rewrite List.Forall_forall in Hhead. specialize (Hhead t Ht).
    eapply List.Forall_impl; [|exact Hnow]. simpl. intros e He. lia. }
  split; [exact H1|]. rewrite H2, H3. unfold ingestEvent.
  destruct (activeSessionId st) as [session|] eqn:Hs; [|by split].
  destruct (nonEmpty session); [|by split].
  destruct (snd (fst m)); by split.
Qed.

Lemma flush_ordered (idle : bool) (st : State) :
  Sorted Z.le (List.map timestamp (buffer st)) ->
  exists rows,
    segmentTable (flushToSegments idle st) = segmentTable st ++ rows
    /\ Forall (fun s => startTime s <= endTime s) rows
    /\ StronglySorted endsBefore rows.
Proof.
  intros Hsorted.
  assert (Hnone : exists rows,
             segmentTable st = segmentTable st ++ rows
             /\ Forall (fun s => startTime s <= endTime s) rows
             /\ StronglySorted endsBefore rows).
  { exists []. rewrite app_nil_r. repeat split; constructor. }
  unfold flushToSegments.
  destruct (activeSessionId st) as [session|]; [|exact Hnone].
  destruct (negb (nonEmpty session) || bool_decide (buffer st = [])); [exact Hnone|].
  destruct (flushGroup_fold session idle (groupByApp (buffer st))
              (segmentTable st) 0 (groupByApp_nonempty _))
    as (rows & Hfold & Hcov & _).
  exists rows. rewrite Hfold. simpl.
  apply Sorted_StronglySorted in Hsorted; [|intros x y z; lia].
  rewrite <- (groupByApp_concat (buffer st)) in Hsorted.
  destruct (covers_ordered _ _ Hcov Hsorted) as [H1 H2]. by repeat split.
Qed.

(** X7. Messages that arrive in clock order give segments in time order.
    When the messages of a feed arrive at clock values that do not decrease,
    the buffer filled from the start of a session is ordered by timestamp,
    and the rows a flush appends each start no later than they end and
    each end no later than the next one starts. *)
Theorem feed_in_clock_order_gives_ordered_segments
    (session : jsstring) (st0 : State)
    (feed : list (Z * option Dispatched * jsstring)) (idle : bool) :
  Sorted Z.le (List.map arrival feed) ->
  let st := ingestAll feed (startIngestion session st0) in
  Sorted Z.le (List.map timestamp (buffer st))
  /\ exists rows,
       segmentTable (flushToSegments idle st) = segmentTable st0 ++ rows
       /\ Forall (fun s => startTime s <= endTime s) rows
       /\ StronglySorted endsBefore rows.
Proof.
  intros Hfeed. cbv zeta.
  apply Sorted_StronglySorted in Hfeed; [|intros x y z; lia].
  destruct (ingestAll_sorted feed (startIngestion session st0) Hfeed)
    as (Hsorted & Htable & _); [constructor | intros t _; constructor |].
  split; [exact Hsorted|].
  destruct (flush_ordered idle _ Hsorted) as (rows & Hrows & H1 & H2).
  exists rows. rewrite Hrows, Htable. by repeat split.
Qed.

(** *** Concrete runs *)

Definition sceneMessage (app text : string) : option Dispatched :=
  Some {| d_channel := scene_index; d_appName := Some (js app);
          d_appCategory := Some development; d_summaryText := Some (js text) |}.

Definition transcriptMessage (text : string) : option Dispatched :=
  Some {| d_channel := transcript; d_appName := None;
          d_appCategory := None; d_summaryText := Some (js text) |}.

(** Two scene events, a discarded message, a transcript and a scene event
    for another app. *)
Definition sampleFeed : list (Z * option Dispatched * jsstring) :=
  [ (1000, sceneMessage "VS Code" "focusd - VS Code | editing code", js "{}");
    (1000, sceneMessage "VS Code" "focusd - VS Code | editing code", js "{}");
    (1010, None, js "{}");
    (1020, transcriptMessage "ship it", js "{}");
    (1030, sceneMessage "Chrome" "Chrome | browsing docs", js "{}") ].

Definition emptyState : State :=
  {| buffer := []; activeSessionId := None; totalIngested := 0; totalFlushed := 0;
     rawEventTable := []; segmentTable := [] |}.

Lemma flush_counts_every_event_witness :
  exists rows,
    segmentTable (flushToSegments false sampleState) = segmentTable sampleState ++ rows
    /\ fold_right Z.add 0 (List.map eventCount rows)
       = Z.of_nat (length (buffer sampleState))
    /\ Forall (fun row => 1 <= eventCount row) rows
    /\ (1 <= length rows <= length (buffer sampleState))%nat
    /\ totalFlushed (flushToSegments false sampleState)
       = totalFlushed sampleState + Z.of_nat (length rows).
Proof.
  apply (flush_counts_every_event false sampleState (js "s1"));
    [reflexivity | reflexivity | discriminate].
Defined.

Lemma runs_are_same_app_and_maximal_witness :
  exists g1 g2 after,
    groupByApp sampleBuffer = g1 :: g2 :: after /\ startsOtherApp g1 g2.
Proof.
  destruct (groupByApp sampleBuffer) as [|g1 [|g2 after]] eqn:H;
    [vm_compute in H; discriminate..|].
  exists g1, g2, after. split; [reflexivity|].
  exact (proj1 (proj2 (runs_are_same_app_and_maximal sampleBuffer)) [] g1 g2 after H).
Defined.

Lemma flushed_segment_fields_witness :
  exists rows,
    segmentTable (flushToSegments true sampleState) = segmentTable sampleState ++ rows
    /\ Forall2
         (fun g row =>
            seg_sessionId row = js "s1"
            /\ isIdle row = true
            /\ (exists first, head (g_events g) = Some first
                  /\ primaryApp row = orUndefined (appName first)
                  /\ seg_appCategory row = appCategory first)
            /\ primaryApp row <> Some []
            /\ (forall c, context row = Some c ->
                  (length c <= 200)%nat
                  /\ exists e t, In e (g_events g) /\ isSceneText e = true
                                 /\ summaryText e = Some t /\ c = slice0 200 t)
            /\ (context row = None <-> texts isSceneText (g_events g) = [])
            /\ (forall t, transcriptSnippet row = Some t ->
                  t <> [] /\ (length t <= 300)%nat))
         (groupByApp (buffer sampleState)) rows.
Proof.
  apply (flushed_segment_fields true sampleState (js "s1"));
    [reflexivity | reflexivity | discriminate].
Defined.

Lemma flush_is_idempotent_witness :
  flushToSegments true emptyState = emptyState.
Proof.
  apply (proj1 (proj2 (flush_is_idempotent true false emptyState))). reflexivity.
Defined.

Lemma stop_drains_the_buffer_witness :
  let st' := stopIngestion false sampleState in
  buffer st' = []
  /\ activeSessionId st' = None
  /\ segmentTable st' = segmentTable (flushToSegments false sampleState)
  /\ rawEventTable st' = rawEventTable sampleState
  /\ (forall now d raw, ingestEvent now d raw st' = st')
  /\ (forall idle', flushToSegments idle' st' = st').
Proof.
  apply (stop_drains_the_buffer false sampleState). intros _. reflexivity.
Defined.

Lemma buffered_events_are_persisted_witness :
  bufferPersisted (ingestEvent 1400 (transcriptMessage "done") (js "{}") sampleState).
Proof.
  destruct (buffered_events_are_persisted sampleState) as (_ & Hkept & _).
  destruct Hkept as (Hingest & _).
  - intros e He. vm_compute in He. vm_compute. exact He.
  - exact (Hingest 1400 (transcriptMessage "done") (js "{}")).
Defined.

Lemma feed_in_clock_order_gives_ordered_segments_witness :
  let st := ingestAll sampleFeed (startIngestion (js "s1") emptyState) in
  Sorted Z.le (List.map timestamp (buffer st))
  /\ exists rows,
       segmentTable (flushToSegments false st) = segmentTable emptyState ++ rows
       /\ Forall (fun s => startTime s <= endTime s) rows
       /\ StronglySorted endsBefore rows.
Proof.
  apply (feed_in_clock_order_gives_ordered_segments (js "s1") emptyState sampleFeed false).
  unfold sampleFeed, arrival. simpl. repeat first [apply Sorted_cons | apply Sorted_nil
                      | apply HdRel_cons | apply HdRel_nil | lia].
Defined.

Example sample_feed_segments :
  List.map (fun s => (startTime s, endTime s, eventCount s))
    (segmentTable (flushToSegments false
       (ingestAll sampleFeed (startIngestion (js "s1") emptyState))))
  = [(1000, 1020, 3); (1030, 1030, 1)].
Proof. vm_compute. reflexivity. Qed.

End IngestionExtras.

(* ===================================================================== *)
(** ** Facts about the scene and alert classification *)
(* ===================================================================== *)

Module SceneParserFacts.
Import JS Regex Classifier Ingestion SceneParser ClassifierFacts.

(** An expression without [$]: whether it matches at a position does not
    depend on where the input ends. *)
Fixpoint anchorFree (r : re) : bool :=
  match r with
  | Eol => false
  | Opt r1 => anchorFree r1
  | Seq r1 r2 | Alt r1 r2 => anchorFree r1 && anchorFree r2
  | Eps | Cls _ | Rep _ _ => true
  end.

(** The counters of a freshly loaded module. *)
Definition initialCounters : Counters :=
  {| parseCallCount := 0; otherCount := 0 |}.

(** [parseSceneIndex] called on each text in turn. *)
Fixpoint parseAll (texts : list jsstring) (k : Counters) : list ParsedScene * Counters :=
  match texts with
  | [] => ([], k)
  | text :: rest =>
      let '(p, k1) := parseSceneIndex text k in
      let '(ps, k2) := parseAll rest k1 in
      (p :: ps, k2)
  end.

(** A call that counts as a miss: a non-empty text classified [other]. *)
Definition isMiss (text : jsstring) : bool :=
  nonEmpty text
  && bool_decide (ps_category (fst (parseSceneIndex text initialCounters)) = other).

(** The canonical spelling of a keyword: its words separated by one space. *)
Definition spelled (words : list string) : jsstring :=
  join (js " ") (List.map js words).

Lemma repClass_zero p s : In (0%nat, s) (repClass p s).
Proof.
  destruct s as [|c s]; simpl; [by left|].
  destruct (p c); [apply in_app_iff; right|]; by left.
Qed.

Lemma repClass_app p t s : forall k r,
  In (k, r) (repClass p s) -> In (k, r ++ t) (repClass p (s ++ t)).
Proof.
  induction s as [|c s IH]; intros k r; simpl.
  - intros [[= <- <-]|[]]. apply repClass_zero.
  - destruct (p c).
    + rewrite !in_app_iff, !in_map_iff.
      intros [[[k' r'] [[= <- <-] Hin]]|[[= <- <-]|[]]].
      * left. exists (k', r' ++ t). split; [reflexivity|by apply IH].
      * right. by left.
    + intros [[= <- <-]|[]]. by left.
Qed.

Lemma matches_app r t : anchorFree r = true ->
  forall s rest, In rest (matches r s) -> In (rest ++ t) (matches r (s ++ t)).
Proof.
  induction r as [| |p|p n|r IH|r1 IH1 r2 IH2|r1 IH1 r2 IH2]; simpl; intros Hfree s rest.
  - intros [<-|[]]. by left.
  - discriminate.
  - destruct s as [|c s]; [intros []|]. simpl. destruct (p c); [|intros []].
    intros [<-|[]]. by left.
  - rewrite !in_map_iff. intros [[k r] [<- Hin]].
    apply filter_In in Hin as [Hin Hk].
    exists (k, r ++ t). split; [reflexivity|].
    apply filter_In. split; [by apply repClass_app|done].
  - rewrite !in_app_iff. intros [H|[<-|[]]]; [left; by apply IH|right; by left].
  - apply andb_true_iff in Hfree as [H1 H2].
    rewrite !in_flat_map. intros (s1 & Hs1 & Hs2).
    exists (s1 ++ t). split; [by apply IH1|by apply IH2].
  - apply andb_true_iff in Hfree as [H1 H2].
    rewrite !in_app_iff. intros [H|H]; [left; by apply IH1|right; by apply IH2].
Qed.

Lemma testAtStart_app r s t :
  anchorFree r = true -> testAtStart r s = true -> testAtStart r (s ++ t) = true.
Proof.
  unfold testAtStart. intros Hfree H.
  destruct (matches r s) as [|x l] eqn:Hm; [discriminate|].
  assert (Hin : In (x ++ t) (matches r (s ++ t))).
  { apply matches_app; [done|]. rewrite Hm. by left. }
  by destruct (matches r (s ++ t)).
Qed.

Lemma test_unfold r s :
  test r s = testAtStart r s || match s with _ :: s' => test r s' | [] => false end.
Proof. by destruct s. Qed.

Lemma test_app_r r s t :
  anchorFree r = true -> test r s = true -> test r (s ++ t) = true.
Proof.
  intros Hfree. induction s as [|c s IH]; rewrite test_unfold.
  - rewrite orb_false_r. intros H. rewrite test_unfold.
    apply orb_true_iff. left. by apply (testAtStart_app r [] t).
  - intros H. apply orb_true_iff in H as [H|H]; simpl; apply orb_true_iff.
    + left. by apply (testAtStart_app r (c :: s) t).
    + right. by apply IH.
Qed.

Lemma test_app_l r q s : test r s = true -> test r (q ++ s) = true.
Proof.
  intros H. induction q as [|c q IH]; [done|].
  simpl. apply orb_true_iff. by right.
Qed.

Lemma test_in_context r q s t :
  anchorFree r = true -> test r s = true -> test r (q ++ s ++ t) = true.
Proof. intros Hfree H. apply test_app_l. by apply test_app_r. Qed.

(** [find] returns an element at or before any position that satisfies the
    test. *)
Lemma find_at_or_before {A} (f : A -> bool) (l : list A) : forall j x,
  l !! j = Some x -> f x = true ->
  exists i y, (i <= j)%nat /\ l !! i = Some y /\ List.find f l = Some y.
Proof.
  induction l as [|a l IH]; intros j x Hj Hx; [done|].
  simpl. destruct (f a) eqn:Ha.
  - exists 0%nat, a. split; [lia|by split].
  - destruct j as [|j]; simpl in Hj; [congruence|].
    destruct (IH _ _ Hj Hx) as (i & y & Hi & Hy & Hfind).
    exists (S i), y. split; [lia|by split].
Qed.

Definition wellFormed (r : AppRule) : bool :=
  anchorFree (pattern r) && negb (bool_decide (category r = other))
  && nonEmpty (name r).

Lemma rules_checked : forallb wellFormed APP_RULES = true.
Proof. vm_compute. reflexivity. Qed.

Lemma rules_well_formed :
  Forall (fun r => anchorFree (pattern r) = true /\ category r <> other
                   /\ nonEmpty (name r) = true) APP_RULES.
Proof.
  apply List.Forall_forall. intros r Hr.
  pose proof rules_checked as H. rewrite forallb_forall in H. specialize (H r Hr).
  unfold wellFormed in H. apply andb_true_iff in H as [H Hname].
  apply andb_true_iff in H as [Hfree Hcat].
  apply negb_true_iff, bool_decide_eq_false in Hcat. done.
Qed.

Lemma matchApp_rule text r :
  matchApp text = Some r ->
  In r APP_RULES /\ category r <> other /\ nonEmpty (name r) = true.
Proof.
  intros H. apply find_some in H as [Hin _]. split; [done|].
  pose proof rules_well_formed as Hwf. rewrite List.Forall_forall in Hwf.
  by destruct (Hwf _ Hin) as (_ & ? & ?).
Qed.

Lemma rule_of_table r :
  In r APP_RULES ->
  exists alternatives n c,
    In (alternatives, n, c) RULE_TABLE /\ name r = js n /\ category r = c.
Proof.
  unfold APP_RULES. rewrite in_map_iff. intros [[[a n] c] [<- Hin]].
  by exists a, n, c.
Qed.


(** [find] returns the first element that satisfies the test. *)
Lemma find_first {A} (f : A -> bool) (l : list A) (y : A) :
  List.find f l = Some y ->
  exists i, l !! i = Some y /\ f y = true
    /\ forall i' x, (i' < i)%nat -> l !! i' = Some x -> f x = false.
Proof.
  induction l as [|a l IH]; [done|]. simpl. destruct (f a) eqn:Ha.
  - intros [= <-]. exists 0%nat. split; [done|]. split; [done|]. intros; lia.
  - intros H. destruct (IH H) as (i & Hi & Hy & Hbefore).
    exists (S i). split; [done|]. split; [done|].
    intros [|i'] x Hlt Hx; simpl in Hx; [congruence|].
    apply (Hbefore i'); [lia|done].
Qed.

(** A class that does not tell an ASCII capital from its small letter. *)
Definition caseBlindClass (p : N -> bool) : Prop :=
  forall c, p (lowerUnit c) = p c.

Inductive caseBlind : re -> Prop :=
| cb_eps : caseBlind Eps
| cb_eol : caseBlind Eol
| cb_cls p : caseBlindClass p -> caseBlind (Cls p)
| cb_rep p n : caseBlindClass p -> caseBlind (Rep p n)
| cb_opt r : caseBlind r -> caseBlind (Opt r)
| cb_seq r1 r2 : caseBlind r1 -> caseBlind r2 -> caseBlind (Seq r1 r2)
| cb_alt r1 r2 : caseBlind r1 -> caseBlind r2 -> caseBlind (Alt r1 r2).

Lemma lowerUnit_idem c : lowerUnit (lowerUnit c) = lowerUnit c.
Proof.
  unfold lowerUnit. destruct (isUpper c) eqn:Hc; [|by rewrite Hc].
  assert (isUpper (c + 32) = false) as ->; [|done].
  unfold isUpper in *. apply andb_true_iff in Hc as [H1 H2].
  apply N.leb_le in H1, H2. apply andb_false_iff. right. apply N.leb_gt. lia.
Qed.

Lemma unitCI_caseBlind x : caseBlind (unitCI x).
Proof. constructor. intros c. by rewrite lowerUnit_idem. Qed.

Lemma isSpace_caseBlind : caseBlindClass isSpace.
Proof.
  intros c. unfold lowerUnit. destruct (isUpper c) eqn:Hc; [|done].
  unfold isUpper in Hc. apply andb_true_iff in Hc as [H1 H2].
  apply N.leb_le in H1, H2.
  assert (Hno : forall d, (65 <= d <= 122)%N -> isSpace d = false).
  { intros d Hd. unfold isSpace.
    repeat (apply orb_false_iff; split);
      try (apply N.eqb_neq; lia);
      apply andb_false_iff; [right|left]; apply N.leb_gt; lia. }
  rewrite !Hno; [done|lia..].
Qed.

Lemma litCI_caseBlind w : caseBlind (litCI w).
Proof.
  unfold litCI. induction (js w) as [|x l IH]; simpl; [constructor|].
  constructor; [apply unitCI_caseBlind|done].
Qed.

Lemma phrase_caseBlind words : caseBlind (phrase words).
Proof.
  destruct words as [|w rest]; [constructor|]. simpl.
  generalize (litCI_caseBlind w). generalize (litCI w).
  induction rest as [|w' rest IH]; intros r Hr; simpl; [done|].
  apply IH. constructor; [done|]. constructor; [|apply litCI_caseBlind].
  constructor. apply isSpace_caseBlind.
Qed.

Lemma alts_caseBlind rs : Forall caseBlind rs -> caseBlind (alts rs).
Proof.
  destruct 1 as [|r rest Hr Hrest]; simpl; [by constructor|].
  revert r Hr. induction Hrest as [|r' rest Hr' _ IH]; intros r Hr; simpl; [done|].
  apply IH. by constructor.
Qed.

Lemma rule_caseBlind r : In r APP_RULES -> caseBlind (pattern r).
Proof.
  unfold APP_RULES. rewrite in_map_iff. intros [[[a n] c] [<- _]]. simpl.
  apply alts_caseBlind. apply Forall_forall. intros r.
  rewrite list_elem_of_In, in_map_iff. intros [w [<- _]]. apply phrase_caseBlind.
Qed.

Lemma repClass_lower p s : caseBlindClass p ->
  repClass p (toLowerCase s)
  = List.map (fun '(k, r) => (k, toLowerCase r)) (repClass p s).
Proof.
  intros Hp. induction s as [|c s IH]; [done|].
  simpl. rewrite Hp. destruct (p c); [|done].
  rewrite IH, List.map_app, !List.map_map. simpl. f_equal.
  apply map_ext. by intros [k r].
Qed.

Lemma matches_lower r : caseBlind r ->
  forall s, matches r (toLowerCase s) = List.map toLowerCase (matches r s).
Proof.
  induction 1 as [| |p Hp|p n Hp|r _ IH|r1 r2 _ IH1 _ IH2|r1 r2 _ IH1 _ IH2];
    intros s; simpl.
  - done.
  - by destruct s.
  - destruct s as [|c s]; [done|]. simpl. rewrite Hp. by destruct (p c).
  - rewrite repClass_lower by done.
    induction (repClass p s) as [|[k r] l IHl]; [done|].
    simpl. destruct (n <=? k)%nat; simpl; by rewrite IHl.
  - by rewrite IH, List.map_app.
  - rewrite IH1. induction (matches r1 s) as [|x l IHl]; [done|].
    simpl. by rewrite List.map_app, IH2, IHl.
  - by rewrite IH1, IH2, List.map_app.
Qed.

Lemma testAtStart_lower r s :
  caseBlind r -> testAtStart r (toLowerCase s) = testAtStart r s.
Proof.
  intros Hr. unfold testAtStart. rewrite matches_lower by done.
  by destruct (matches r s).
Qed.

Lemma test_lower r s : caseBlind r -> test r (toLowerCase s) = test r s.
Proof.
  intros Hr. induction s as [|c s IH].
  - rewrite !test_unfold. by rewrite testAtStart_lower.
  - rewrite (test_unfold r (c :: s)), <- IH, <- (testAtStart_lower r (c :: s)) by done.
    done.
Qed.

Lemma find_ext_in {A} (f g : A -> bool) (l : list A) :
  (forall x, In x l -> f x = g x) -> List.find f l = List.find g l.
Proof.
  induction l as [|a l IH]; intros H; [done|]. simpl.
  rewrite (H a) by (by left). destruct (g a); [done|].
  apply IH. intros x Hx. apply H. by right.
Qed.

Lemma matchApp_lower text : matchApp (toLowerCase text) = matchApp text.
Proof.
  unfold matchApp. apply find_ext_in. intros r Hr.
  apply test_lower. by apply rule_caseBlind.
Qed.

(** X8. A keyword is recognised wherever it stands.  If the pattern of the
    rule at position [j] of [APP_RULES] is found in [kw], then [matchApp]
    on any text that contains [kw] returns a rule, at a position [i] no
    later than [j]; the pattern of no rule before [i] is found in the text,
    and the category of the rule returned is not [other]. *)
Theorem keyword_found_in_any_context (j : nat) (r : AppRule)
    (kw before after : jsstring) :
  APP_RULES !! j = Some r ->
  test (pattern r) kw = true ->
  exists i r',
    (i <= j)%nat
    /\ APP_RULES !! i = Some r'
    /\ matchApp (before ++ kw ++ after) = Some r'
    /\ (forall i' x, (i' < i)%nat -> APP_RULES !! i' = Some x ->
          test (pattern x) (before ++ kw ++ after) = false)
    /\ category r' <> other.
Proof.
  intros Hj Hkw.
  assert (Hfree : anchorFree (pattern r) = true).
  { pose proof rules_well_formed as Hwf. rewrite List.Forall_forall in Hwf.
    apply list_elem_of_lookup_2, list_elem_of_In in Hj. by destruct (Hwf _ Hj). }
  pose proof (test_in_context _ before kw after Hfree Hkw) as Htest.
  destruct (find_at_or_before (fun r => test (pattern r) (before ++ kw ++ after))
              APP_RULES j r Hj Htest) as (i0 & y & _ & _ & Hfind).
  destruct (find_first _ _ _ Hfind) as (i & Hi & Hy & Hbefore).
  exists i, y. split.
  { destruct (decide (i <= j)%nat) as [|Hgt]; [done|].
    rewrite (Hbefore j r) in Htest; [done|lia|done]. }
  split; [done|]. split; [done|]. split; [done|].
  by destruct (matchApp_rule _ _ Hfind) as (_ & ? & _).
Qed.

Lemma keyword_found_in_any_context_witness :
  exists i r',
    (i <= 7)%nat
    /\ APP_RULES !! i = Some r'
    /\ matchApp (js "Browsing docs in " ++ js "Chrome" ++ js " on the left") = Some r'
    /\ (forall i' x, (i' < i)%nat -> APP_RULES !! i' = Some x ->
          test (pattern x) (js "Browsing docs in " ++ js "Chrome" ++ js " on the left")
          = false)
    /\ category r' <> other.
Proof.
  apply (keyword_found_in_any_context 7
           (rule ([["chrome"]; ["chromium"]], "Chrome", browsing)%string)
           (js "Chrome") (js "Browsing docs in ") (js " on the left"));
    vm_compute; reflexivity.
Defined.

(** X9. [matchApp] does not tell ASCII capitals from small letters: two
    texts with the same lower-casing are given the same rule. *)
Theorem matchApp_ignores_case (a b : jsstring) :
  toLowerCase a = toLowerCase b -> matchApp a = matchApp b.
Proof. intros H. by rewrite <- (matchApp_lower a), <- (matchApp_lower b), H. Qed.

Lemma matchApp_ignores_case_witness :
  matchApp (js "SLACK huddle") = matchApp (js "slack Huddle").
Proof. apply matchApp_ignores_case. vm_compute. reflexivity. Defined.

(** The check that a keyword, spelled with single spaces, is given the name
    [n] and the category [c]. *)
Definition selects (n : string) (c : AppCategory) (words : list string) : bool :=
  match matchApp (spelled words) with
  | Some r => bool_decide (name r = js n) && bool_decide (category r = c)
  | None => false
  end.

Lemma table_checked :
  forallb (fun entry : list (list string) * string * AppCategory =>
             let '(alternatives, n, c) := entry in forallb (selects n c) alternatives)
          RULE_TABLE = true.
Proof. vm_compute. reflexivity. Qed.

(** X10. No rule of the table is dead: every keyword of every rule, spelled
    with single spaces, is given the canonical name and the category of its
    own rule, although the patterns of earlier rules are tried first. *)
Theorem every_keyword_selects_its_rule
    (alternatives : list (list string)) (n : string) (c : AppCategory)
    (words : list string) :
  In (alternatives, n, c) RULE_TABLE ->
  In words alternatives ->
  exists r, matchApp (spelled words) = Some r /\ name r = js n /\ category r = c.
Proof.
  intros Hentry Hwords. pose proof table_checked as H.
  rewrite forallb_forall in H. specialize (H _ Hentry). simpl in H.
  rewrite forallb_forall in H. specialize (H _ Hwords).
  unfold selects in H. destruct (matchApp (spelled words)) as [r|]; [|done].
  apply andb_true_iff in H as [H1 H2].
  apply bool_decide_eq_true in H1, H2. by exists r.
Qed.

Lemma every_keyword_selects_its_rule_witness :
  exists r, matchApp (spelled ["google"; "sheets"]%string) = Some r
            /\ name r = js "Spreadsheets" /\ category r = documents.
Proof.
  apply (every_keyword_selects_its_rule
           [["google"; "sheets"]; ["excel"]; ["numbers"]]%string
           "Spreadsheets" documents ["google"; "sheets"]%string).
  - vm_compute. do 27 right. left. reflexivity.
  - vm_compute. left. reflexivity.
Defined.

(** [parseSceneIndex] returns a scene that does not depend on the counters. *)
Lemma parseSceneIndex_scene text k :
  fst (parseSceneIndex text k) = fst (parseSceneIndex text initialCounters).
Proof.
  unfold parseSceneIndex. destruct text as [|c text]; [done|].
  destruct (exec pipePattern (c :: text) ≫= structured); [done|].
  by destruct (exec dashPattern (c :: text) ≫= structured).
Qed.

Lemma countOther_spec c k :
  countOther c k
  = {| parseCallCount := parseCallCount k;
       otherCount := otherCount k + (if bool_decide (c = other) then 1 else 0) |}.
Proof. destruct k as [n m]. destruct c; simpl; f_equal; lia. Qed.

Lemma parseSceneIndex_counters text k :
  snd (parseSceneIndex text k)
  = {| parseCallCount := parseCallCount k + 1;
       otherCount := otherCount k + (if isMiss text then 1 else 0) |}.
Proof.
  unfold isMiss. rewrite <- (parseSceneIndex_scene text k).
  unfold parseSceneIndex. destruct text as [|c text].
  { simpl. f_equal. lia. }
  generalize (exec pipePattern (c :: text) ≫= structured).
  generalize (exec dashPattern (c :: text) ≫= structured).
  generalize (nameOr (matchApp (c :: text)) (extractFirstPhrase (c :: text))).
  generalize (categoryOr (matchApp (c :: text))).
  intros cat nm [p2|] [p1|]; simpl; by rewrite countOther_spec.
Qed.

Lemma parseAll_spec texts : forall k,
  fst (parseAll texts k)
  = List.map (fun text => fst (parseSceneIndex text initialCounters)) texts
  /\ snd (parseAll texts k)
     = {| parseCallCount := parseCallCount k + Z.of_nat (length texts);
          otherCount := otherCount k + Z.of_nat (length (List.filter isMiss texts)) |}.
Proof.
  induction texts as [|text rest IH]; intros k; simpl.
  { split; [done|]. destruct k; simpl; f_equal; lia. }
  pose proof (parseSceneIndex_scene text k) as Hscene.
  pose proof (parseSceneIndex_counters text k) as Hcount.
  destruct (parseSceneIndex text k) as [p k1]. simpl in Hscene, Hcount.
  specialize (IH k1). destruct (parseAll rest k1) as [ps k2]. simpl in *.
  destruct IH as [-> ->]. split; [by rewrite Hscene|].
  rewrite Hcount. simpl. destruct (isMiss text); simpl; f_equal; lia.
Qed.

(** X11. The parse statistics.  After [parseSceneIndex] has been called on
    the texts of a list, starting from a freshly loaded module,
    [getParseStats] reports as [totalParsed] the number of calls and as
    [totalOther] the number of calls on a non-empty text that was classified
    [other]; so [totalOther] never exceeds [totalParsed].  The scenes
    returned do not depend on the counters. *)
Theorem parse_statistics (texts : list jsstring) :
  let '(scenes, k) := parseAll texts initialCounters in
  getParseStats k
  = (Z.of_nat (length texts), Z.of_nat (length (List.filter isMiss texts)))
  /\ 0 <= otherCount k <= parseCallCount k
  /\ forall k', fst (parseAll texts k') = scenes.
Proof.
  pose proof (parseAll_spec texts) as H.
  destruct (parseAll texts initialCounters) as [scenes k] eqn:Hk.
  pose proof (H initialCounters) as [Hs Hc]. rewrite Hk in Hs, Hc. simpl in Hs, Hc.
  subst k. unfold getParseStats. simpl. split; [done|]. split.
  - pose proof (filter_length_le isMiss texts) as Hle.
    change (filter isMiss texts) with (List.filter isMiss texts) in Hle. lia.
  - intros k'. destruct (H k') as [-> _]. done.
Qed.

Lemma matched_rule_of_table text d :
  categoryOr (matchApp text) <> other ->
  exists alternatives n,
    In (alternatives, n, categoryOr (matchApp text)) RULE_TABLE
    /\ nameOr (matchApp text) d = js n.
Proof.
  destruct (matchApp text) as [r|] eqn:Hm; simpl; [intros _|done].
  destruct (matchApp_rule _ _ Hm) as (Hin & _ & Hname).
  destruct (rule_of_table _ Hin) as (a & n & c & Htable & Hn & Hc).
  exists a, n. rewrite Hname, Hc. by split.
Qed.

Lemma structured_scene c p :
  structured c = Some p ->
  exists text d,
    ps_appName p = nameOr (matchApp text) d
    /\ ps_category p = categoryOr (matchApp text)
    /\ ps_action p <> None.
Proof.
  unfold structured. destruct (group 1 c) as [g1|]; [|done].
  destruct (group 2 c) as [g2|]; [|done]. intros [= <-]. simpl. eauto.
Qed.

(** X12. What a classified scene is.  A call on the empty text returns the
    app [Unknown] with the category [other] and neither action nor
    details.  Whenever the category returned is not [other], the app name
    and the category are the canonical name and the category of one rule of
    the table; a scene without an action has the whole text as its
    details. *)
Theorem classified_scene_comes_from_a_rule (text : jsstring) (k : Counters) :
  let scene := fst (parseSceneIndex text k) in
  (text = [] ->
     scene = {| ps_appName := js "Unknown"; ps_category := other;
                ps_action := None; ps_details := None |})
  /\ (ps_category scene <> other ->
        exists alternatives n,
          In (alternatives, n, ps_category scene) RULE_TABLE
          /\ ps_appName scene = js n)
  /\ (text <> [] -> ps_action scene = None -> ps_details scene = Some text).
Proof.
  cbv zeta. split; [by intros ->|].
  unfold parseSceneIndex. destruct text as [|u text].
  { simpl. split; [done|]. by intros []. }
  destruct (exec pipePattern (u :: text) ≫= structured) as [p|] eqn:Hpipe.
  { cbn [fst]. apply bind_Some in Hpipe as (c & _ & Hc).
    destruct (structured_scene _ _ Hc) as (t & d & -> & -> & Hact).
    split; [apply matched_rule_of_table|]. by intros _ ?. }
  destruct (exec dashPattern (u :: text) ≫= structured) as [p|] eqn:Hdash.
  { cbn [fst]. apply bind_Some in Hdash as (c & _ & Hc).
    destruct (structured_scene _ _ Hc) as (t & d & -> & -> & Hact).
    split; [apply matched_rule_of_table|]. by intros _ ?. }
  cbn [fst ps_category ps_appName ps_action ps_details].
  split; [apply matched_rule_of_table|done].
Qed.

Lemma classified_scene_comes_from_a_rule_witness :
  ps_details (fst (parseSceneIndex (js "Chrome window") initialCounters))
  = Some (js "Chrome window").
Proof.
  apply (classified_scene_comes_from_a_rule (js "Chrome window") initialCounters);
    vm_compute; [discriminate|reflexivity].
Defined.

Lemma matchesX_suffix r : forall s c rest c',
  In (rest, c') (matchesX r s c) -> exists q, s = q ++ rest.
Proof.
  induction r as [r0|p n m|i r IH|r IH|r1 IH1 r2 IH2]; intros s c rest c'; simpl.
  - rewrite in_map_iff. intros [x [[= <- <-] Hin]]. by apply (matches_suffix r0).
  - rewrite in_map_iff. intros [[k x] [[= <- <-] Hin]].
    apply filter_In in Hin as [Hin _].
    destruct (repClass_suffix _ _ _ _ Hin) as (q & -> & _). by exists q.
  - rewrite in_map_iff. intros [[x cx] [[= <- <-] Hin]]. by apply (IH _ _ _ _ Hin).
  - rewrite in_app_iff. intros [H|[[= <- <-]|[]]]; [by apply (IH _ _ _ _ H)|by exists []].
  - rewrite in_flat_map. intros ([s1 c1] & H1 & H2).
    destruct (IH1 _ _ _ _ H1) as [q1 ->]. destruct (IH2 _ _ _ _ H2) as [q2 ->].
    exists (q1 ++ q2). by rewrite app_assoc.
Qed.

(** A sequence with a one-unit class in it consumes a unit of that class. *)
Lemma seqs_needs (w : string) (rs2 : list rex) : forall rs1 s c rest c',
  In (rest, c') (matchesX (seqs (rs1 ++ ch w :: rs2)) s c) ->
  exists u, In u s /\ oneOf w u = true.
Proof.
  induction rs1 as [|r rs1 IH]; intros s c rest c'; simpl.
  - rewrite in_flat_map. intros ([s1 c1] & H1 & _).
    apply in_map_iff in H1 as [x [_ H1]].
    destruct s as [|u s]; [destruct H1|]. destruct (oneOf w u) eqn:Hu; [|destruct H1].
    exists u. split; [by left|done].
  - rewrite in_flat_map. intros ([s1 c1] & H1 & H2).
    destruct (matchesX_suffix _ _ _ _ _ H1) as [q ->].
    destruct (IH _ _ _ _ H2) as (u & Hu & Hw).
    exists u. split; [|done]. apply in_app_iff. by right.
Qed.

Lemma exec_needs (w : string) (rs1 rs2 : list rex) (s : jsstring) :
  (forall u, In u s -> oneOf w u = false) ->
  exec (seqs (rs1 ++ ch w :: rs2)) s = None.
Proof.
  assert (Hat : forall s, (forall u, In u s -> oneOf w u = false) ->
            execAtStart (seqs (rs1 ++ ch w :: rs2)) s = None).
  { clear s. intros s Hs. unfold execAtStart.
    destruct (matchesX (seqs (rs1 ++ ch w :: rs2)) s []) as [|[rest c'] l] eqn:Hm; [done|].
    destruct (seqs_needs w rs2 rs1 s [] rest c') as (u & Hu & Hw); [rewrite Hm; by left|].
    by rewrite (Hs u Hu) in Hw. }
  induction s as [|u s IH]; intros Hs; simpl.
  - by rewrite Hat.
  - rewrite Hat by done. apply IH. intros x Hx. apply Hs. by right.
Qed.

(** X13. A text with neither a bar nor a hyphen is not taken for one of the
    two structured formats: the whole text is scanned for a known app, the
    scene has no action and the text itself as details, and the app name is
    the name of the rule found or else the first phrase of the text.  So a
    scene with an action comes from a text with a bar or a hyphen. *)
Theorem text_without_separator_is_scanned (text : jsstring) (k : Counters) :
  let scene := fst (parseSceneIndex text k) in
  (text <> [] ->
   (forall u, In u text -> u <> 124%N /\ u <> 45%N) ->
   scene = {| ps_appName := nameOr (matchApp text) (extractFirstPhrase text);
              ps_category := categoryOr (matchApp text);
              ps_action := None;
              ps_details := Some text |})
  /\ (ps_action scene <> None ->
      exists u, In u text /\ (u = 124%N \/ u = 45%N)).
Proof.
  assert (Hscan : text <> [] ->
            (forall u, In u text -> u <> 124%N /\ u <> 45%N) ->
            fst (parseSceneIndex text k)
            = {| ps_appName := nameOr (matchApp text) (extractFirstPhrase text);
                 ps_category := categoryOr (matchApp text);
                 ps_action := None;
                 ps_details := Some text |}).
  { intros Hne Hsep. unfold parseSceneIndex. destruct text as [|x text]; [done|].
    assert (Hpipe : exec pipePattern (x :: text) = None).
    { apply (exec_needs "|" [ROpt (ch "["); Grp 1 (RE (Rep (notOneOf "]|") 1));
                              ROpt (ch "]"); spaces]).
      intros u Hu. destruct (Hsep u Hu) as [Hbar _].
      unfold oneOf. simpl. rewrite orb_false_r. by apply N.eqb_neq. }
    assert (Hdash : exec dashPattern (x :: text) = None).
    { apply (exec_needs "-" [ROpt (ch "["); Grp 1 (RE (Rep (notOneOf "]-") 1));
                              ROpt (ch "]"); spaces]).
      intros u Hu. destruct (Hsep u Hu) as [_ Hhyphen].
      unfold oneOf. simpl. rewrite orb_false_r. by apply N.eqb_neq. }
    rewrite Hpipe, Hdash. simpl. done. }
  simpl. split; [done|]. intros Hact.
  destruct (decide (Exists (fun u => u = 124%N \/ u = 45%N) text)) as [Hex|Hno].
  { apply Exists_exists in Hex as (u & Hu & Hsep). exists u.
    split; [by apply list_elem_of_In|done]. }
  exfalso. apply Hact.
  destruct text as [|x text]; [done|].
  rewrite Hscan; [done|done|].
  intros u Hu. split; intros ->; apply Hno, Exists_exists.
  - exists 124%N. split; [by apply list_elem_of_In|by left].
  - exists 45%N. split; [by apply list_elem_of_In|by right].
Qed.

Lemma text_without_separator_is_scanned_witness :
  fst (parseSceneIndex (js "Figma: editing the hero frame") initialCounters)
  = {| ps_appName :=
         nameOr (matchApp (js "Figma: editing the hero frame"))
                (extractFirstPhrase (js "Figma: editing the hero frame"));
       ps_category := categoryOr (matchApp (js "Figma: editing the hero frame"));
       ps_action := None;
       ps_details := Some (js "Figma: editing the hero frame") |}.
Proof.
  apply (text_without_separator_is_scanned
           (js "Figma: editing the hero frame") initialCounters).
  - vm_compute. discriminate.
  - intros u Hu. vm_compute in Hu.
    repeat (destruct Hu as [<-|Hu]; [split; discriminate|]). destruct Hu.
Defined.


(** The input on which a greedy repetition of the class [p] stops. *)
Definition stops (p : N -> bool) (rest : jsstring) : Prop :=
  match rest with u :: _ => p u = false | [] => True end.

Lemma repClass_head p run rest :
  Forall (fun u => p u = true) run -> stops p rest ->
  exists tl, repClass p (run ++ rest) = (length run, rest) :: tl.
Proof.
  intros Hrun Hstop. induction Hrun as [|u run Hu _ IH]; simpl.
  - destruct rest as [|u rest]; [by exists []|]. simpl in *. rewrite Hstop. by exists [].
  - rewrite Hu. destruct IH as [tl ->]. simpl. eauto.
Qed.

Lemma first_rep p min run rest c :
  Forall (fun u => p u = true) run -> stops p rest -> (min <= length run)%nat ->
  head (matchesX (RE (Rep p min)) (run ++ rest) c) = Some (rest, c).
Proof.
  intros Hrun Hstop Hmin. simpl.
  destruct (repClass_head p run rest Hrun Hstop) as [tl ->]. simpl.
  by apply Nat.leb_le in Hmin as ->.
Qed.

Lemma first_seq r1 r2 s c s1 c1 x :
  head (matchesX r1 s c) = Some (s1, c1) ->
  head (matchesX r2 s1 c1) = Some x ->
  head (matchesX (RSeq r1 r2) s c) = Some x.
Proof.
  simpl. destruct (matchesX r1 s c) as [|y l]; [done|]. intros [= ->]. simpl.
  by destruct (matchesX r2 s1 c1).
Qed.

Lemma first_opt r s c x :
  head (matchesX r s c) = Some x -> head (matchesX (ROpt r) s c) = Some x.
Proof. simpl. by destruct (matchesX r s c). Qed.

Lemma first_ch w u s c :
  oneOf w u = true -> head (matchesX (ch w) (u :: s) c) = Some (s, c).
Proof. simpl. by intros ->. Qed.

Lemma first_grp i r s c run rest c' :
  s = run ++ rest ->
  head (matchesX r s c) = Some (rest, c') ->
  head (matchesX (Grp i r) s c) = Some (rest, (i, run) :: c').
Proof.
  intros ->. simpl. destruct (matchesX r (run ++ rest) c) as [|y l]; [done|].
  intros [= ->]. simpl. do 3 f_equal.
  rewrite length_app, Nat.add_sub. by rewrite take_app_length.
Qed.

Lemma first_eps s c : head (matchesX (RE Eps) s c) = Some (s, c).
Proof. done. Qed.

Lemma exec_at_start r s c : execAtStart r s = Some c -> exec r s = Some c.
Proof. intros H. destruct s; simpl; by rewrite H. Qed.

(** The text of a scene in the format [[APP_NAME] | [ACTION] | [DETAILS]]. *)
Definition bracketed (app action details : jsstring) : jsstring :=
  js "[" ++ app ++ js "] | [" ++ action ++ js "] | [" ++ details ++ js "]".

Lemma bracketed_groups app action details :
  app <> [] -> action <> [] ->
  Forall (fun u => notOneOf "]|" u = true) app ->
  Forall (fun u => notOneOf "]|" u = true) action ->
  Forall (fun u => notOneOf "]|" u = true) details ->
  exec pipePattern (bracketed app action details)
  = Some [(3%nat, details); (2%nat, action); (1%nat, app)].
Proof.
  intros Happ Haction Fapp Faction Fdetails.
  assert (Hlen : forall x : jsstring, x <> [] -> (1 <= length x)%nat).
  { intros [|? ?] ?; [done|simpl; lia]. }
  apply exec_at_start. unfold execAtStart.
  assert (H : head (matchesX pipePattern (bracketed app action details) [])
              = Some ([], [(3%nat, details); (2%nat, action); (1%nat, app)]));
    [|by rewrite H].
  unfold bracketed, pipePattern. cbn [seqs fold_right].
  change (js "[" ++ app ++ js "] | [" ++ action ++ js "] | [" ++ details ++ js "]")
    with (91%N :: app ++ 93%N :: [32%N] ++ 124%N :: [32%N] ++ 91%N :: action
            ++ 93%N :: [32%N] ++ 124%N :: [32%N] ++ 91%N :: details ++ [93%N]).
  eapply first_seq. { apply first_opt, first_ch. reflexivity. }
  eapply first_seq.
  { eapply first_grp; [reflexivity|]. apply first_rep; [done|reflexivity|by apply Hlen]. }
  eapply first_seq. { apply first_opt, first_ch. reflexivity. }
  eapply first_seq. { apply first_rep; [by repeat constructor|reflexivity|simpl; lia]. }
  eapply first_seq. { apply first_ch. reflexivity. }
  eapply first_seq. { apply first_rep; [by repeat constructor|reflexivity|simpl; lia]. }
  eapply first_seq. { apply first_opt, first_ch. reflexivity. }
  eapply first_seq.
  { eapply first_grp; [reflexivity|]. apply first_rep; [done|reflexivity|by apply Hlen]. }
  eapply first_seq. { apply first_opt, first_ch. reflexivity. }
  eapply first_seq. { apply first_rep; [by repeat constructor|reflexivity|simpl; lia]. }
  eapply first_seq; [|apply first_eps].
  apply first_opt.
  eapply first_seq. { apply first_ch. reflexivity. }
  eapply first_seq. { apply first_rep; [by repeat constructor|reflexivity|simpl; lia]. }
  eapply first_seq. { apply first_opt, first_ch. reflexivity. }
  eapply first_seq.
  { eapply first_grp; [reflexivity|]. apply first_rep; [done|reflexivity|lia]. }
  eapply first_seq; [|apply first_eps].
  apply first_opt, first_ch. reflexivity.
Qed.

(** X14. The bracketed bar format is read back into its fields.  For an
    app and an action that are not empty, and fields that contain neither a
    closing bracket nor a bar, [parseSceneIndex] on
    [[app] | [action] | [details]] returns the trimmed action and details,
    and names the app after the rule found in the trimmed app name followed
    by the trimmed details, or else by the trimmed app name itself. *)
Theorem bracketed_scene_is_read_back (app action details : jsstring) (k : Counters) :
  app <> [] -> action <> [] ->
  Forall (fun u => notOneOf "]|" u = true) (app ++ action ++ details) ->
  let matched := matchApp (trim app ++ js " " ++ trim details) in
  fst (parseSceneIndex (bracketed app action details) k)
  = {| ps_appName := nameOr matched (trim app);
       ps_category := categoryOr matched;
       ps_action := Some (trim action);
       ps_details := Some (trim details) |}.
Proof.
  intros Happ Haction Hall.
  apply Forall_app in Hall as [Fapp Hall]. apply Forall_app in Hall as [Faction Fdetails].
  pose proof (bracketed_groups app action details Happ Haction Fapp Faction Fdetails)
    as Hexec.
  unfold parseSceneIndex.
  destruct (bracketed app action details) as [|u text] eqn:Htext; [done|].
  rewrite Hexec. simpl. unfold orDefault. by destruct (trim details).
Qed.

Lemma bracketed_scene_is_read_back_witness :
  fst (parseSceneIndex
         (bracketed (js "VS Code") (js " editing code ") (js "main.ts - focusd"))
         initialCounters)
  = {| ps_appName := js "VS Code";
       ps_category := development;
       ps_action := Some (js "editing code");
       ps_details := Some (js "main.ts - focusd") |}.
Proof.
  apply (bracketed_scene_is_read_back
           (js "VS Code") (js " editing code ") (js "main.ts - focusd") initialCounters).
  - vm_compute. discriminate.
  - vm_compute. discriminate.
  - vm_compute. repeat constructor.
Defined.

Lemma alert_fields label eventName :
  al_appName (categorizeAlert label eventName) <> None
  <-> al_category (categorizeAlert label eventName) = other.
Proof.
  unfold categorizeAlert.
  destruct (matchApp (label ++ js " " ++ eventName)) as [r|] eqn:Hm; simpl.
  - destruct (matchApp_rule _ _ Hm) as (_ & Hcat & _). by split.
  - by split.
Qed.

(** X15. What [categorizeAlert] returns.  When a rule is found in the label
    followed by the event name, the object returned is the one [matchApp]
    built: it has the canonical name of the rule under [name], a category
    other than [other], and no [appName].  When no rule is found, [appName]
    is the label, or [Unknown] for an empty label, and the category is
    [other].  So the object has an [appName] exactly when its category is
    [other]. *)
Theorem alert_has_app_name_iff_unmatched (label eventName : jsstring) :
  let cat := categorizeAlert label eventName in
  match matchApp (label ++ js " " ++ eventName) with
  | Some r =>
      al_appName cat = None /\ al_name cat = Some (name r)
      /\ al_category cat = category r /\ al_category cat <> other
  | None =>
      al_appName cat = Some (if nonEmpty label then label else js "Unknown")
      /\ al_name cat = None /\ al_category cat = other
  end
  /\ (al_appName cat <> None <-> al_category cat = other).
Proof.
  cbv zeta. unfold categorizeAlert.
  destruct (matchApp (label ++ js " " ++ eventName)) as [r|] eqn:Hm; simpl.
  - destruct (matchApp_rule _ _ Hm) as (_ & Hcat & _).
    by repeat split.
  - by repeat split.
Qed.

Lemma alert_has_app_name_iff_unmatched_witness :
  al_appName (categorizeAlert (js "Slack mention") (js "distraction")) = None
  /\ al_appName (categorizeAlert (js "Focus lost") []) = Some (js "Focus lost").
Proof.
  split.
  - pose proof (alert_has_app_name_iff_unmatched (js "Slack mention") (js "distraction"))
      as H.
    vm_compute in H. vm_compute. exact (proj1 (proj1 H)).
  - pose proof (alert_has_app_name_iff_unmatched (js "Focus lost") []) as H.
    vm_compute in H. vm_compute. exact (proj1 (proj1 H)).
Defined.

End SceneParserFacts.

(* ===================================================================== *)
(** ** Facts about the dispatch of messages *)
(* ===================================================================== *)

Module FeedFacts.
Import JS Regex Ingestion SceneParser Feed SceneParserFacts.

(** The label and the event name [ingestEvent] passes to [categorizeAlert]. *)
Definition labelOf (msg : Message) : jsstring :=
  orDefault (orStr (p_label (msg_top msg))
                   (p_label (default noPayload (msg_data msg)))) [].

Definition eventNameOf (msg : Message) : jsstring :=
  orDefault (orStr (p_event_name (msg_top msg))
                   (p_event_name (default noPayload (msg_data msg)))) [].

(** The text of a scene message: the one under [data] first. *)
Definition sceneTextOf (msg : Message) : jsstring :=
  orDefault (orStr (p_text (default noPayload (msg_data msg)))
                   (p_text (msg_top msg))) [].

(** The text of a transcript message: the one at the top level first. *)
Definition transcriptTextOf (msg : Message) : jsstring :=
  orDefault (orStr (p_text (msg_top msg))
                   (p_text (default noPayload (msg_data msg)))) [].

Definition isScene (c : Channel) : bool :=
  match c with scene_index | visual_index => true | _ => false end.

(** The number of scene and visual events among the stored raw events. *)
Definition sceneEvents (table : list RawEvent) : Z :=
  Z.of_nat (length (List.filter (fun e => isScene (channel e)) table)).

Definition sampleSceneMessage : Message :=
  {| msg_channel := Some (js "scene_index"); msg_type := None; msg_event_type := None;
     msg_top := noPayload;
     msg_data := Some {| p_text := Some (js "[Chrome] | [browsing] | [docs.videodb.io]");
                         p_label := None; p_event_name := None; p_summary := None |} |}.

Definition sampleAlertMessage : Message :=
  {| msg_channel := None; msg_type := Some (js "alert"); msg_event_type := None;
     msg_top := {| p_text := None; p_label := Some (js "YouTube opened");
                   p_event_name := Some (js "distraction"); p_summary := None |};
     msg_data := None |}.

Definition sampleIngestState : State :=
  {| buffer := []; activeSessionId := Some (js "s1"); totalIngested := 0;
     totalFlushed := 0; rawEventTable := []; segmentTable := [] |}.

(** [ingestEvent] on each message of a feed in turn; a message comes with
    the clock value at its arrival and its serialisation. *)
Definition ingestMessages (feed : list (Z * Message * jsstring))
    (st : State) (k : Counters) : State * Counters :=
  fold_left (fun '(s, c) '(now, msg, raw) => ingestMessage now msg raw s c)
            feed (st, k).

(** The event [ingestEvent] builds from what it kept of a message. *)
Definition eventOf (session : jsstring) (now : Z) (d : Dispatched) (raw : jsstring)
  : RawEvent :=
  {| sessionId := session; timestamp := now; channel := d_channel d;
     appName := d_appName d; appCategory := d_appCategory d;
     summaryText := d_summaryText d; rawJson := raw |}.

Lemma channelNamed_sound c ch :
  channelNamed c = Some ch ->
  c = match ch with
      | scene_index => js "scene_index"
      | visual_index => js "visual_index"
      | transcript => js "transcript"
      | spoken_index => js "spoken_index"
      | alert => js "alert"
      end.
Proof.
  unfold channelNamed.
  repeat (case_bool_decide; [intros [= <-]; done|]). done.
Qed.

(** X16. What a kept message becomes.  When the [switch] of [ingestEvent]
    keeps a message, the channel of the event is the one the message names.
    A scene or visual event has a text that is not blank, the app name and
    the category [parseSceneIndex] gives for it, and the parse counters
    advance by that one call.  A transcript event has a text that is not
    blank and neither app name nor category.  A spoken event has neither
    app name nor category, and a summary text that is absent or not empty.
    An alert event has the label as its text and the category of
    [categorizeAlert], and an app name exactly when that category is
    [other].  Only a scene or visual message touches the parse counters. *)
Theorem kept_message_fields (msg : Message) (k k' : Counters) (d : Dispatched) :
  dispatch msg k = (Some d, k') ->
  exists c,
    channelOf msg = Some c /\ channelNamed c = Some (d_channel d)
    /\ match d_channel d with
       | scene_index | visual_index =>
           nonEmpty (trim (sceneTextOf msg)) = true
           /\ d_summaryText d = Some (sceneTextOf msg)
           /\ d_appName d = Some (ps_appName (fst (parseSceneIndex (sceneTextOf msg) k)))
           /\ d_appCategory d
              = Some (ps_category (fst (parseSceneIndex (sceneTextOf msg) k)))
           /\ k' = snd (parseSceneIndex (sceneTextOf msg) k)
       | transcript =>
           nonEmpty (trim (transcriptTextOf msg)) = true
           /\ d_summaryText d = Some (transcriptTextOf msg)
           /\ d_appName d = None /\ d_appCategory d = None /\ k' = k
       | spoken_index =>
           d_summaryText d <> Some []
           /\ d_appName d = None /\ d_appCategory d = None /\ k' = k
       | alert =>
           d_summaryText d = Some (labelOf msg)
           /\ d_appCategory d
              = Some (al_category (categorizeAlert (labelOf msg) (eventNameOf msg)))
           /\ (d_appName d <> None <-> d_appCategory d = Some other)
           /\ k' = k
       end.
Proof.
  unfold dispatch. destruct (channelOf msg) as [c|] eqn:Hc; [|done].
  destruct (nonEmpty c) eqn:Hne; [|done]. cbn [negb].
  destruct (channelNamed c) as [ch|] eqn:Hch; [|done].
  fold (sceneTextOf msg) (transcriptTextOf msg) (labelOf msg) (eventNameOf msg).
  pose proof (alert_fields (labelOf msg) (eventNameOf msg)) as Halert.
  destruct ch.
  - destruct (nonEmpty (trim (sceneTextOf msg))) eqn:Ht; [|done]. cbn [negb].
    destruct (parseSceneIndex (sceneTextOf msg) k) as [p k1]. intros [= <- <-].
    exists c. by repeat split.
  - destruct (nonEmpty (trim (sceneTextOf msg))) eqn:Ht; [|done]. cbn [negb].
    destruct (parseSceneIndex (sceneTextOf msg) k) as [p k1]. intros [= <- <-].
    exists c. by repeat split.
  - destruct (nonEmpty (trim (transcriptTextOf msg))) eqn:Ht; [|done]. cbn [negb].
    intros [= <- <-]. exists c. by repeat split.
  - intros [= <- <-]. exists c. cbn [d_channel d_summaryText d_appName d_appCategory].
    repeat split; try done.
    unfold orUndefined. by destruct (orStr _ _) as [[|? ?]|].
  - intros [= <- <-]. exists c. cbn [d_channel d_summaryText d_appName d_appCategory].
    repeat split; try done.
    + intros Hname. f_equal. by apply Halert.
    + intros [= Hother]. by apply Halert.
Qed.


Lemma kept_message_fields_witness :
  exists c,
    channelOf sampleAlertMessage = Some c
    /\ channelNamed c = Some alert
    /\ Some (js "YouTube opened") = Some (labelOf sampleAlertMessage)
    /\ Some entertainment
       = Some (al_category (categorizeAlert (labelOf sampleAlertMessage)
                                            (eventNameOf sampleAlertMessage)))
    /\ (@None jsstring <> None <-> Some entertainment = Some other)
    /\ initialCounters = initialCounters.
Proof.
  apply (kept_message_fields sampleAlertMessage initialCounters initialCounters
           {| d_channel := alert; d_appName := None;
              d_appCategory := Some entertainment;
              d_summaryText := Some (js "YouTube opened") |}).
  vm_compute. reflexivity.
Defined.

(** One message: either nothing changes, or one event is appended. *)
Lemma ingestMessage_cases now msg raw st k :
  ingestMessage now msg raw st k = (st, k)
  \/ exists session d,
       activeSessionId st = Some session /\ nonEmpty session = true
       /\ dispatch msg k = (Some d, snd (ingestMessage now msg raw st k))
       /\ fst (ingestMessage now msg raw st k)
          = {| buffer := buffer st ++ [eventOf session now d raw];
               activeSessionId := activeSessionId st;
               totalIngested := totalIngested st + 1;
               totalFlushed := totalFlushed st;
               rawEventTable := rawEventTable st ++ [eventOf session now d raw];
               segmentTable := segmentTable st |}.
Proof.
  unfold ingestMessage, ingestEvent.
  destruct (activeSessionId st) as [session|] eqn:Hs; simpl; [|by left].
  destruct (nonEmpty session) eqn:Hne; [|by left].
  destruct (dispatch msg k) as [[d|] k'] eqn:Hd.
  - right. exists session, d. by repeat split.
  - left. f_equal.
    unfold dispatch in Hd. revert Hd. repeat case_match; congruence.
Qed.

Lemma dispatch_counts msg k d k' :
  dispatch msg k = (Some d, k') ->
  parseCallCount k' = parseCallCount k + (if isScene (d_channel d) then 1 else 0).
Proof.
  unfold dispatch. destruct (channelOf msg) as [c|]; [|done].
  destruct (nonEmpty c); [|done]. cbn [negb].
  destruct (channelNamed c) as [ch|]; [|done].
  generalize (orDefault (orStr (p_text (default noPayload (msg_data msg)))
                               (p_text (msg_top msg))) []).
  intros text.
  pose proof (parseSceneIndex_counters text k) as Hk.
  destruct ch.
  - destruct (nonEmpty (trim text)); [|done]. cbn [negb].
    destruct (parseSceneIndex text k) as [p k1]. intros [= <- <-].
    simpl in Hk. rewrite Hk. done.
  - destruct (nonEmpty (trim text)); [|done]. cbn [negb].
    destruct (parseSceneIndex text k) as [p k1]. intros [= <- <-].
    simpl in Hk. rewrite Hk. done.
  - destruct (nonEmpty (trim _)); [|done]. intros [= <- <-]. simpl. lia.
  - intros [= <- <-]. simpl. lia.
  - intros [= <- <-]. simpl. lia.
Qed.

Lemma ingestMessages_snoc feed now msg raw st k :
  ingestMessages (feed ++ [(now, msg, raw)]) st k
  = ingestMessage now msg raw (fst (ingestMessages feed st k))
                              (snd (ingestMessages feed st k)).
Proof.
  unfold ingestMessages. rewrite fold_left_app. simpl.
  by destruct (fold_left _ feed (st, k)).
Qed.

(** X17. The counters agree with what was buffered.  After any feed of
    messages, with no flush in between, the events appended to the buffer
    are the events appended to the raw-event table, in the same order;
    there is at most one per message, and none without an active session;
    each carries the active session; [totalIngested] has advanced by their
    number and [parseCallCount] by the number of scene and visual events
    among them; the session, the segment table and [totalFlushed] are as
    before. *)
Theorem feed_counters_agree_with_buffer (feed : list (Z * Message * jsstring))
    (st : State) (k : Counters) :
  exists events,
    let st' := fst (ingestMessages feed st k) in
    let k' := snd (ingestMessages feed st k) in
    buffer st' = buffer st ++ events
    /\ rawEventTable st' = rawEventTable st ++ events
    /\ (length events <= length feed)%nat
    /\ (events = [] \/ truthyStr (activeSessionId st) = true)
    /\ Forall (fun e => activeSessionId st = Some (sessionId e)) events
    /\ totalIngested st' = totalIngested st + Z.of_nat (length events)
    /\ parseCallCount k' = parseCallCount k + sceneEvents events
    /\ activeSessionId st' = activeSessionId st
    /\ segmentTable st' = segmentTable st
    /\ totalFlushed st' = totalFlushed st.
Proof.
  induction feed as [|[[now msg] raw] feed IH] using rev_ind.
  { exists []. simpl. rewrite !app_nil_r. unfold sceneEvents. simpl.
    repeat split; try done; try lia. by left. }
  destruct IH as (events & Hbuf & Hraw & Hlen & Hnone & Hsess & Hin & Hparse & Hact
                  & Hseg & Hflushed).
  rewrite ingestMessages_snoc. cbv zeta in *.
  destruct (ingestMessages feed st k) as [st1 k1]. simpl in *.
  destruct (ingestMessage_cases now msg raw st1 k1)
    as [Hsame|(session & d & Hs & Hne & Hd & Hst)].
  - exists events. rewrite Hsame. simpl. rewrite length_app. simpl.
    repeat split; try done. lia.
  - exists (events ++ [eventOf session now d raw]).
    rewrite Hst. simpl. rewrite Hbuf, Hraw, <- !app_assoc, !length_app. simpl.
    pose proof (dispatch_counts _ _ _ _ Hd) as Hk.
    repeat split; try done; try lia.
    + right. rewrite <- Hact, Hs. simpl. done.
    + apply Forall_app. split; [done|]. constructor; [|done]. simpl. congruence.
    + rewrite Hk, Hparse. unfold sceneEvents. rewrite List.filter_app, length_app. simpl.
      destruct (isScene (d_channel d)); simpl; lia.
Qed.




Example sample_feed_of_messages :
  let '(st, k) :=
    ingestMessages [ (1000, sampleSceneMessage, js "{}");
                     (1005, sampleAlertMessage, js "{}") ]
                   sampleIngestState initialCounters in
  (List.map (fun e => (channel e, appName e, appCategory e)) (buffer st),
   getParseStats k)
  = ([ (scene_index, Some (js "Chrome"), Some browsing);
       (alert, None, Some entertainment) ],
     (1, 0)).
Proof. vm_compute. reflexivity. Qed.

End FeedFacts.

(* ===================================================================== *)
(** ** Further properties of the action and project inference *)
(* ===================================================================== *)

Module ClassifierExtras.
Import JS Regex Classifier ClassifierFacts SceneParser SceneParserFacts.

(** The tags [inferAction] can return for a non-empty list of texts. *)
Definition ACTION_TAGS : list jsstring :=
  List.map js ["coding"; "browsing"; "chatting"; "reading"; "meeting"; "writing";
               "designing"; "watching"; "emailing"; "working"]%string.

(** [part] is a contiguous part of [whole]. *)
Definition partOf (part whole : jsstring) : Prop :=
  exists before after, whole = before ++ part ++ after.

Lemma spaced_caseBlind a b : caseBlind (spaced a b).
Proof.
  unfold spaced. constructor; [apply litCI_caseBlind|].
  constructor; [|apply litCI_caseBlind]. constructor. apply isSpace_caseBlind.
Qed.

Lemma action_rules_well_formed :
  Forall (fun rule => caseBlind (fst rule) /\ anchorFree (fst rule) = true
                      /\ In (snd rule) ACTION_TAGS) ACTION_RULES.
Proof.
  unfold ACTION_RULES.
  repeat (constructor;
          [split; [apply alts_caseBlind;
                   repeat (constructor;
                           [first [apply litCI_caseBlind|apply spaced_caseBlind]|]);
                   constructor
                  |split; [vm_compute; reflexivity
                          |vm_compute; repeat (first [by left|right])]]|]).
  constructor.
Qed.

Lemma join_part (sep : jsstring) (text : jsstring) (texts : list jsstring) :
  In text texts -> partOf text (join sep texts).
Proof.
  induction texts as [|t rest IH]; [done|]. intros [->|Hin].
  - destruct rest as [|t' rest].
    + exists [], []. simpl. by rewrite app_nil_r.
    + exists [], (sep ++ join sep (t' :: rest)). done.
  - destruct (IH Hin) as (before & after & Heq).
    destruct rest as [|t' rest]; [done|].
    exists (t ++ sep ++ before), after.
    change (join sep (t :: t' :: rest)) with (t ++ sep ++ join sep (t' :: rest)).
    rewrite Heq. by rewrite <- !app_assoc.
Qed.

Lemma toLowerCase_app a b : toLowerCase (a ++ b) = toLowerCase a ++ toLowerCase b.
Proof. apply List.map_app. Qed.

(** X19. The tags of [inferAction].  The result is [unknown] exactly when
    there is no scene text; otherwise it is one of the ten tags [coding],
    [browsing], [chatting], [reading], [meeting], [writing], [designing],
    [watching], [emailing] and [working]. *)
Theorem inferAction_tags (sceneTexts : list jsstring) :
  (inferAction sceneTexts = js "unknown" <-> sceneTexts = [])
  /\ (sceneTexts <> [] -> In (inferAction sceneTexts) ACTION_TAGS).
Proof.
  assert (Htag : sceneTexts <> [] -> In (inferAction sceneTexts) ACTION_TAGS).
  { destruct sceneTexts as [|t rest]; [done|]. intros _. unfold inferAction.
    destruct (List.find _ ACTION_RULES) as [rule|] eqn:Hfind.
    - apply find_some in Hfind as [Hin _].
      pose proof action_rules_well_formed as Hwf. rewrite List.Forall_forall in Hwf.
      by destruct (Hwf _ Hin) as (_ & _ & ?).
    - vm_compute. do 9 right. by left. }
  split; [|done]. split; [|by intros ->].
  intros Hunknown. destruct sceneTexts as [|t rest]; [done|]. exfalso.
  assert (Hin : In (js "unknown") ACTION_TAGS) by (rewrite <- Hunknown; by apply Htag).
  vm_compute in Hin. repeat (destruct Hin as [Hin|Hin]; [discriminate|]). destruct Hin.
Qed.

Lemma inferAction_tags_witness :
  In (inferAction [js "Chrome"; js "Reviewing a pull request"]) ACTION_TAGS.
Proof.
  apply (inferAction_tags [js "Chrome"; js "Reviewing a pull request"]).
  discriminate.
Defined.

(** X20. A keyword decides the action wherever it stands.  If the test at
    position [j] of the chain succeeds on one of the scene texts, in any
    mix of capitals and small letters, then [inferAction] returns the tag
    of a test at a position no later than [j]: never [working] or
    [unknown].  In particular a text in which the first test succeeds makes
    the result [coding], whatever the other texts are. *)
Theorem action_keyword_decides (j : nat) (rule : re * jsstring)
    (text : jsstring) (sceneTexts : list jsstring) :
  ACTION_RULES !! j = Some rule ->
  In text sceneTexts ->
  test (fst rule) text = true ->
  exists i rule',
    (i <= j)%nat /\ ACTION_RULES !! i = Some rule'
    /\ inferAction sceneTexts = snd rule'
    /\ (j = 0%nat -> inferAction sceneTexts = js "coding").
Proof.
  intros Hj Hin Htest.
  pose proof action_rules_well_formed as Hwf. rewrite List.Forall_forall in Hwf.
  destruct (Hwf rule) as (Hblind & Hfree & _).
  { by apply list_elem_of_In, list_elem_of_lookup_2 with j. }
  destruct (join_part (js " ") text sceneTexts Hin) as (before & after & Hjoin).
  assert (Hcombined : test (fst rule) (toLowerCase (join (js " ") sceneTexts)) = true).
  { rewrite Hjoin, !toLowerCase_app. apply test_in_context; [done|].
    by rewrite test_lower. }
  destruct sceneTexts as [|t rest]; [done|]. unfold inferAction.
  destruct (find_at_or_before
              (fun rule => test (fst rule) (toLowerCase (join (js " ") (t :: rest))))
              ACTION_RULES j rule Hj Hcombined) as (i & y & Hi & Hy & Hfind).
  rewrite Hfind. exists i, y. repeat split; try done.
  intros ->. assert (i = 0%nat) as -> by lia.
  vm_compute in Hy. by injection Hy as <-.
Qed.

Lemma action_keyword_decides_witness :
  exists i rule',
    (i <= 0)%nat /\ ACTION_RULES !! i = Some rule'
    /\ inferAction [js "Slack: replying to Ana"; js "VS Code - Debugging the parser"]
       = snd rule'
    /\ (0%nat = 0%nat ->
        inferAction [js "Slack: replying to Ana"; js "VS Code - Debugging the parser"]
        = js "coding").
Proof.
  apply (action_keyword_decides 0
           (alts [litCI "coding"; spaced "editing" "code"; spaced "writing" "code";
                  litCI "programming"; litCI "debugging"], js "coding")
           (js "VS Code - Debugging the parser")).
  - reflexivity.
  - right. left. reflexivity.
  - vm_compute. reflexivity.
Defined.

Lemma occursAs_part pt text c : occursAs pt text c -> partOf c text.
Proof.
  intros (before & lead & after & -> & _). exists (before ++ lead), after.
  by rewrite <- app_assoc.
Qed.

Lemma partOf_trans a b c : partOf a b -> partOf b c -> partOf a c.
Proof.
  intros (p1 & q1 & ->) (p2 & q2 & ->). exists (p2 ++ p1), (q1 ++ q2).
  by rewrite <- !app_assoc.
Qed.

Lemma trimStart_part s : partOf (trimStart s) s.
Proof.
  induction s as [|c s IH]; simpl; [by exists [], []|].
  destruct (isSpace c); [|exists [], []; simpl; by rewrite app_nil_r].
  destruct IH as (p & q & Heq). exists (c :: p), q. simpl. by rewrite <- Heq.
Qed.

Lemma rev_part a b : partOf a b -> partOf (rev a) (rev b).
Proof.
  intros (p & q & ->). exists (rev q), (rev p). by rewrite !rev_app_distr, <- app_assoc.
Qed.

Lemma trim_part s : partOf (trim s) s.
Proof.
  unfold trim. eapply partOf_trans; [|apply trimStart_part].
  rewrite <- (rev_involutive (trimStart s)) at 2. apply rev_part, trimStart_part.
Qed.

Lemma candidate_part text c :
  In c (option_list (titleCandidate text) ++ option_list (pathCandidate text)) ->
  partOf c text.
Proof.
  rewrite in_app_iff. unfold titleCandidate, pathCandidate. intros [Hin|Hin].
  - destruct (capture titlePattern text) as [g|] eqn:Hc; [|destruct Hin].
    destruct Hin as [<-|[]]. eapply partOf_trans; [apply trim_part|].
    by apply occursAs_part with titlePattern, capture_occurs.
  - destruct (capture pathPattern text) as [g|] eqn:Hc; [|destruct Hin].
    destruct Hin as [<-|[]]. by apply occursAs_part with pathPattern, capture_occurs.
Qed.

(** X21. What a project name is.  [inferProject] on the texts [a] followed
    by the texts [b] is its result on [a] when there is one, and its result
    on [b] otherwise.  A name it returns is a contiguous part of one of the
    texts, has between 3 and 50 code units, all of them ASCII letters,
    digits, underscores, dots, spaces or hyphens, and its lower-casing is
    not one of the rejected folder names. *)
Theorem project_name_shape (a b : list jsstring) :
  inferProject (a ++ b)
  = match inferProject a with Some p => Some p | None => inferProject b end
  /\ forall p, inferProject a = Some p ->
       (exists text, In text a /\ partOf p text)
       /\ (3 <= length p <= 50)%nat
       /\ Forall (fun u => nameClass u = true /\ (u < 128)%N) p
       /\ (toLowerCase p ∉ REJECTED_NAMES).
Proof.
  split.
  { induction a as [|text rest IH]; simpl; [done|]. by destruct (inferProjectIn text). }
  intros p Hp.
  assert (Hfind : forall texts, inferProject texts
                    = List.find isValidProject (candidates texts)).
  { induction texts as [|text rest IH]; simpl; [reflexivity|].
    unfold candidates in *. simpl. by rewrite find_app, <- inferProjectIn_find, IH. }
  rewrite Hfind in Hp. apply find_some in Hp as [Hin Hvalid].
  apply isValidProject_passes in Hvalid as (H3 & H50 & _ & _ & Hrej & _).
  split; [|split; [|split]].
  - unfold candidates in Hin. apply in_flat_map in Hin as (text & Htext & Hc).
    exists text. split; [done|]. by apply candidate_part.
  - unfold toLowerCase in H3, H50. rewrite length_map in H3, H50. lia.
  - by apply candidates_in_name_class with a.
  - done.
Qed.

Lemma project_name_shape_witness :
  (exists text,
      In text [js "Terminal"; js "open /Users/dev/my_tracker/src/main.ts"]
      /\ partOf (js "my_tracker") text)
  /\ (3 <= length (js "my_tracker") <= 50)%nat
  /\ Forall (fun u => nameClass u = true /\ (u < 128)%N) (js "my_tracker")
  /\ (toLowerCase (js "my_tracker") ∉ REJECTED_NAMES).
Proof.
  apply (project_name_shape
           [js "Terminal"; js "open /Users/dev/my_tracker/src/main.ts"] []).
  vm_compute. reflexivity.
Defined.

End ClassifierExtras.

(* ===================================================================== *)
(** ** Further properties of the summarizer *)
(* ===================================================================== *)

Module SummarizerExtras.
Import JS Regex Summarizer SummarizerFacts.

(** The module variables an operation never assigns, and the bounds on the
    completion calls it issues. *)
Definition issuesAtMost (n : nat) (w w' : World) : Prop :=
  (apiCalls w <= apiCalls w' <= apiCalls w + n)%nat
  /\ llm w' = llm w
  /\ activeSessionId w' = activeSessionId w
  /\ sessionStartTime w' = sessionStartTime w
  /\ (llm w = false -> apiCalls w' = apiCalls w).

Lemma issuesAtMost_refl n w : issuesAtMost n w w.
Proof. unfold issuesAtMost. repeat split; try done; lia. Qed.

Lemma issuesAtMost_trans n m w1 w2 w3 :
  issuesAtMost n w1 w2 -> issuesAtMost m w2 w3 -> issuesAtMost (n + m) w1 w3.
Proof.
  unfold issuesAtMost.
  intros (Hc & Hl & Hs & Ht & Hn) (Hc' & Hl' & Hs' & Ht' & Hn').
  repeat split; try congruence; try lia.
  intros Hllm. rewrite Hn', Hn; congruence.
Qed.

Lemma issuesAtMost_weaken n m w w' :
  (n <= m)%nat -> issuesAtMost n w w' -> issuesAtMost m w w'.
Proof.
  unfold issuesAtMost. intros Hle (Hc & Hrest). split; [lia|done].
Qed.

Lemma callApi_issues E w : llm w = true -> issuesAtMost 1 w (snd (callApi E w)).
Proof.
  intros Hllm. unfold issuesAtMost, callApi. simpl.
  repeat split; try done; try lia. congruence.
Qed.

Lemma generateMicroSummary_issues E w :
  issuesAtMost 1 w (snd (generateMicroSummary E w)).
Proof.
  unfold generateMicroSummary.
  destruct (llm w) eqn:Hllm; cbn [negb]; [|apply issuesAtMost_refl].
  destruct (activeSessionId w) as [session|] eqn:Hs; [|apply issuesAtMost_refl].
  destruct (nonEmpty session); cbn [negb]; [|apply issuesAtMost_refl].
  destruct (getUnprocessedSegmentsForMicro _ _ _) as [|s0 segs]; [apply issuesAtMost_refl|].
  generalize (s0 :: segs). intros l.
  pose proof (callApi_issues E w Hllm) as Hcall.
  destruct (callApi E w) as [outcome w1]. simpl in Hcall.
  destruct outcome as [err|content]; [exact Hcall|].
  destruct (decode E content) as [parsed|]; [|exact Hcall].
  unfold storeMicro.
  destruct (getProp parsed (js "project")) as [|pf]; [exact Hcall|].
  destruct (getProp parsed (js "summary")) as [|sf];
    [destruct (llmProjectOf pf) as [[|? ?]|]; exact Hcall|].
  destruct (getProp parsed (js "primary_activity")) as [|af];
    [destruct (llmProjectOf pf) as [[|? ?]|]; exact Hcall|].
  destruct (getProp parsed (js "productivity_label")) as [|lf];
    [destruct (llmProjectOf pf) as [[|? ?]|]; exact Hcall|].
  destruct (llmProjectOf pf) as [[|? ?]|]; simpl;
    destruct (hasSlice _); exact Hcall.
Qed.

Lemma generateSessionSummary_issues E w :
  issuesAtMost 1 w (snd (generateSessionSummary E w)).
Proof.
  unfold generateSessionSummary.
  destruct (llm w) eqn:Hllm; cbn [negb]; [|apply issuesAtMost_refl].
  destruct (activeSessionId w) as [session|] eqn:Hs; [|apply issuesAtMost_refl].
  destruct (nonEmpty session); cbn [negb]; [|apply issuesAtMost_refl].
  destruct (getMicroSummaries _ _ _ _) as [|m0 ms]; [apply issuesAtMost_refl|].
  generalize (m0 :: ms). intros l.
  pose proof (callApi_issues E w Hllm) as Hcall.
  destruct (callApi E w) as [outcome w1]. simpl in Hcall.
  destruct outcome as [err|content]; [exact Hcall|].
  destruct (decode E content) as [parsed|]; [|exact Hcall].
  unfold storeSession.
  destruct (getProp parsed (js "summary")) as [|sf]; [exact Hcall|].
  destruct (getProp parsed (js "productivity_label")) as [|lf]; [exact Hcall|].
  simpl. destruct (hasSlice _); exact Hcall.
Qed.

Lemma generateDailySummary_issues E date w :
  issuesAtMost 1 w (snd (generateDailySummary E date w)).
Proof.
  destruct (generateDailySummary E date w) as [r w'] eqn:H. simpl.
  assert (Hllm : llm w = false -> w' = w).
  { intros Hno. unfold generateDailySummary in H. rewrite Hno in H. simpl in H.
    congruence. }
  destruct (generateDailySummary_cases _ _ _ _ _ H)
    as [[_ ->]|(Hl & Hcalls & [[_ Hsame]|(c & p & d & _ & _ & _ & Hstore & _)])].
  - apply issuesAtMost_refl.
  - destruct Hsame as (_ & _ & _ & _ & _ & Hs & Hl').
    unfold issuesAtMost. rewrite Hcalls, Hl', Hs.
    split; [lia|]. split; [done|]. split; [done|]. split; [|congruence].
    revert H. unfold generateDailySummary, storeDaily, callApi. rewrite Hl. simpl.
    intros H. run; reflexivity.
  - unfold issuesAtMost. rewrite Hcalls. split; [lia|].
    revert H. unfold generateDailySummary, storeDaily, callApi. rewrite Hl. simpl.
    intros H. run; by repeat split.
Qed.

Lemma generateDeepDive_issues E start end_ w :
  issuesAtMost 1 w (snd (generateDeepDive E start end_ w)).
Proof.
  unfold generateDeepDive.
  destruct (getCachedDeepDive _ _); [apply issuesAtMost_refl|].
  destruct (llm w) eqn:Hllm; cbn [negb]; [|apply issuesAtMost_refl].
  destruct (getRawEvents _ _ _ _); [apply issuesAtMost_refl|].
  pose proof (callApi_issues E w Hllm) as Hcall.
  destruct (callApi E w) as [outcome w1]. simpl in Hcall.
  destruct outcome; exact Hcall.
Qed.

Lemma generateOnDemandSummary_issues E w :
  issuesAtMost 2 w (snd (generateOnDemandSummary E w)).
Proof.
  unfold generateOnDemandSummary.
  pose proof (generateMicroSummary_issues E w) as Hmicro.
  destruct (generateMicroSummary E w) as [r w1]. simpl in Hmicro.
  destruct (getMicroSummaries _ _ _ _) as [|first [|second rest]];
    try (by apply issuesAtMost_weaken with 1%nat; [lia|]).
  destruct (llm w1) eqn:Hllm; cbn [negb];
    [|by apply issuesAtMost_weaken with 1%nat; [lia|]].
  pose proof (callApi_issues E w1 Hllm) as Hcall.
  pose proof (issuesAtMost_trans _ _ _ _ _ Hmicro Hcall) as Hboth.
  destruct (callApi E w1) as [outcome w2]. simpl in Hboth.
  destruct outcome as [err|content]; [exact Hboth|].
  destruct (decode E content) as [parsed|]; [|exact Hboth].
  destruct (getProp parsed (js "summary")); exact Hboth.
Qed.

(** X22. The completion calls of an operation.  [generateMicroSummary],
    [generateSessionSummary], [generateDailySummary] and [generateDeepDive]
    issue at most one completion call each, [generateOnDemandSummary] at
    most two and [stopPeriodicSummaries] at most three; none of them issues
    a call when the client is not configured; and none of them, save the
    last, assigns the client or the active session. *)
Theorem completion_calls_are_bounded (E : Env) (w : World) (date : jsstring)
    (start end_ : Z) :
  issuesAtMost 1 w (snd (generateMicroSummary E w))
  /\ issuesAtMost 1 w (snd (generateSessionSummary E w))
  /\ issuesAtMost 1 w (snd (generateDailySummary E date w))
  /\ issuesAtMost 1 w (snd (generateDeepDive E start end_ w))
  /\ issuesAtMost 2 w (snd (generateOnDemandSummary E w))
  /\ (apiCalls w <= apiCalls (stopPeriodicSummaries E w) <= apiCalls w + 3)%nat
  /\ (llm w = false -> apiCalls (stopPeriodicSummaries E w) = apiCalls w).
Proof.
  split; [apply generateMicroSummary_issues|].
  split; [apply generateSessionSummary_issues|].
  split; [apply generateDailySummary_issues|].
  split; [apply generateDeepDive_issues|].
  split; [apply generateOnDemandSummary_issues|].
  unfold stopPeriodicSummaries.
  destruct (truthyStr (activeSessionId w) && llm w) eqn:Hgo;
    [|simpl; split; [lia|done]].
  pose proof (generateMicroSummary_issues E w) as H1.
  destruct (generateMicroSummary E w) as [r1 w1]. simpl in H1.
  pose proof (generateSessionSummary_issues E w1) as H2.
  destruct (generateSessionSummary E w1) as [r2 w2]. simpl in H2.
  pose proof (generateDailySummary_issues E (todayDateString E (clock w2)) w2) as H3.
  destruct (generateDailySummary E _ w2) as [r3 w3]. simpl in H3.
  pose proof (issuesAtMost_trans _ _ _ _ _ (issuesAtMost_trans _ _ _ _ _ H1 H2) H3)
    as (Hc & _ & _ & _ & Hno).
  simpl in *. split; [lia|done].
Qed.

Lemma completion_calls_are_bounded_witness :
  apiCalls (stopPeriodicSummaries sampleEnv
              {| llm := false; activeSessionId := Some (js "s1");
                 sessionStartTime := 900; lastMicroTime := 900;
                 lastSessionSummaryTime := 900; microCount := 0; sessionCount := 0;
                 store := sampleStore; clock := 1400; apiCalls := 4 |})
  = 4%nat.
Proof.
  apply (completion_calls_are_bounded sampleEnv
           {| llm := false; activeSessionId := Some (js "s1");
              sessionStartTime := 900; lastMicroTime := 900;
              lastSessionSummaryTime := 900; microCount := 0; sessionCount := 0;
              store := sampleStore; clock := 1400; apiCalls := 4 |}
           (js "2026-01-15") 0 0).
  reflexivity.
Defined.

(** X23. Stopping ends the session.  After [stopPeriodicSummaries] there is
    no active session, so [generateMicroSummary] and
    [generateSessionSummary] return null and change nothing until a session
    is started again; the client is as before and the deep-dive cache is
    untouched.  When there was no active session, or no client, stopping
    does nothing but clear the session. *)
Theorem stopping_ends_the_session (E E2 : Env) (w : World) :
  let w' := stopPeriodicSummaries E w in
  activeSessionId w' = None
  /\ llm w' = llm w
  /\ deepDives (store w') = deepDives (store w)
  /\ generateMicroSummary E2 w' = (None, w')
  /\ generateSessionSummary E2 w' = (None, w')
  /\ (truthyStr (activeSessionId w) && llm w = false -> w' = clearSession w).
Proof.
  cbv zeta.
  assert (Hnone : activeSessionId (stopPeriodicSummaries E w) = None).
  { unfold stopPeriodicSummaries. destruct (truthyStr _ && llm w); [|done].
    destruct (generateMicroSummary E w) as [r1 w1].
    destruct (generateSessionSummary E w1) as [r2 w2].
    by destruct (generateDailySummary E _ w2) as [r3 w3]. }
  split; [done|]. split; [|split; [|split; [|split]]].
  - unfold stopPeriodicSummaries. destruct (truthyStr _ && llm w); [|done].
    pose proof (generateMicroSummary_issues E w) as H1.
    destruct (generateMicroSummary E w) as [r1 w1]. simpl in H1.
    pose proof (generateSessionSummary_issues E w1) as H2.
    destruct (generateSessionSummary E w1) as [r2 w2]. simpl in H2.
    pose proof (generateDailySummary_issues E (todayDateString E (clock w2)) w2) as H3.
    destruct (generateDailySummary E _ w2) as [r3 w3]. simpl in H3.
    destruct H1 as (_ & H1 & _), H2 as (_ & H2 & _), H3 as (_ & H3 & _).
    simpl. congruence.
  - unfold stopPeriodicSummaries. destruct (truthyStr _ && llm w); [|done].
    destruct (generateMicroSummary_frame E w) as (_ & H1 & _).
    destruct (generateMicroSummary E w) as [r1 w1]. simpl in H1.
    pose proof (generateSessionSummary_frame E w1) as H2.
    destruct (generateSessionSummary E w1) as [r2 w2]. simpl in H2.
    pose proof (generateDailySummary_frame E (todayDateString E (clock w2)) w2) as H3.
    destruct (generateDailySummary E _ w2) as [r3 w3]. simpl in H3.
    simpl. congruence.
  - unfold generateMicroSummary. rewrite Hnone. by destruct (llm _).
  - unfold generateSessionSummary. rewrite Hnone. by destruct (llm _).
  - intros Hno. unfold stopPeriodicSummaries. by rewrite Hno.
Qed.

Lemma stopping_ends_the_session_witness :
  stopPeriodicSummaries sampleEnv
    {| llm := false; activeSessionId := Some (js "s1");
       sessionStartTime := 900; lastMicroTime := 900;
       lastSessionSummaryTime := 900; microCount := 0; sessionCount := 0;
       store := sampleStore; clock := 1400; apiCalls := 4 |}
  = clearSession
      {| llm := false; activeSessionId := Some (js "s1");
         sessionStartTime := 900; lastMicroTime := 900;
         lastSessionSummaryTime := 900; microCount := 0; sessionCount := 0;
         store := sampleStore; clock := 1400; apiCalls := 4 |}.
Proof.
  apply (stopping_ends_the_session sampleEnv sampleEnv
           {| llm := false; activeSessionId := Some (js "s1");
              sessionStartTime := 900; lastMicroTime := 900;
              lastSessionSummaryTime := 900; microCount := 0; sessionCount := 0;
              store := sampleStore; clock := 1400; apiCalls := 4 |}).
  reflexivity.
Defined.


(** The value of the last row with the key [k]. *)
Definition lastValue (k : jsstring) (rows : list (jsstring * Z)) : option Z :=
  snd <$> List.last (List.map Some (List.filter (fun r => bool_decide (fst r = k)) rows))
                    None.

Lemma fromEntries_lookup (rows : list (jsstring * Z)) (k : jsstring) :
  fromEntries rows !! k = lastValue k rows.
Proof.
  unfold fromEntries, lastValue.
  induction rows as [|[k' v] rows IH] using rev_ind; [done|].
  rewrite fold_left_app, List.filter_app. simpl.
  destruct (decide (k' = k)) as [->|Hne].
  - rewrite lookup_insert_eq, bool_decide_eq_true_2 by done.
    rewrite List.map_app. simpl. by rewrite last_last.
  - rewrite lookup_insert_ne, bool_decide_eq_false_2 by done.
    by rewrite app_nil_r.
Qed.

(** A world in which the next completion call answers [content], decoded
    as the object with the fields [fields]. *)
Definition answers (E : Env) (w : World) (fields : list (jsstring * json)) : Prop :=
  exists content,
    api E (apiCalls w) = Completed content
    /\ decode E content = Some (JObj fields).

(** X24. A summary that is not text is stored and then lost to the caller.
    Let the micro-summary call answer with an object whose [summary] is
    truthy.  The row is inserted with that value as its summary, the
    watermark is set to the clock read before the call, and the counter of
    micro-summaries advances.  [generateMicroSummary] then returns the
    summary to its caller when the value is a string or an array, and null
    when it is a number, a boolean or an object, which have no [slice]:
    the row stays stored. *)
Theorem summary_without_slice_is_stored_not_returned (E : Env) (w : World)
    (session : jsstring) (s0 : ActivitySegment) (segs : list ActivitySegment)
    (fields : list (jsstring * json)) (v : json) :
  llm w = true ->
  activeSessionId w = Some session ->
  nonEmpty session = true ->
  getUnprocessedSegmentsForMicro (store w) session (lastMicroTime w) = s0 :: segs ->
  answers E w fields ->
  lookupField (js "summary") fields = Some v ->
  truthy (Some v) = true ->
  let r := fst (generateMicroSummary E w) in
  let w' := snd (generateMicroSummary E w) in
  (exists row,
      micros (store w') = micros (store w) ++ [row]
      /\ m_summary row = v
      /\ m_sessionId row = session
      /\ m_startTime row = startTime s0
      /\ m_segmentIds row = segmentIdsOf (s0 :: segs))
  /\ lastMicroTime w' = clock w
  /\ microCount w' = microCount w + 1
  /\ (r = None <-> hasSlice v = false)
  /\ (forall m, r = Some m -> m_summary m = v).
Proof.
  intros Hllm Hs Hne Hsegs (content & Hapi & Hdec) Hv Htruthy. cbv zeta.
  unfold generateMicroSummary. rewrite Hllm, Hs, Hne, Hsegs. cbn [negb].
  unfold callApi. rewrite Hapi, Hdec. unfold storeMicro.
  cbn [getProp]. rewrite Hv.
  assert (Hor : orElse (Some v) (JStr (js "No summary available")) = v).
  { unfold orElse. by rewrite Htruthy. }
  rewrite Hor.
  generalize (computeAppBreakdown (s0 :: segs)) (segmentIdsOf (s0 :: segs))
             (lastEnd (s0 :: segs)).
  intros breakdown ids finish.
  destruct (llmProjectOf _) as [[|u p]|];
    cbn [nonEmpty insertMicroSummary m_summary];
    destruct (hasSlice v) eqn:Hslice; cbn;
    (split; [eexists; split; [reflexivity|]; by repeat split|]);
    (split; [reflexivity|]); (split; [reflexivity|]);
    (split; [split; congruence|]); by intros m [= <-].
Qed.

Definition numericEnv : Env :=
  {| api := fun _ => Completed (Some (js "{}"));
     delay := fun _ => 1;
     JSON_parse := fun _ => Some (JObj [(js "summary", JNum 42)]);
     StringToNumber := fun _ => None;
     microInRange := fun a b m => (a <=? m_startTime m) && (m_endTime m <=? b);
     segmentInRange := fun a b s => (a <=? startTime s) && (endTime s <=? b);
     eventInRange := fun a b e => (a <=? timestamp e) && (timestamp e <=? b);
     todayDateString := fun _ => js "2026-01-15";
     dayStartOf := fun _ => 0;
     aggregatesFor := fun _ _ =>
       {| appUsage := []; projectUsage := []; totalTracked := 0; totalIdle := 0;
          productive := 0; distracted := 0 |} |}.


Lemma summary_without_slice_is_stored_not_returned_witness :
  fst (generateMicroSummary numericEnv (sampleWorld 0)) = None
  /\ microCount (snd (generateMicroSummary numericEnv (sampleWorld 0))) = 1.
Proof.
  match eval vm_compute in
    (getUnprocessedSegmentsForMicro (store (sampleWorld 0)) (js "s1") 900) with
  | ?s0 :: ?segs =>
      destruct (summary_without_slice_is_stored_not_returned numericEnv (sampleWorld 0)
                  (js "s1") s0 segs [(js "summary", JNum 42)] (JNum 42))
        as (_ & _ & Hcount & Hnull & _)
  end.
  - reflexivity.
  - reflexivity.
  - reflexivity.
  - vm_compute. reflexivity.
  - exists (Some (js "{}")). split; reflexivity.
  - vm_compute. reflexivity.
  - reflexivity.
  - split; [by apply Hnull|exact Hcount].
Defined.

(** X25. A daily summary writes the one row of its date.  When
    [generateDailySummary] returns a summary, its date is the date asked
    for; its four totals, its top apps and its top projects are the day
    totals of the store, whatever the completion call answered (an app or a
    project listed twice keeps its last value); the row of that date is
    this summary, the rows of all other dates are as before, and the other
    tables, both watermarks and both counters are untouched; one completion
    call was issued. *)
Theorem daily_summary_writes_one_row (E : Env) (date : jsstring) (w w' : World)
    (d : DailySummary) :
  generateDailySummary E date w = (Some d, w') ->
  let agg := aggregatesFor E (store w) date in
  d_date d = date
  /\ d_totalTrackedSecs d = totalTracked agg
  /\ d_totalIdleSecs d = totalIdle agg
  /\ d_totalProductiveSecs d = productive agg
  /\ d_totalDistractedSecs d = distracted agg
  /\ (forall app, d_topApps d !! app = lastValue app (appUsage agg))
  /\ (forall p, d_topProjects d !! p = lastValue p (projectUsage agg))
  /\ dailies (store w') !! date = Some d
  /\ (forall other, other <> date ->
        dailies (store w') !! other = dailies (store w) !! other)
  /\ micros (store w') = micros (store w)
  /\ sessions (store w') = sessions (store w)
  /\ segments (store w') = segments (store w)
  /\ rawEvents (store w') = rawEvents (store w)
  /\ deepDives (store w') = deepDives (store w)
  /\ lastMicroTime w' = lastMicroTime w
  /\ lastSessionSummaryTime w' = lastSessionSummaryTime w
  /\ microCount w' = microCount w
  /\ sessionCount w' = sessionCount w
  /\ apiCalls w' = S (apiCalls w).
Proof.
  intros H. cbv zeta.
  set (agg := aggregatesFor E (store w) date) in *.
  assert (Hfields :
            d_date d = date
            /\ d_totalTrackedSecs d = totalTracked agg
            /\ d_totalIdleSecs d = totalIdle agg
            /\ d_totalProductiveSecs d = productive agg
            /\ d_totalDistractedSecs d = distracted agg
            /\ d_topApps d = fromEntries (appUsage agg)
            /\ d_topProjects d = fromEntries (projectUsage agg)
            /\ store w' = upsertDailySummary d (store w)
            /\ lastMicroTime w' = lastMicroTime w
            /\ lastSessionSummaryTime w' = lastSessionSummaryTime w
            /\ microCount w' = microCount w
            /\ sessionCount w' = sessionCount w
            /\ apiCalls w' = S (apiCalls w)).
  { assert (Hcall :
      (let '(outcome, w1) := callApi E w in
       match outcome with
       | Rejected _ => (None, w1)
       | Completed content =>
           match decode E content with
           | Some parsed => storeDaily E date (dayStartOf E date) agg parsed w1
           | None => (None, w1)
           end
       end) = (Some d, w') ->
      d_date d = date
      /\ d_totalTrackedSecs d = totalTracked agg
      /\ d_totalIdleSecs d = totalIdle agg
      /\ d_totalProductiveSecs d = productive agg
      /\ d_totalDistractedSecs d = distracted agg
      /\ d_topApps d = fromEntries (appUsage agg)
      /\ d_topProjects d = fromEntries (projectUsage agg)
      /\ store w' = upsertDailySummary d (store w)
      /\ lastMicroTime w' = lastMicroTime w
      /\ lastSessionSummaryTime w' = lastSessionSummaryTime w
      /\ microCount w' = microCount w
      /\ sessionCount w' = sessionCount w
      /\ apiCalls w' = S (apiCalls w)).
    { unfold callApi. destruct (api E (apiCalls w)) as [err|content]; [done|].
      destruct (decode E content) as [parsed|]; [|done].
      unfold storeDaily. generalize agg. intros a Hst. run; by repeat split. }
    revert H. unfold generateDailySummary. fold agg.
    destruct (llm w); cbn [negb]; [|done].
    destruct (getSessionSummaries (store w) date) as [|s0 sess]; [|exact Hcall].
    destruct (getMicroSummaries E (store w) _ _) as [|m0 ms]; [done|exact Hcall]. }
  destruct Hfields as (Hdate & Ht & Hi & Hp & Hd & Happs & Hprojects & Hstore
                       & Hm & Hs & Hmc & Hsc & Hcalls).
  rewrite Hstore. cbn [upsertDailySummary dailies micros sessions segments rawEvents
                       deepDives].
  rewrite Hdate, Happs, Hprojects.
  repeat (split; [done|]).
  split; [intros app; apply fromEntries_lookup|].
  split; [intros p; apply fromEntries_lookup|].
  split; [by rewrite lookup_insert_eq|].
  split; [intros other Hother; by rewrite lookup_insert_ne|].
  by repeat split.
Qed.

Lemma daily_summary_writes_one_row_witness :
  exists d w',
    generateDailySummary numericEnv (js "2026-01-15") (busyWorld 0) = (Some d, w')
    /\ d_date d = js "2026-01-15"
    /\ dailies (store w') !! js "2026-01-15" = Some d.
Proof.
  destruct (generateDailySummary numericEnv (js "2026-01-15") (busyWorld 0))
    as [[d|] w'] eqn:H; [|vm_compute in H; discriminate].
  exists d, w'. split; [reflexivity|].
  destruct (daily_summary_writes_one_row numericEnv (js "2026-01-15") (busyWorld 0) w' d H)
    as (Hdate & _ & _ & _ & _ & _ & _ & Hrow & _).
  by split.
Defined.


(** X26. What the deep-dive cache can hold.  A cached entry is returned
    before anything else is looked at, even without a client.  An entry
    that is in the cache after [generateDeepDive] was there before, or it
    is the answer of this call, stored under its key: there was no entry
    for the key, the client is configured, the range holds raw events and
    the completion call completed.  So the fixed messages for a missing
    client and for an empty range, and the message of a rejected call, are
    never cached; but when the call completes with no content, or an empty
    one, the answer [Analysis unavailable.] is cached like an analysis. *)
Theorem deep_dive_cache_holds_completed_answers (E : Env) (start end_ : Z)
    (w : World) :
  let key := cacheKey w start end_ in
  let r := fst (generateDeepDive E start end_ w) in
  let w' := snd (generateDeepDive E start end_ w) in
  (forall cached, getCachedDeepDive (store w) key = Some cached ->
     r = cached /\ w' = w)
  /\ (forall k entry, deepDives (store w') !! k = Some entry ->
        deepDives (store w) !! k = Some entry
        \/ (k = key /\ entry = r
            /\ getCachedDeepDive (store w) key = None
            /\ llm w = true
            /\ getRawEvents E (store w) start end_ <> []
            /\ exists content,
                 api E (apiCalls w) = Completed content
                 /\ analysis r = orDefault content (js "Analysis unavailable.")))
  /\ (forall content,
        getCachedDeepDive (store w) key = None ->
        llm w = true ->
        getRawEvents E (store w) start end_ <> [] ->
        api E (apiCalls w) = Completed content ->
        truthyStr content = false ->
        r = {| analysis := js "Analysis unavailable." |}
        /\ getCachedDeepDive (store w') key = Some r).
Proof.
  cbv zeta. unfold generateDeepDive. split; [|split].
  - by intros cached ->.
  - intros k entry.
    destruct (getCachedDeepDive (store w) (cacheKey w start end_)) eqn:Hc; [by left|].
    destruct (llm w) eqn:Hllm; cbn [negb]; [|by left].
    destruct (getRawEvents E (store w) start end_) as [|e0 events] eqn:Hev; [by left|].
    unfold callApi. destruct (api E (apiCalls w)) as [err|content] eqn:Hapi; [by left|].
    cbn [fst snd store withStore cacheDeepDive deepDives].
    destruct (decide (k = cacheKey w start end_)) as [->|Hk].
    + rewrite lookup_insert_eq. intros [= <-]. right.
      repeat split; try done. by exists content.
    + rewrite lookup_insert_ne by done. by left.
  - intros content -> -> Hev Hapi Hfalsy. cbn [negb].
    destruct (getRawEvents E (store w) start end_) as [|e0 events]; [done|].
    unfold callApi. rewrite Hapi.
    assert (orDefault content (js "Analysis unavailable.") = js "Analysis unavailable.")
      as ->; [by destruct content as [[|? ?]|]|].
    split; [done|]. unfold getCachedDeepDive. simpl. by rewrite lookup_insert_eq.
Qed.

Definition silentEnv : Env :=
  {| api := fun _ => Completed None;
     delay := fun _ => 1;
     JSON_parse := fun _ => None;
     StringToNumber := fun _ => None;
     microInRange := fun a b m => (a <=? m_startTime m) && (m_endTime m <=? b);
     segmentInRange := fun a b s => (a <=? startTime s) && (endTime s <=? b);
     eventInRange := fun a b e => (a <=? timestamp e) && (timestamp e <=? b);
     todayDateString := fun _ => js "2026-01-15";
     dayStartOf := fun _ => 0;
     aggregatesFor := fun _ _ =>
       {| appUsage := []; projectUsage := []; totalTracked := 0; totalIdle := 0;
          productive := 0; distracted := 0 |} |}.

Lemma deep_dive_cache_holds_completed_answers_witness :
  getCachedDeepDive (store (snd (generateDeepDive silentEnv 900 1400 idleWorld)))
                    (cacheKey idleWorld 900 1400)
  = Some (fst (generateDeepDive silentEnv 900 1400 idleWorld)).
Proof.
  apply (deep_dive_cache_holds_completed_answers silentEnv 900 1400 idleWorld) with None.
  - reflexivity.
  - reflexivity.
  - vm_compute. discriminate.
  - reflexivity.
  - reflexivity.
Defined.

(** The seconds a dictionary of durations holds in all: the sum of its
    numbers. *)
Definition total (m : gmap jsstring DictValue) : Z :=
  map_fold (fun _ v acc => numberOr0 v + acc) 0 m.

(** A dictionary that holds numbers only. *)
Definition allNumbers (m : gmap jsstring DictValue) : Prop :=
  forall k, m !! k <> Some DText.

Lemma total_insert (k : jsstring) (v : DictValue) (m : gmap jsstring DictValue) :
  m !! k = None -> total (<[k := v]> m) = numberOr0 v + total m.
Proof.
  intros Hk. unfold total.
  apply (map_fold_insert_L (fun _ v acc => numberOr0 v + acc)); [|done].
  intros. lia.
Qed.

Lemma addTo_ordinary (k : jsstring) (n : Z) (m : gmap jsstring DictValue) :
  ordinaryKey k = true -> allNumbers m ->
  total (addTo k n m) = total m + n /\ allNumbers (addTo k n m).
Proof.
  intros Hk Hall. destruct (ordinaryKey_own k Hk) as [Hproto Hinh].
  assert (Hkeep : forall v, allNumbers (<[k := DNum v]> m)).
  { intros v k'. destruct (decide (k = k')) as [<-|Hne].
    - by rewrite lookup_insert_eq.
    - rewrite lookup_insert_ne by done. apply Hall. }
  unfold addTo. destruct (m !! k) as [[old|]|] eqn:Hlook.
  - split; [|apply Hkeep].
    rewrite <- insert_delete_eq, total_insert by apply lookup_delete_eq.
    unfold total at 2.
    rewrite (map_fold_delete_L (fun _ v acc => numberOr0 v + acc) 0 k (DNum old) m);
      [|intros; lia|done].
    fold (total (delete k m)). simpl. lia.
  - by destruct (Hall k).
  - rewrite Hproto, Hinh. split; [|apply Hkeep].
    rewrite total_insert by done. simpl. lia.
Qed.

Lemma total_fold_addTo {A} (key : A -> jsstring) (val : A -> Z) (items : list A) :
  Forall (fun x => ordinaryKey (key x) = true) items ->
  forall acc,
    allNumbers acc ->
    total (fold_left (fun acc x => addTo (key x) (val x) acc) items acc)
    = total acc + sumZ (List.map val items).
Proof.
  induction 1 as [|x items Hx _ IH]; intros acc Hacc; simpl; [lia|].
  destruct (addTo_ordinary (key x) (val x) acc Hx Hacc) as [Htotal Hall].
  rewrite IH by done. lia.
Qed.

Lemma ordinary_checked {A} (key : A -> jsstring) (l : list A) :
  forallb (fun x => ordinaryKey (key x)) l = true ->
  Forall (fun x => ordinaryKey (key x) = true) l.
Proof.
  intros H. apply List.Forall_forall. intros x Hx.
  exact (proj1 (forallb_forall _ l) H x Hx).
Qed.

Lemma allNumbers_empty : allNumbers ∅.
Proof. intros k. by rewrite lookup_empty. Qed.

Lemma total_to_list (m : gmap jsstring DictValue) :
  total m = sumZ (List.map (fun e => numberOr0 (snd e)) (map_to_list m)).
Proof.
  unfold total. rewrite map_fold_foldr.
  induction (map_to_list m) as [|[k v] l IH]; simpl; [done|]. by rewrite IH.
Qed.

(** The segments [computeProjects] counts: those with a project that is not
    empty. *)
Definition hasProject (s : ActivitySegment) : bool := truthyStr (project s).

(** The key under which [computeProjects] counts a segment. *)
Definition projectKey (s : ActivitySegment) : jsstring :=
  trim (orDefault (project s) []).

(** X27. No second is lost or counted twice, as long as no name is the
    name of a property every object inherits.  If no contributing segment
    is attributed to an app called like a property of [Object.prototype],
    the numbers in the app breakdown of a micro-summary add up to the
    durations of the segments.  If no app of the breakdowns is called so
    once its domain suffix is stripped, the numbers in the app statistics of
    a session summary add up to the numbers in the breakdowns of its
    micro-summaries, although app names are merged.  If no project is
    called so, the numbers in the projects of a session summary add up to
    the durations of the segments that have a project. *)
Theorem breakdowns_conserve_time (segs : list ActivitySegment)
    (ms : list MicroSummary) :
  (Forall (fun s => ordinaryKey (appOf s) = true) segs ->
   total (computeAppBreakdown segs) = sumZ (List.map duration segs))
  /\ (Forall (fun e => forall name, withoutSuffix (fst e) name -> ordinaryKey name = true)
             (breakdownEntries ms) ->
      total (computeAppStats ms)
      = sumZ (List.map (fun m => total (m_appBreakdown m)) ms))
  /\ (Forall (fun s => ordinaryKey (projectKey s) = true) (List.filter hasProject segs) ->
      total (computeProjects segs)
      = sumZ (List.map duration (List.filter hasProject segs))).
Proof.
  assert (Hempty : total ∅ = 0) by (unfold total; by rewrite map_fold_empty).
  split; [|split].
  - intros Hkeys.
    change (computeAppBreakdown segs)
      with (fold_left (fun acc x => addTo (appOf x) (duration x) acc) segs ∅).
    rewrite (total_fold_addTo appOf duration segs Hkeys ∅ allNumbers_empty). lia.
  - intros Hnames. unfold computeAppStats. rewrite fold_left_flat_map.
    fold (breakdownEntries ms).
    assert (Hkeys : Forall (fun e : jsstring * DictValue =>
                              ordinaryKey (normalizeApp (fst e)) = true)
                           (breakdownEntries ms)).
    { eapply List.Forall_impl; [|exact Hnames]. intros e He. cbv beta in He.
      apply He, normalizeApp_withoutSuffix. }
    rewrite (total_fold_addTo (fun e : jsstring * DictValue => normalizeApp (fst e))
               (fun e => numberOr0 (snd e)) _ Hkeys ∅ allNumbers_empty).
    rewrite Hempty, Z.add_0_l. clear Hkeys Hnames. unfold breakdownEntries.
    induction ms as [|m ms IH]; [done|].
    cbn [flat_map List.map sumZ fold_right].
    fold (sumZ (List.map (fun m => total (m_appBreakdown m)) ms)).
    rewrite List.map_app, sumZ_app, IH, total_to_list. done.
  - intros Hkeys. unfold computeProjects.
    assert (Hgen : forall acc,
      allNumbers acc ->
      total (fold_left
               (fun acc seg =>
                  match project seg with
                  | Some p => if nonEmpty p then addTo (trim p) (duration seg) acc else acc
                  | None => acc
                  end) segs acc)
      = total acc + sumZ (List.map duration (List.filter hasProject segs))).
    { induction segs as [|s segs IH]; intros acc Hacc; [simpl; lia|].
      cbn [fold_left List.filter] in *.
      assert (Hs : hasProject s
                   = match project s with Some p => nonEmpty p | None => false end)
        by reflexivity.
      rewrite Hs in *. clear Hs.
      destruct (project s) as [p|] eqn:Hp; [|by apply IH].
      destruct (nonEmpty p) eqn:Hne; [|by apply IH].
      inversion Hkeys as [|? ? Hkey Hrest]; subst.
      unfold projectKey in Hkey. rewrite Hp in Hkey. cbn [orDefault] in Hkey.
      rewrite Hne in Hkey.
      destruct (addTo_ordinary (trim p) (duration s) acc Hkey Hacc) as [Htotal Hall].
      rewrite (IH Hrest) by done. cbn [List.map sumZ fold_right].
      fold (sumZ (List.map duration (List.filter hasProject segs))). lia. }
    rewrite (Hgen ∅ allNumbers_empty). lia.
Qed.

Lemma breakdowns_conserve_time_witness :
  let ms := [ sampleMicroRow 1 1000 1150 "Reviewed pull requests"
                [(js "github.com", 50); (js "github", 30); (js "VS Code", 100)] ] in
  total (computeAppBreakdown (segments sampleStore)) = 250
  /\ sumZ (List.map duration (segments sampleStore)) = 250
  /\ total (computeAppStats ms) = 180
  /\ sumZ (List.map (fun m => total (m_appBreakdown m)) ms) = 180
  /\ total (computeProjects (segments sampleStore)) = 240
  /\ sumZ (List.map duration (List.filter hasProject (segments sampleStore))) = 240.
Proof.
  intros ms.
  destruct (breakdowns_conserve_time (segments sampleStore) ms) as (Happs & Hstats & Hprojects).
  assert (Ha : forallb (fun s => ordinaryKey (appOf s)) (segments sampleStore) = true)
    by (vm_compute; reflexivity).
  assert (Hs : forallb (fun e => ordinaryKey (normalizeApp (fst e))) (breakdownEntries ms)
               = true)
    by (vm_compute; reflexivity).
  assert (Hp : forallb (fun s => ordinaryKey (projectKey s))
                 (List.filter hasProject (segments sampleStore)) = true)
    by (vm_compute; reflexivity).
  rewrite (Happs (ordinary_checked appOf _ Ha)).
  assert (Hnames : Forall (fun e : jsstring * DictValue =>
                             forall name, withoutSuffix (fst e) name ->
                                          ordinaryKey name = true)
                          (breakdownEntries ms)).
  { eapply List.Forall_impl;
      [|exact (ordinary_checked (fun e => normalizeApp (fst e)) _ Hs)].
    intros e He name Hname. cbv beta in He. apply normalizeApp_iff in Hname.
    by rewrite <- Hname. }
  rewrite (Hstats Hnames).
  rewrite (Hprojects (ordinary_checked projectKey _ Hp)).
  vm_compute. repeat split; reflexivity.
Defined.

(** With an app called [__proto__] the seconds of its segment are in no
    entry: the breakdown of [protoSegments] holds 30 of their 180 seconds. *)
Example breakdown_loses_seconds :
  total (computeAppBreakdown protoSegments) = 30
  /\ sumZ (List.map duration protoSegments) = 180.
Proof. vm_compute. by split. Qed.

End SummarizerExtras.

(* ===================================================================== *)
(** ** Facts about the texts the summarizer prints and reads *)
(* ===================================================================== *)

Module FormatFacts.
Import JS Regex Summarizer SummarizerFacts.

(** The code units of a decimal numeral: digits and the minus sign. *)
Definition numeric (c : N) : bool := isDigit c || (c =? 45)%N.

(** The first code unit, if any, is not numeric. *)
Definition notNumeric (rest : jsstring) : Prop :=
  match rest with c :: _ => numeric c = false | [] => True end.

Lemma js_cons (c : ascii) (s : string) : js (String c s) = N_of_ascii c :: js s.
Proof. done. Qed.

Lemma js_app (s t : string) : js (String.append s t) = js s ++ js t.
Proof.
  induction s as [|c s IH]; [done|].
  change (js (String c (String.append s t)) = js (String c s) ++ js t).
  rewrite !js_cons. by rewrite IH.
Qed.

Lemma js_inj (s t : string) : js s = js t -> s = t.
Proof.
  revert t. induction s as [|c s IH]; intros [|d t]; try done.
  rewrite !js_cons. intros [= Hc Hs]. f_equal; [|by apply IH].
  rewrite <- (ascii_N_embedding c), <- (ascii_N_embedding d). by rewrite Hc.
Qed.

Lemma pretty_N_char_digit (x : N) : isDigit (N_of_ascii (pretty.pretty_N_char x)) = true.
Proof.
  destruct x as [|p]; [done|].
  do 4 (try (destruct p as [p|p|]; try reflexivity)).
Qed.

Lemma pretty_N_go_digits (x : N) : forall s,
  exists d, js (pretty.pretty_N_go x s) = d ++ js s
            /\ Forall (fun c => isDigit c = true) d.
Proof.
  induction (N.lt_wf_0 x) as [x _ IH]. intros s.
  destruct (decide (x = 0%N)) as [->|Hx].
  - rewrite pretty.pretty_N_go_0. by exists [].
  - rewrite pretty.pretty_N_go_step by lia.
    destruct (IH (x `div` 10)%N) with (s := String (pretty.pretty_N_char (x `mod` 10)) s)
      as (d & Hd & Hdigits).
    { apply N.div_lt; lia. }
    exists (d ++ [N_of_ascii (pretty.pretty_N_char (x `mod` 10))]).
    rewrite Hd, js_cons, <- app_assoc. split; [done|].
    apply Forall_app. split; [done|]. constructor; [|done]. apply pretty_N_char_digit.
Qed.

Lemma pretty_N_digits (x : N) : Forall (fun c => isDigit c = true) (js (pretty.pretty x)).
Proof.
  unfold pretty.pretty, pretty.pretty_N. destruct (decide (x = 0%N)); [by repeat constructor|].
  destruct (pretty_N_go_digits x "") as (d & -> & Hd). by rewrite app_nil_r.
Qed.

Lemma dec_numeric (n : Z) : Forall (fun c => numeric c = true) (dec n).
Proof.
  assert (Hd : forall l, Forall (fun c => isDigit c = true) l ->
                         Forall (fun c => numeric c = true) l).
  { intros l. apply List.Forall_impl. intros c Hc. unfold numeric. by rewrite Hc. }
  unfold dec. destruct n as [|p|p]; [by repeat constructor| |].
  - apply Hd. apply (pretty_N_digits (Npos p)).
  - change (pretty.pretty (Z.neg p)) with (String.append "-" (pretty.pretty (Npos p))).
    rewrite js_app. apply Forall_app. split; [by repeat constructor|].
    apply Hd. apply (pretty_N_digits (Npos p)).
Qed.

Lemma dec_inj (a b : Z) : dec a = dec b -> a = b.
Proof. intros H. apply js_inj in H. by apply (inj pretty.pretty) in H. Qed.

(** A numeral is read back from the text that begins with it. *)
Lemma numeral_prefix (p1 p2 r1 r2 : jsstring) :
  Forall (fun c => numeric c = true) p1 -> Forall (fun c => numeric c = true) p2 ->
  notNumeric r1 -> notNumeric r2 ->
  p1 ++ r1 = p2 ++ r2 -> p1 = p2 /\ r1 = r2.
Proof.
  intros H1. revert p2. induction H1 as [|c p1 Hc _ IH]; intros p2 H2 Hr1 Hr2.
  - destruct H2 as [|d p2 Hd _]; simpl; [done|].
    intros ->. simpl in Hr1. congruence.
  - destruct H2 as [|d p2 Hd H2]; simpl.
    + intros <-. simpl in Hr2. congruence.
    + intros [= -> Heq]. destruct (IH p2 H2 Hr1 Hr2 Heq) as [-> ->]. done.
Qed.

(** X28. Durations are printed without loss.  On the integers a number
    holds exactly, from [-(2^53 - 1)] to [2^53 - 1], [fmtDuration] prints a
    duration below one minute as its seconds followed by [s], and any other
    as its whole minutes followed by [m], and then by the remaining seconds
    and [s] when there are some; hours are never printed.  Two such
    durations that are printed alike are equal. *)
Theorem fmtDuration_is_injective (a b : Z) :
  isSafeInteger a = true ->
  isSafeInteger b = true ->
  (a < 60 -> fmtDuration a = dec a ++ js "s")
  /\ (60 <= a -> a mod 60 = 0 -> fmtDuration a = dec (a / 60) ++ js "m")
  /\ (60 <= a -> a mod 60 <> 0 ->
      fmtDuration a = dec (a / 60) ++ js "m " ++ dec (a mod 60) ++ js "s")
  /\ (fmtDuration a = fmtDuration b -> a = b).
Proof.
  intros _ _.
  assert (Hform : forall x,
    (x < 60 /\ fmtDuration x = dec x ++ js "s")
    \/ (60 <= x /\ x mod 60 = 0 /\ fmtDuration x = dec (x / 60) ++ js "m")
    \/ (60 <= x /\ x mod 60 <> 0
        /\ fmtDuration x = dec (x / 60) ++ js "m " ++ dec (x mod 60) ++ js "s")).
  { intros x. unfold fmtDuration. destruct (x <? 60) eqn:Hx.
    - left. apply Z.ltb_lt in Hx. by split.
    - right. apply Z.ltb_ge in Hx.
      pose proof (Z.mod_pos_bound x 60 ltac:(lia)) as Hmod.
      destruct (0 <? x mod 60) eqn:Hs.
      + right. apply Z.ltb_lt in Hs. split; [done|]. split; [lia|done].
      + left. apply Z.ltb_ge in Hs. split; [done|]. split; [lia|done]. }
  split; [|split; [|split]].
  - intros Ha. destruct (Hform a) as [[_ H]|[(? & _)|(? & _)]]; [done|lia..].
  - intros Ha Hm. destruct (Hform a) as [[? _]|[(_ & _ & H)|(_ & ? & _)]]; [lia|done|lia].
  - intros Ha Hm. destruct (Hform a) as [[? _]|[(_ & ? & _)|(_ & _ & H)]]; [lia|lia|done].
  - intros Heq.
    pose proof (Z.div_mod a 60 ltac:(lia)) as Hda.
    pose proof (Z.div_mod b 60 ltac:(lia)) as Hdb.
    destruct (Hform a) as [[Ha Hfa]|[(Ha & Hma & Hfa)|(Ha & Hma & Hfa)]];
      destruct (Hform b) as [[Hb Hfb]|[(Hb & Hmb & Hfb)|(Hb & Hmb & Hfb)]];
      rewrite Hfa, Hfb in Heq;
      apply numeral_prefix in Heq as [Hnum Hrest];
      try apply dec_numeric; try reflexivity; try discriminate.
    + by apply dec_inj.
    + apply dec_inj in Hnum. lia.
    + apply dec_inj in Hnum.
      injection Hrest as Hrest. apply app_inv_tail in Hrest. apply dec_inj in Hrest. lia.
Qed.

Lemma fmtDuration_is_injective_witness :
  fmtDuration 7325 = dec 122 ++ js "m " ++ dec 5 ++ js "s".
Proof.
  apply (fmtDuration_is_injective 7325 0);
    [reflexivity|reflexivity|lia|vm_compute; discriminate].
Defined.

(** The last separator of a text decides how it splits. *)
Lemma separator_first (c : N) (a b x y : jsstring) :
  ~ In c a -> ~ In c b -> a ++ c :: x = b ++ c :: y -> a = b /\ x = y.
Proof.
  revert b. induction a as [|u a IH]; intros [|v b] Ha Hb; simpl.
  - by intros [= ->].
  - intros [= -> _]. destruct Hb. by left.
  - intros [= -> _]. destruct Ha. by left.
  - intros [= -> Heq]. destruct (IH b) as [-> ->]; [| |done|done].
    + intros H. apply Ha. by right.
    + intros H. apply Hb. by right.
Qed.

Lemma separator_last (c : N) (a b x y : jsstring) :
  ~ In c x -> ~ In c y -> a ++ c :: x = b ++ c :: y -> a = b /\ x = y.
Proof.
  intros Hx Hy Heq. apply (f_equal (@rev N)) in Heq.
  rewrite !rev_app_distr in Heq. simpl in Heq. rewrite <- !app_assoc in Heq. simpl in Heq.
  apply separator_first in Heq as [H1 H2]; [| by rewrite <- in_rev..].
  apply (f_equal (@rev N)) in H1, H2. rewrite !rev_involutive in H1, H2. done.
Qed.

Lemma dec_no_colon (n : Z) : ~ In 58%N (dec n).
Proof.
  intros Hin. pose proof (dec_numeric n) as H. rewrite List.Forall_forall in H.
  specialize (H _ Hin). done.
Qed.

(** The session part of a cache key. *)
Definition sessionPart (w : World) : jsstring :=
  orDefault (activeSessionId w) (js "none").

(** X29. A cache key names one range of one session.  Two keys are equal
    only if the two ranges are the same and the session parts, the active
    session or [none], are the same.  So an analysis cached for one range
    is never served for another; and since the key is built from the
    session that is active at the time of the call, the key of a range
    changes when the session ends, unless the session is called [none]. *)
Theorem cache_key_names_one_range (w1 w2 : World) (start1 end1 start2 end2 : Z) :
  (cacheKey w1 start1 end1 = cacheKey w2 start2 end2 ->
   sessionPart w1 = sessionPart w2 /\ start1 = start2 /\ end1 = end2)
  /\ (truthyStr (activeSessionId w1) = true ->
      activeSessionId w1 <> Some (js "none") ->
      cacheKey (clearSession w1) start1 end1 <> cacheKey w1 start1 end1).
Proof.
  assert (Hinj : forall wa wb s1 e1 s2 e2,
            cacheKey wa s1 e1 = cacheKey wb s2 e2 ->
            sessionPart wa = sessionPart wb /\ s1 = s2 /\ e1 = e2).
  { assert (Hkey : forall w s e,
              cacheKey w s e = (sessionPart w ++ 58%N :: dec s) ++ 58%N :: dec e).
    { intros w s e. unfold cacheKey, sessionPart. by rewrite <- app_assoc. }
    intros wa wb s1 e1 s2 e2. rewrite !Hkey. intros Heq.
    apply separator_last in Heq as [Heq He]; [|apply dec_no_colon..].
    apply separator_last in Heq as [Hs Hst]; [|apply dec_no_colon..].
    split; [done|]. split; by apply dec_inj. }
  split; [apply Hinj|].
  intros Htruthy Hnone Heq. apply Hinj in Heq as [Hs _].
  unfold sessionPart in Hs. simpl in Hs.
  destruct (activeSessionId w1) as [[|c s]|]; try done.
  simpl in Hs. apply Hnone. by rewrite <- Hs.
Qed.

Lemma cache_key_names_one_range_witness :
  cacheKey (clearSession idleWorld) 900 1400 <> cacheKey idleWorld 900 1400.
Proof.
  apply (cache_key_names_one_range idleWorld idleWorld 900 1400 900 1400).
  - reflexivity.
  - vm_compute. discriminate.
Defined.


(** The first code unit, if any, is not white space. *)
Definition notSpaceHead (s : jsstring) : Prop :=
  match s with c :: _ => isSpace c = false | [] => True end.

Lemma trimStart_head (s : jsstring) : notSpaceHead (trimStart s).
Proof.
  induction s as [|c s IH]; simpl; [done|]. by destruct (isSpace c) eqn:Hc.
Qed.

Lemma trimStart_fixed (s : jsstring) : notSpaceHead s -> trimStart s = s.
Proof. destruct s as [|c s]; simpl; [done|]. by intros ->. Qed.

Lemma trimStart_suffix (s : jsstring) : exists q, s = q ++ trimStart s.
Proof.
  induction s as [|c s [q IH]]; simpl; [by exists []|].
  destruct (isSpace c); [|by exists []]. exists (c :: q). simpl. by rewrite <- IH.
Qed.

Lemma trim_fixed (s : jsstring) :
  notSpaceHead s -> notSpaceHead (rev s) -> trim s = s.
Proof.
  intros H1 H2. unfold trim.
  by rewrite (trimStart_fixed s H1), (trimStart_fixed _ H2), rev_involutive.
Qed.

Lemma trim_trimStart (s : jsstring) : trim (trimStart s) = trim s.
Proof. unfold trim. by rewrite (trimStart_fixed _ (trimStart_head s)). Qed.

Lemma trim_ends (s : jsstring) : notSpaceHead (trim s) /\ notSpaceHead (rev (trim s)).
Proof.
  unfold trim. rewrite rev_involutive. split; [|apply trimStart_head].
  pose proof (trimStart_head s) as Hu.
  destruct (trimStart_suffix (rev (trimStart s))) as [q Hq].
  destruct (trimStart (rev (trimStart s))) as [|c v] eqn:Hv using rev_ind; [done|].
  clear IHv. rewrite rev_app_distr. simpl.
  apply (f_equal (@rev N)) in Hq. rewrite rev_involutive, !rev_app_distr in Hq.
  simpl in Hq. rewrite Hq in Hu. exact Hu.
Qed.

Lemma trim_idem (s : jsstring) : trim (trim s) = trim s.
Proof. destruct (trim_ends s). by apply trim_fixed. Qed.

Lemma trim_all_space (s : jsstring) :
  Forall (fun c => isSpace c = true) s -> trim s = [].
Proof.
  intros H. unfold trim.
  assert (trimStart s = []) as ->; [|done].
  induction H as [|c s Hc _ IH]; simpl; [done|]. by rewrite Hc.
Qed.

Lemma trimStart_app_cases (b rest : jsstring) :
  (Forall (fun c => isSpace c = true) b /\ trimStart (b ++ rest) = trimStart rest)
  \/ trimStart (b ++ rest) = trimStart b ++ rest.
Proof.
  induction b as [|c b IH]; simpl; [left; by split|].
  destruct (isSpace c) eqn:Hc; [|by right].
  destruct IH as [[Hall Heq]|Heq]; [left; split; [by constructor|done]|by right].
Qed.

Lemma repClass_space_head (s : jsstring) :
  exists k tl, repClass isSpace s = (k, trimStart s) :: tl.
Proof.
  induction s as [|c s (k & tl & IH)]; simpl; [by exists 0%nat, []|].
  destruct (isSpace c); [|by exists 0%nat, []].
  rewrite IH. simpl. eauto.
Qed.

(** What [\s*\n?] consumes at a position: all the white space there. *)
Lemma spaces_then_newline (s : jsstring) :
  matchAtStart (Seq (Rep isSpace 0) (Opt (Cls (N.eqb 10)))) s = Some (trimStart s).
Proof.
  unfold matchAtStart.
  change (matches (Seq (Rep isSpace 0) (Opt (Cls (N.eqb 10)))) s)
    with (flat_map (matches (Opt (Cls (N.eqb 10))))
            (List.map snd (List.filter (fun '(k, _) => (0 <=? k)%nat)
                                       (repClass isSpace s)))).
  destruct (repClass_space_head s) as (k & tl & ->). simpl.
  pose proof (trimStart_head s) as Hhead.
  destruct (trimStart s) as [|c t]; [done|]. simpl in Hhead.
  destruct c as [|q]; [done|].
  destruct (10 =? q)%positive eqn:Hq; [|done].
  apply Pos.eqb_eq in Hq. subst q. discriminate Hhead.
Qed.

(** The closing fence: a new line and three backticks. *)
Definition closingFence : jsstring := 10%N :: js "```".

Lemma fenceClose_not_here (c d : N) (rest : jsstring) :
  c <> 96%N -> d <> 96%N -> matchAtStart fenceClose (c :: d :: rest) = None.
Proof.
  intros Hc Hd. apply not_eq_sym, N.eqb_neq in Hc, Hd.
  unfold matchAtStart, fenceClose.
  generalize (Seq (Rep isSpace 0) Eol). intros T.
  change (lit "```")
    with (Seq (Cls (N.eqb 96)) (Seq (Cls (N.eqb 96)) (Seq (Cls (N.eqb 96)) Eps))).
  cbn [matches].
  destruct (N.eqb 10 c); cbn [flat_map app]; rewrite ?Hc, ?Hd; reflexivity.
Qed.

(** The opening fence, tagged or not, is consumed before what follows it. *)
Lemma opening_fence (R : re) (tagged : bool) (rest x : jsstring) :
  head (matches R (10%N :: rest)) = Some x ->
  head (matches (Seq (lit "```") (Seq (Opt (lit "json")) R))
                (js "```" ++ (if tagged then js "json" else []) ++ 10%N :: rest))
  = Some x.
Proof.
  intros H. destruct tagged; simpl;
    destruct (matches R (10%N :: rest)); done.
Qed.

Lemma replaceFirst_close (b : jsstring) :
  Forall (fun c => c <> 96%N) b -> replaceFirst fenceClose (b ++ closingFence) = b.
Proof.
  induction 1 as [|c b Hc Hb IH]; [by vm_compute|].
  change ((c :: b) ++ closingFence) with (c :: b ++ closingFence).
  assert (Hnone : matchAtStart fenceClose (c :: b ++ closingFence) = None).
  { destruct Hb as [|d b Hd _]; simpl; by apply fenceClose_not_here. }
  cbn [replaceFirst]. rewrite Hnone. by rewrite IH.
Qed.

(** The text of a fenced block: the opening fence, tagged [json] or not,
    a new line, the body, a new line and the closing fence. *)
Definition fenced (tagged : bool) (body : jsstring) : jsstring :=
  js "```" ++ (if tagged then js "json" else []) ++ [10%N] ++ body ++ closingFence.

(** X30. What [stripCodeFences] removes.  A text that does not begin with
    three backticks once trimmed is only trimmed, and stripping it twice
    changes nothing more.  From a fenced block, tagged [json] or not, whose
    body holds no backtick, exactly the trimmed body is left. *)
Theorem code_fences_are_stripped (raw body : jsstring) (tagged : bool) :
  (startsWith (js "```") (trim raw) = false ->
   stripCodeFences raw = trim raw
   /\ stripCodeFences (stripCodeFences raw) = stripCodeFences raw)
  /\ (Forall (fun c => c <> 96%N) body ->
      stripCodeFences (fenced tagged body) = trim body).
Proof.
  split.
  - intros Hplain.
    assert (Hstrip : stripCodeFences raw = trim raw).
    { unfold stripCodeFences. rewrite Hplain. apply trim_idem. }
    split; [done|]. rewrite Hstrip. unfold stripCodeFences.
    by rewrite !trim_idem, Hplain, trim_idem.
  - intros Hbody. unfold stripCodeFences.
    assert (Htrim : trim (fenced tagged body) = fenced tagged body).
    { apply trim_fixed; [done|]. unfold fenced, closingFence.
      rewrite !rev_app_distr. done. }
    rewrite Htrim.
    assert (Hstarts : startsWith (js "```") (fenced tagged body) = true) by done.
    rewrite Hstarts.
    assert (Hopen : replaceAtStart fenceOpen (fenced tagged body)
                    = trimStart (body ++ closingFence)).
    { unfold replaceAtStart.
      assert (Hm : matchAtStart fenceOpen (fenced tagged body)
                   = Some (trimStart (body ++ closingFence))); [|by rewrite Hm].
      apply (opening_fence _ tagged (body ++ closingFence)).
      apply (spaces_then_newline (10%N :: body ++ closingFence)). }
    rewrite Hopen.
    destruct (trimStart_app_cases body closingFence) as [[Hall ->]| ->].
    + rewrite (trim_all_space body Hall). by vm_compute.
    + rewrite replaceFirst_close.
      * apply trim_trimStart.
      * destruct (trimStart_suffix body) as [q Hq]. rewrite Hq in Hbody.
        by apply Forall_app in Hbody as [_ ?].
Qed.

Lemma code_fences_are_stripped_witness :
  stripCodeFences (fenced true (js " {} ")) = trim (js " {} ").
Proof.
  apply (code_fences_are_stripped [] (js " {} ") true).
  vm_compute. repeat constructor; discriminate.
Defined.

End FormatFacts.
